(** * unsecure: bounded random draws, secure shuffle, secure string
      generation and constant-time comparison

    A shallow embedding of the TypeScript sources of [sandros94/unsecure]
    ([createSecureRandomGenerator], [secureRandomNumber], [secureShuffle],
    [secureGenerate] and [secureCompare]) and the proofs of the properties
    stated about them.

    Modelling conventions.
    - A JavaScript [number] holding an integer is a [Z]; every other number
      (a fraction, [NaN], an infinity) is an opaque [NonInt].  The
      comparisons, differences and remainders the sources take of their
      bounds are exact on Numbers; the one sum that is not, [min + (raw %
      range)] for bounds beyond [2^53], is rounded as binary64 rounds it
      ([Number_add]).
    - A [Uint32Array] cell holds its value modulo [2^32]; a [Uint8Array]
      cell is a [byte].
    - The platform entropy source [crypto.getRandomValues] is an arbitrary
      stream of integers together with the number of words consumed so far.
    - A [do ... while] rejection loop takes a [fuel] bound on its number of
      iterations; a run that exhausts it is [Spinning]. *)

From Stdlib Require Import ZArith Lia Ascii String.
From stdpp Require Import base numbers option list sets gmap strings pretty.

Local Open Scope Z_scope.

(** ** Outcomes of a call *)

(** The JavaScript exceptions thrown by the sources, with their messages. *)
Inductive exn : Type :=
  | RangeError (msg : string)
  | TypeError (msg : string)
  | Error (msg : string).

Inductive outcome (A : Type) : Type :=
  | Returned (a : A)
  | Threw (e : exn)
  | Spinning.
Arguments Returned {A} a.
Arguments Threw {A} e.
Arguments Spinning {A}.

Definition is_returned {A} (o : outcome A) : bool :=
  match o with Returned _ => true | _ => false end.

Definition is_threw {A} (o : outcome A) : bool :=
  match o with Threw _ => true | _ => false end.

(** A computation over a mutable state [S] that may throw or spin; the state
    reached at the point of failure is kept. *)
Definition M (S A : Type) : Type := S -> outcome A * S.

Definition ret {S A} (a : A) : M S A := fun s => (Returned a, s).

Definition bind {S A B} (m : M S A) (k : A -> M S B) : M S B :=
  fun s =>
    match m s with
    | (Returned a, s') => k a s'
    | (Threw e, s') => (Threw e, s')
    | (Spinning, s') => (Spinning, s')
    end.

Definition throw {S A} (e : exn) : M S A := fun s => (Threw e, s).

Notation "'let*' x := m 'in' k" := (bind m (fun x => k))
  (at level 10, x name, m at level 100, k at level 200).

(** ** JavaScript values used by the random utilities *)

Inductive number : Type :=
  | Int (z : Z)
  | NonInt (tag : nat).

Definition Number_isInteger (n : number) : bool :=
  match n with Int _ => true | NonInt _ => false end.

#[global] Instance number_eq_dec : EqDecision number.
Proof. solve_decision. Defined.

#[global] Instance number_countable : Countable number.
Proof.
  refine (inj_countable'
    (fun n => match n with Int z => inl z | NonInt t => inr t end)
    (fun s => match s with inl z => Int z | inr t => NonInt t end) _).
  intros []; reflexivity.
Defined.

(** The [ignore] argument as the sources inspect it: a [Set], an iterable
    that is not a string (an array in particular), a bare string, or any
    other value that is not [null] or [undefined]. *)
Inductive ignore_value : Type :=
  | IsSet (s : gset number)
  | IsIterable (l : list number)
  | IsString (s : string)
  | NotIterable.

(** ** The entropy source and the buffered session *)

Record entropy : Type := mkEntropy {
  stream : nat -> Z;
  taken : nat
}.

Definition uint32 (z : Z) : Z := z mod 2 ^ 32.

(** [crypto.getRandomValues(new Uint32Array(n))]. *)
Definition crypto_getRandomValues (n : nat) (e : entropy) : list Z * entropy :=
  ((fun i => uint32 (stream e (taken e + i)%nat)) <$> seq 0 n,
   mkEntropy (stream e) (taken e + n)%nat).

Definition BUFFER_SIZE : nat := 256.

Record session : Type := mkSession {
  buffer : list Z;
  index : nat
}.

Definition gstate : Type := session * entropy.

(** [createSecureRandomGenerator()]: a zeroed buffer and a cursor at the
    capacity, which forces a refill on the first draw. *)
Definition createSecureRandomGenerator : session :=
  mkSession (replicate BUFFER_SIZE 0) BUFFER_SIZE.

Definition _refillBuffer (st : gstate) : gstate :=
  let '(ws, e') := crypto_getRandomValues BUFFER_SIZE (snd st) in
  (mkSession ws 0, e').

(** ** Argument handling shared by [next] and [secureRandomNumber]

    Both functions open with the same text: overload resolution, range
    validation, normalisation of [ignore] and the exhaustion check. *)

Definition overload (a : number) (b : option (number + ignore_value))
    (c : option ignore_value) : number * number * option ignore_value :=
  match b with
  | Some (inl bn) => (a, bn, c)
  | Some (inr ig) => (Int 0, a, Some ig)
  | None => (Int 0, a, None)
  end.

Definition normalize_ignore (rawIgnore : ignore_value) : option (gset number) :=
  match rawIgnore with
  | IsSet s => Some s
  | IsIterable l => Some (list_to_set l)
  | IsString _ => None
  | NotIterable => None
  end.

(** The [for (const v of ignoreSet)] loop; [true] when it throws. *)
Fixpoint excluded_loop (vs : list number) (min max range excludedInRange : Z)
    : bool :=
  match vs with
  | [] => false
  | v :: vs' =>
      match v with
      | NonInt _ => excluded_loop vs' min max range excludedInRange
      | Int z =>
          if (min <=? z) && (z <? max) then
            let excludedInRange := excludedInRange + 1 in
            if range <=? excludedInRange then true
            else excluded_loop vs' min max range excludedInRange
          else excluded_loop vs' min max range excludedInRange
      end
  end.

Definition ERR_INTEGERS : exn := RangeError "min and max must be integers.".
Definition ERR_ORDER : exn := RangeError "max must be greater than min.".
Definition ERR_TOO_LARGE : exn :=
  RangeError "range must be less than or equal to 2^32.".
Definition ERR_IGNORE_TYPE : exn :=
  TypeError "ignore must be an iterable of numbers or a Set<number>.".
Definition ERR_EXHAUSTED : exn :=
  RangeError "Ignore set excludes all possible values in the range.".

(** The validated request: [min], [range] and the normalised [ignoreSet]. *)
Definition check_arguments (a : number) (b : option (number + ignore_value))
    (c : option ignore_value) : outcome (Z * Z * option (gset number)) :=
  let '(min, max, rawIgnore) := overload a b c in
  match min, max with
  | Int min, Int max =>
      if max <=? min then Threw ERR_ORDER
      else
        let range := max - min in
        if 2 ^ 32 <? range then Threw ERR_TOO_LARGE
        else
          match rawIgnore with
          | None => Returned (min, range, None)
          | Some raw =>
              match normalize_ignore raw with
              | None => Threw ERR_IGNORE_TYPE
              | Some ignoreSet =>
                  if excluded_loop (elements ignoreSet) min max range 0
                  then Threw ERR_EXHAUSTED
                  else Returned (min, range, Some ignoreSet)
              end
          end
  | _, _ => Threw ERR_INTEGERS
  end.

(** [ignoreSet !== undefined && ignoreSet.has(candidate)]. *)
Definition ignored (ignoreSet : option (gset number)) (candidate : Z) : bool :=
  match ignoreSet with
  | None => false
  | Some s => bool_decide (Int candidate ∈ s)
  end.

Definition maxSafe_of (range : Z) : Z := 2 ^ 32 - Z.rem (2 ^ 32) range.

(** The Number nearest to an integer: the binary64 value, by rounding to
    the nearest with ties to the even significand.  Integers of magnitude
    up to [2^53] are Numbers; above, only the multiples of the power of two
    that leaves a significand of 53 bits are. *)
Definition binary64 (z : Z) : Z :=
  let m := Z.abs z in
  if m <=? 2 ^ 53 then z
  else
    let ulp := 2 ^ (Z.log2 m - 52) in
    let q := m / ulp in
    let r := m mod ulp in
    let q' := if 2 * r <? ulp then q
              else if ulp <? 2 * r then q + 1
              else if Z.even q then q else q + 1 in
    Z.sgn z * (q' * ulp).

(** [x + y] on Numbers holding integers: the sum, rounded.  The sums of
    this program, a bound and a word below [2^32], stay far from the
    overflow threshold. *)
Definition Number_add (x y : Z) : Z := binary64 (x + y).

(** ** [createSecureRandomGenerator().next] *)

Fixpoint next_loop (fuel : nat) (min range maxSafe : Z)
    (ignoreSet : option (gset number)) (st : gstate) : outcome Z * gstate :=
  match fuel with
  | O => (Spinning, st)
  | S fuel' =>
      let st1 := if (BUFFER_SIZE <=? index (fst st))%nat
                 then _refillBuffer st else st in
      let randomValue := default 0 (buffer (fst st1) !! index (fst st1)) in
      let st2 := (mkSession (buffer (fst st1)) (S (index (fst st1))), snd st1) in
      let candidate := Number_add min (Z.rem randomValue range) in
      if (maxSafe <=? randomValue) || ignored ignoreSet candidate
      then next_loop fuel' min range maxSafe ignoreSet st2
      else (Returned candidate, st2)
  end.

Definition next (fuel : nat) (a : number) (b : option (number + ignore_value))
    (c : option ignore_value) : M gstate Z :=
  fun st =>
    match check_arguments a b c with
    | Threw e => (Threw e, st)
    | Spinning => (Spinning, st)
    | Returned (min, range, ignoreSet) =>
        next_loop fuel min range (maxSafe_of range) ignoreSet st
    end.

(** ** [secureRandomNumber] *)

Fixpoint secureRandomNumber_loop (fuel : nat) (min range maxSafe : Z)
    (ignoreSet : option (gset number)) (e : entropy) : outcome Z * entropy :=
  match fuel with
  | O => (Spinning, e)
  | S fuel' =>
      let '(randomBytes, e1) := crypto_getRandomValues 1 e in
      let randomValue := default 0 (randomBytes !! 0%nat) in
      let candidate := Number_add min (Z.rem randomValue range) in
      if (maxSafe <=? randomValue) || ignored ignoreSet candidate
      then secureRandomNumber_loop fuel' min range maxSafe ignoreSet e1
      else (Returned candidate, e1)
  end.

Definition secureRandomNumber (fuel : nat) (a : number)
    (b : option (number + ignore_value)) (c : option ignore_value)
    : M entropy Z :=
  fun e =>
    match check_arguments a b c with
    | Threw x => (Threw x, e)
    | Spinning => (Spinning, e)
    | Returned (min, range, ignoreSet) =>
        secureRandomNumber_loop fuel min range (maxSafe_of range) ignoreSet e
    end.

(** ** The words a generator is about to read *)

Definition session_ok (g : session) : Prop :=
  length (buffer g) = BUFFER_SIZE /\ Forall (fun w => 0 <= w < 2 ^ 32) (buffer g).

(** The [i]-th word a session will read next: what is left of its buffer,
    then the entropy stream. *)
Definition upcoming (st : gstate) (i : nat) : Z :=
  if (i <? BUFFER_SIZE - index (fst st))%nat
  then default 0 (buffer (fst st) !! (index (fst st) + i)%nat)
  else uint32 (stream (snd st)
                 (taken (snd st) + (i - (BUFFER_SIZE - index (fst st))))%nat).

(** The [i]-th word a one-shot draw will fetch next. *)
Definition raw (e : entropy) (i : nat) : Z := uint32 (stream e (taken e + i)%nat).

Definition skip (n : nat) (e : entropy) : entropy :=
  mkEntropy (stream e) (taken e + n)%nat.

(** One pass through the head of the session's loop body. *)
Definition read_word (st : gstate) : Z * gstate :=
  let st1 := if (BUFFER_SIZE <=? index (fst st))%nat
             then _refillBuffer st else st in
  (default 0 (buffer (fst st1) !! index (fst st1)),
   (mkSession (buffer (fst st1)) (S (index (fst st1))), snd st1)).

Fixpoint advance (n : nat) (st : gstate) : gstate :=
  match n with
  | O => st
  | S n' => advance n' (snd (read_word st))
  end.

(** A raw word is kept when it is below [maxSafe] and its candidate is not
    excluded. *)
Definition accepts (min range : Z) (ignoreSet : option (gset number)) (w : Z)
    : bool :=
  negb ((maxSafe_of range <=? w)
          || ignored ignoreSet (Number_add min (Z.rem w range))).

(** Position of the first accepted word among the first [fuel] ones. *)
Fixpoint first_accepted (fuel : nat) (acc : Z -> bool) (w : nat -> Z)
    : option nat :=
  match fuel with
  | O => None
  | S fuel' =>
      if acc (w O) then Some O
      else option_map S (first_accepted fuel' acc (fun i => w (S i)))
  end.

(** ** [secureShuffle] *)

(** Arrays live in a store, so that a function can mutate the array it was
    given and hand back the same reference. *)
Definition ref : Type := nat.

Abbreviation store T := (gmap ref (list T)).

Section Arrays.
Context {T : Type}.
(** What reading past the end of an array yields. *)
Variable undefined : T.

Definition contents (h : store T) (array : ref) : list T :=
  default [] (h !! array).

(** [arr[i]] *)
Definition array_get (arr : list T) (i : nat) : T :=
  default undefined (arr !! i).

(** [arr[i] = x]; a write past the end extends the array. *)
Definition array_set (arr : list T) (i : nat) (x : T) : list T :=
  if (i <? length arr)%nat then <[i := x]> arr
  else arr ++ replicate (i - length arr) undefined ++ [x].

(** The [for (let i = array.length - 1; i > 0; i--)] loop, entered at [i]. *)
Fixpoint secureShuffle_loop (fuel : nat) (i : nat) (array : ref)
    (st : store T * gstate) : outcome unit * (store T * gstate) :=
  match i with
  | O => (Returned tt, st)
  | S i' =>
      match next fuel (Int (Z.of_nat i + 1)) None None (snd st) with
      | (Returned j, g') =>
          let arr := contents (fst st) array in
          let aj := array_get arr (Z.to_nat j) in
          let ai := array_get arr i in
          let arr' := array_set (array_set arr i aj) (Z.to_nat j) ai in
          secureShuffle_loop fuel i' array (<[array := arr']> (fst st), g')
      | (Threw x, g') => (Threw x, (fst st, g'))
      | (Spinning, g') => (Spinning, (fst st, g'))
      end
  end.

(** [secureShuffle(array, generator?)]; the result carries the final state
    of the generator that was used. *)
Definition secureShuffle (fuel : nat) (array : ref)
    (generator : option session) (h : store T) (e : entropy)
    : outcome ref * (store T * gstate) :=
  let gen := default createSecureRandomGenerator generator in
  match secureShuffle_loop fuel (Nat.pred (length (contents h array))) array
          (h, (gen, e)) with
  | (Returned _, st) => (Returned array, st)
  | (Threw x, st) => (Threw x, st)
  | (Spinning, st) => (Spinning, st)
  end.

(** Fisher–Yates as the specification words it: for [i] from [length - 1]
    down to [1], draw [j = next(0, i + 1)] and exchange the elements at
    [i] and [j]. *)
Definition exchange (l : list T) (i j : nat) : list T :=
  match l !! i, l !! j with
  | Some x, Some y => <[j := x]> (<[i := y]> l)
  | _, _ => l
  end.

Fixpoint fisher_yates (fuel : nat) (i : nat) (l : list T) : M gstate (list T) :=
  match i with
  | O => ret l
  | S i' =>
      let* j := next fuel (Int 0) (Some (inl (Int (Z.of_nat i + 1)))) None in
      fisher_yates fuel i' (exchange l i (Z.to_nat j))
  end.
End Arrays.

(** ** [secureGenerate] *)

Definition chars (s : string) : list ascii := list_ascii_of_string s.

Definition DEFAULT_UPPERCASE : list ascii := chars "ABCDEFGHIJKLMNOPQRSTUVWXYZ".
Definition DEFAULT_LOWERCASE : list ascii := chars "abcdefghijklmnopqrstuvwxyz".
Definition DEFAULT_NUMBERS : list ascii := chars "0123456789".
Definition DEFAULT_SPECIALS : list ascii := chars "!@#$%^&*()_+{}:<>?|[];,./~-=".

Definition DEFAULT_LENGTH : Z := 16.

(** A class selector, [boolean | string]. *)
Inductive selector : Type :=
  | Flag (b : bool)
  | Alphabet (s : list ascii).

(** A [Date] holds a time value in milliseconds, or is invalid. *)
Inductive Date : Type :=
  | ValidDate (ms : Z)
  | InvalidDate.

(** The [timestamp] option, [true | Date]. *)
Inductive stamp : Type :=
  | Now
  | At (d : Date).

Record SecureGenerateOptions : Type := mkOptions {
  opt_length : option Z;
  opt_uppercase : option selector;
  opt_lowercase : option selector;
  opt_numbers : option selector;
  opt_specials : option selector;
  opt_timestamp : option stamp
}.

Definition digit36 (d : Z) : ascii :=
  nth (Z.to_nat d) (chars "0123456789abcdefghijklmnopqrstuvwxyz") "0"%char.

Fixpoint digits36 (fuel : nat) (n : Z) : list ascii :=
  match fuel with
  | O => [digit36 (n mod 36)]
  | S fuel' =>
      if n <? 36 then [digit36 n]
      else digits36 fuel' (n / 36) ++ [digit36 (n mod 36)]
  end.

(** [n.toString(36)] for a time value; [None] is [NaN]. *)
Definition Number_toString36 (n : option Z) : list ascii :=
  match n with
  | None => chars "NaN"
  | Some n =>
      if n <? 0 then "-"%char :: digits36 (Z.to_nat (Z.log2 (- n))) (- n)
      else digits36 (Z.to_nat (Z.log2 n)) n
  end.

Definition Date_getTime (d : Date) : option Z :=
  match d with
  | ValidDate ms => Some ms
  | InvalidDate => None
  end.

Definition _shouldIncludeSet (set : selector) : bool :=
  match set with
  | Flag b => b
  | Alphabet s => (0 <? length s)%nat
  end.

(** [typeof set === "string" ? set : defaultSet] *)
Definition used_alphabet (set : selector) (defaultSet : list ascii) : list ascii :=
  match set with
  | Alphabet s => s
  | Flag _ => defaultSet
  end.

(** The elements of the character arrays: one-character strings, or
    [undefined] for a read past the end of an alphabet. *)
Definition _characterSetBuilder (fuel : nat) (set : selector)
    (defaultSet : list ascii) : M gstate (list ascii * option ascii) :=
  let used := used_alphabet set defaultSet in
  let* j := next fuel (Int (Z.of_nat (length used))) None None in
  ret (used, used !! Z.to_nat j).

(** One of the four [if (_shouldIncludeSet(...)) { ... }] blocks, acting on
    [charset] and [guaranteedChars]. *)
Definition include_class (fuel : nat) (set : selector) (defaultSet : list ascii)
    (acc : list ascii * list (option ascii))
    : M gstate (list ascii * list (option ascii)) :=
  if _shouldIncludeSet set then
    let* r := _characterSetBuilder fuel set defaultSet in
    ret (fst acc ++ fst r, snd acc ++ [snd r])
  else ret acc.

(** The [for (let i = 0; i < remainingLength; i++)] loop with [n] rounds
    left. *)
Fixpoint fill_random (fuel : nat) (n : nat) (charset : list ascii)
    (randomChars : list (option ascii)) : M gstate (list (option ascii)) :=
  match n with
  | O => ret randomChars
  | S n' =>
      let* j := next fuel (Int (Z.of_nat (length charset))) None None in
      fill_random fuel n' charset (randomChars ++ [charset !! Z.to_nat j])
  end.

(** [arr.slice(0, end)] *)
Definition Array_slice0 {A} (arr : list A) (end_ : Z) : list A :=
  take (Z.to_nat (if end_ <? 0 then Z.max (Z.of_nat (length arr) + end_) 0
                  else end_)) arr.

(** [arr.join("")]: [undefined] elements contribute nothing. *)
Definition Array_join (arr : list (option ascii)) : list ascii :=
  concat (map (fun o => match o with Some c => [c] | None => [] end) arr).

Definition ERR_LENGTH : exn := TypeError "Password length must be at least 1.".
Definition ERR_TIMESTAMP (n : nat) : exn :=
  Error ("Password length must be greater than timestamp length ("
           +:+ pretty n +:+ ").").
Definition ERR_NO_TYPES : exn :=
  Error "Cannot generate string. No character types selected.".

(** Shuffle of a freshly built array with the session [random]: the array
    is private to the call, so it sits alone in its store. *)
Definition shuffle_fresh (fuel : nat) (arr : list (option ascii))
    : M gstate (list (option ascii)) :=
  fun st =>
    match secureShuffle None fuel 0%nat (Some (fst st)) {[ 0%nat := arr ]}
            (snd st) with
    | (Returned a, (h, st')) => (Returned (contents h a), st')
    | (Threw x, (_, st')) => (Threw x, st')
    | (Spinning, (_, st')) => (Spinning, st')
    end.

(** The body of [secureGenerate] from the creation of the session on. *)
Definition generate_body (fuel : nat) (length : Z) (timestampStr : list ascii)
    (uppercase lowercase numbers specials : selector) : M gstate (list ascii) :=
  let* c1 := include_class fuel uppercase DEFAULT_UPPERCASE ([], []) in
  let* c2 := include_class fuel lowercase DEFAULT_LOWERCASE c1 in
  let* c3 := include_class fuel numbers DEFAULT_NUMBERS c2 in
  let* c4 := include_class fuel specials DEFAULT_SPECIALS c3 in
  let charset := fst c4 in
  let guaranteedChars := snd c4 in
  match charset with
  | [] => throw ERR_NO_TYPES
  | _ :: _ =>
      let lengthToGenerate := length - Z.of_nat (List.length timestampStr) in
      let remainingLength :=
        lengthToGenerate - Z.of_nat (List.length guaranteedChars) in
      let* randomChars :=
        (if 0 <? remainingLength
         then fill_random fuel (Z.to_nat remainingLength) charset []
         else ret []) in
      let* finalPasswordArray :=
        shuffle_fresh fuel (guaranteedChars ++ randomChars) in
      ret (timestampStr
             ++ Array_join (Array_slice0 finalPasswordArray lengthToGenerate))
  end.

(** The first lines of [secureGenerate]: the length, the four selectors and
    the timestamp directive, with their defaults. *)
Definition resolve_options (numOrOptions : option (Z + SecureGenerateOptions))
    : Z * selector * selector * selector * selector * option stamp :=
  match default (inl DEFAULT_LENGTH) numOrOptions with
  | inl n => (n, Flag true, Flag true, Flag true, Flag true, None)
  | inr o =>
      (default DEFAULT_LENGTH (opt_length o),
       default (Flag true) (opt_uppercase o),
       default (Flag true) (opt_lowercase o),
       default (Flag true) (opt_numbers o),
       default (Flag true) (opt_specials o),
       opt_timestamp o)
  end.

(** [timestampStr]; [clock] is the time value [new Date()] would hold. *)
Definition timestamp_string (clock : Z) (timestamp : option stamp) : list ascii :=
  match timestamp with
  | None => []
  | Some t =>
      let date := match t with Now => ValidDate clock | At d => d end in
      Number_toString36 (Date_getTime date)
  end.

(** [secureGenerate(numOrOptions = DEFAULT_LENGTH)]. *)
Definition secureGenerate (fuel : nat) (clock : Z)
    (numOrOptions : option (Z + SecureGenerateOptions)) : M entropy (list ascii) :=
  fun e =>
    let '(length, uppercase, lowercase, numbers, specials, timestamp) :=
      resolve_options numOrOptions in
    let timestampStr := timestamp_string clock timestamp in
    if length <? 1 then (Threw ERR_LENGTH, e)
    else if negb (bool_decide (timestampStr = []))
            && (length <=? Z.of_nat (List.length timestampStr))
    then (Threw (ERR_TIMESTAMP (List.length timestampStr)), e)
    else
      let random := createSecureRandomGenerator in
      let '(r, st) :=
        generate_body fuel length timestampStr
          uppercase lowercase numbers specials (random, e) in
      (r, snd st).

(** ** [secureCompare] *)

(** An operand of the comparison, [Uint8Array | string]. *)
Inductive operand : Type :=
  | Text (s : string)
  | Bytes (b : list Byte.byte).

(** The operand of a bitwise operator, converted to a signed 32-bit
    integer. *)
Definition ToInt32 (z : Z) : Z :=
  let m := z mod 2 ^ 32 in
  if 2 ^ 31 <=? m then m - 2 ^ 32 else m.

Definition js_xor (x y : Z) : Z := Z.lxor (ToInt32 x) (ToInt32 y).
Definition js_or (x y : Z) : Z := Z.lor (ToInt32 x) (ToInt32 y).

Definition byte_val (b : Byte.byte) : Z := Z.of_N (Byte.to_N b).

(** [!reference || reference.length === 0] *)
Definition reference_missing (reference : option operand) : bool :=
  match reference with
  | None => true
  | Some (Text s) => (String.length s =? 0)%nat
  | Some (Bytes b) => (length b =? 0)%nat
  end.

Definition ERR_REFERENCE : exn := Error "Cannot verify. Reference is undefined.".

Section Compare.
(** The platform's [TextEncoder.encode]. *)
Variable textEncoder_encode : string -> list Byte.byte.

Definition _toUint8Array (input : operand) : list Byte.byte :=
  match input with
  | Text s => textEncoder_encode s
  | Bytes b => b
  end.

(** The [for (const [i, element] of a.entries())] loop; next to the
    accumulator it counts the iterations it performs. *)
Fixpoint compare_loop (entries : list (nat * Byte.byte)) (b : list Byte.byte)
    (mismatch : Z) (iterations : nat) : Z * nat :=
  match entries with
  | [] => (mismatch, iterations)
  | (i, element) :: rest =>
      let bi := match b !! i with Some x => byte_val x | None => 0 end in
      compare_loop rest b (js_or mismatch (js_xor (byte_val element) bi))
        (S iterations)
  end.

(** [secureCompare] together with the number of loop iterations of the
    call. *)
Definition secureCompare_run (reference incoming : option operand)
    : outcome bool * nat :=
  if reference_missing reference then (Threw ERR_REFERENCE, O)
  else
    let a := match reference with
             | Some r => _toUint8Array r
             | None => []
             end in
    let '(b, isIncomingUndefined) :=
      match incoming with
      | None => ([], 1)
      | Some inc => (_toUint8Array inc, 0)
      end in
    let mismatch :=
      if isIncomingUndefined =? 0
      then js_xor (Z.of_nat (length a)) (Z.of_nat (length b))
      else isIncomingUndefined in
    let '(mismatch, iterations) :=
      compare_loop (imap (fun i element => (i, element)) a) b mismatch O in
    (Returned (mismatch =? 0), iterations).

Definition secureCompare (reference incoming : option operand) : outcome bool :=
  fst (secureCompare_run reference incoming).
End Compare.

(** *** The work of a call

    What a call does that takes time in proportion to its operands: the
    encoding of a text, which reads the whole text, and the passes through
    the body of the loop. *)
Inductive operation : Type :=
  | Encode (units : nat)
  | Iterate (i : nat).

Section Work.
Variable textEncoder_encode : string -> list Byte.byte.

(** [_toUint8Array(input)], with the encoding it asks for. *)
Definition _toUint8Array_steps (input : operand)
    : list Byte.byte * list operation :=
  match input with
  | Text s => (textEncoder_encode s, [Encode (String.length s)])
  | Bytes b => (b, [])
  end.

(** The loop of [secureCompare] again, now recording each pass. *)
Fixpoint compare_loop_steps (entries : list (nat * Byte.byte))
    (b : list Byte.byte) (mismatch : Z) (ops : list operation)
    : Z * list operation :=
  match entries with
  | [] => (mismatch, ops)
  | (i, element) :: rest =>
      let bi := match b !! i with Some x => byte_val x | None => 0 end in
      compare_loop_steps rest b (js_or mismatch (js_xor (byte_val element) bi))
        (ops ++ [Iterate i])
  end.

(** [secureCompare] together with the operations of the call, in the order
    in which they are performed. *)
Definition secureCompare_steps (reference incoming : option operand)
    : outcome bool * list operation :=
  if reference_missing reference then (Threw ERR_REFERENCE, [])
  else
    let '(a, ops_a) := match reference with
                       | Some r => _toUint8Array_steps r
                       | None => ([], [])
                       end in
    let '(b, isIncomingUndefined, ops_b) :=
      match incoming with
      | None => ([], 1, [])
      | Some inc =>
          let '(b, ops_b) := _toUint8Array_steps inc in (b, 0, ops_b)
      end in
    let mismatch :=
      if isIncomingUndefined =? 0
      then js_xor (Z.of_nat (length a)) (Z.of_nat (length b))
      else isIncomingUndefined in
    let '(mismatch, ops) :=
      compare_loop_steps (imap (fun i element => (i, element)) a) b mismatch
        (ops_a ++ ops_b) in
    (Returned (mismatch =? 0), ops).
End Work.

(** ** Vocabulary of the stated properties *)

(** The number of integer members of an exclusion set inside [[min, max)]. *)
Definition in_range (min max : Z) (v : number) : bool :=
  match v with
  | Int z => (min <=? z) && (z <? max)
  | NonInt _ => false
  end.

Definition excluded_count (min max : Z) (s : gset number) : Z :=
  Z.of_nat (length (filter (fun v => in_range min max v = true) (elements s))).

(** The exclusion set a well-typed [ignore] argument denotes. *)
Definition exclusion (ignore : option ignore_value) : gset number :=
  match ignore with
  | Some (IsSet s) => s
  | Some (IsIterable l) => list_to_set l
  | _ => ∅
  end.

Definition ignore_accepted (ignore : option ignore_value) : bool :=
  match ignore with
  | Some (IsString _) | Some NotIterable => false
  | _ => true
  end.

(** A stream of words that keeps producing values below [2^31]: every
    rejection loop without exclusions reading it comes to an end. *)
Definition fair (w : nat -> Z) : Prop :=
  forall n : nat, exists k : nat, (n <= k)%nat /\ 0 <= w k < 2 ^ 31.

Definition fair_entropy (e : entropy) : Prop := fair (raw (mkEntropy (stream e) 0)).

(** A run that, given enough fuel, returns [a] in state [s'], and with less
    fuel is still spinning: it never throws and never returns anything
    else. *)
Definition converges {S A} (run : nat -> outcome A * S) (Q : A -> S -> Prop)
    : Prop :=
  exists (f0 : nat) (a : A) (s' : S),
    Q a s' /\
    forall fuel : nat,
      run fuel = (Returned a, s') \/
      ((fuel < f0)%nat /\ fst (run fuel) = Spinning).

(** A run that never throws and whose result, when it returns one,
    satisfies [Q]. *)
Definition sound {S A} (run : nat -> outcome A * S) (Q : A -> S -> Prop)
    : Prop :=
  forall fuel : nat,
    match run fuel with
    | (Returned a, s) => Q a s
    | (Threw _, _) => False
    | (Spinning, _) => True
    end.

(** The states of a session whose draws all come to an end. *)
Definition steady (st : gstate) : Prop :=
  session_ok (fst st) /\ fair (upcoming st).

(** A run over the entropy [e]: sound on every source, and converging when
    [e] is fair. *)
Definition delivers {S A} (e : entropy) (run : nat -> outcome A * S)
    (Q : A -> S -> Prop) : Prop :=
  sound run Q /\ (fair_entropy e -> converges run Q).

(** A raw word is kept for the request [(min, max, ignore)]: it lies below
    [2^32 - (2^32 mod range)] and its candidate is not excluded. *)
Definition kept (min max : Z) (ignore : option ignore_value) (w : Z) : Prop :=
  w < 2 ^ 32 - 2 ^ 32 mod (max - min) /\
  Int (min + w mod (max - min)) ∉ exclusion ignore.

Definition first_kept (min max : Z) (ignore : option ignore_value)
    (word : nat -> Z) (k : nat) : Prop :=
  kept min max ignore (word k) /\
  forall j, (j < k)%nat -> ~ kept min max ignore (word j).

(** The four failures of a bounded draw. *)
Inductive failure : Type :=
  | InvalidRange
  | RangeTooLarge
  | InvalidExclusionType
  | ExhaustedRange.

Definition reports (k : failure) (x : exn) : Prop :=
  match k with
  | InvalidRange => x = ERR_INTEGERS \/ x = ERR_ORDER
  | RangeTooLarge => x = ERR_TOO_LARGE
  | InvalidExclusionType => x = ERR_IGNORE_TYPE
  | ExhaustedRange => x = ERR_EXHAUSTED
  end.

(** When each failure is due; a case is read once the cases before it are
    ruled out, in the order the arguments are validated. *)
Definition valid_range (min max : number) : Prop :=
  exists lo hi, min = Int lo /\ max = Int hi /\ lo < hi /\ hi - lo <= 2 ^ 32.

Definition failure_case (min max : number) (ignore : option ignore_value)
    (k : failure) : Prop :=
  match k with
  | InvalidRange =>
      Number_isInteger min = false \/ Number_isInteger max = false \/
      exists lo hi, min = Int lo /\ max = Int hi /\ hi <= lo
  | RangeTooLarge =>
      exists lo hi, min = Int lo /\ max = Int hi /\ hi - lo > 2 ^ 32
  | InvalidExclusionType =>
      valid_range min max /\ ignore_accepted ignore = false
  | ExhaustedRange =>
      exists lo hi, min = Int lo /\ max = Int hi /\ lo < hi /\
        hi - lo <= 2 ^ 32 /\ ignore_accepted ignore = true /\
        excluded_count lo hi (exclusion ignore) >= hi - lo
  end.


(** An accumulator value that is zero exactly when its low 32 bits are. *)
Definition clean (m : Z) : Prop := m = 0 <-> m mod 2 ^ 32 = 0.

(** What the comparison loop reads for [b[i] ?? 0]. *)
Definition read_or_zero (b : list Byte.byte) (i : nat) : Z :=
  match b !! i with Some x => byte_val x | None => 0 end.

(** The bytes [secureCompare] compares for an operand. *)
Definition operand_bytes (encode : string -> list Byte.byte)
    (o : option operand) : list Byte.byte :=
  match o with
  | Some r => _toUint8Array encode r
  | None => []
  end.

(** In the spec's words: over every byte index of the reference, the XOR of
    [reference[i]] and [incoming[i]] is ORed into the accumulator, an
    out-of-bounds read of [incoming] counting as 0. *)
Definition accumulated (a b : list Byte.byte) (mismatch : Z) : Z :=
  fold_left
    (fun acc i => js_or acc (js_xor (read_or_zero a i) (read_or_zero b i)))
    (seq 0 (length a)) mismatch.

(** The accumulator before the loop: [isIncomingUndefined || a.length ^
    b.length]. *)
Definition seeded (incoming : option operand) (a b : list Byte.byte) : Z :=
  match incoming with
  | None => 1
  | Some _ => js_xor (Z.of_nat (length a)) (Z.of_nat (length b))
  end.

(** The encoding an operand asks for: one for a text, none for bytes or
    for an absent operand. *)
Definition encodings (o : option operand) : list operation :=
  match o with
  | Some (Text s) => [Encode (String.length s)]
  | _ => []
  end.

(** The indices at which the loop body was run, in order. *)
Definition iterations (ops : list operation) : list nat :=
  omap (fun o => match o with Iterate i => Some i | Encode _ => None end) ops.

Definition is_text (o : option operand) : bool :=
  match o with
  | Some (Text _) => true
  | _ => false
  end.

(** The alphabet a class brings in, if the class is enabled. *)
Definition class_alphabet (set : selector) (defaultSet : list ascii)
    : list (list ascii) :=
  if _shouldIncludeSet set then [used_alphabet set defaultSet] else [].

(** The alphabets of the enabled classes, in the order uppercase, lowercase,
    numbers, specials. *)
Definition enabled_alphabets (uppercase lowercase numbers specials : selector)
    : list (list ascii) :=
  class_alphabet uppercase DEFAULT_UPPERCASE
    ++ class_alphabet lowercase DEFAULT_LOWERCASE
    ++ class_alphabet numbers DEFAULT_NUMBERS
    ++ class_alphabet specials DEFAULT_SPECIALS.

(** What a call asks for, read off its resolved options. *)
Definition requested_length (numOrOptions : option (Z + SecureGenerateOptions))
    : Z :=
  let '(len, _, _, _, _, _) := resolve_options numOrOptions in len.

Definition requested_alphabets
    (numOrOptions : option (Z + SecureGenerateOptions)) : list (list ascii) :=
  let '(_, up, lo, nu, sp, _) := resolve_options numOrOptions in
  enabled_alphabets up lo nu sp.

Definition requested_timestamp (clock : Z)
    (numOrOptions : option (Z + SecureGenerateOptions)) : list ascii :=
  let '(_, _, _, _, _, ts) := resolve_options numOrOptions in
  timestamp_string clock ts.

Definition requested_stamp
    (numOrOptions : option (Z + SecureGenerateOptions)) : option stamp :=
  let '(_, _, _, _, _, ts) := resolve_options numOrOptions in ts.



(** Length 0 with a timestamp requested. *)
Definition stamped_empty_options : SecureGenerateOptions :=
  mkOptions (Some 0) None None None None (Some Now).

(** The options of the pin example: length 6, only the custom digits
    [13579]. *)
Definition pin_options : SecureGenerateOptions :=
  mkOptions (Some 6) (Some (Flag false)) (Some (Flag false))
    (Some (Alphabet (chars "13579"))) (Some (Flag false)) None.

(** A guaranteed character: a defined element taken from its class. *)
Definition drawn_from (cls : list ascii) (g : option ascii) : Prop :=
  exists c, g = Some c /\ c ∈ cls.



(** A concrete entropy source for worked examples. *)
Definition sample_stream : nat -> Z :=
  fun i => Z.of_nat i * 2654435761 + 12345.

Definition sample_entropy : entropy := mkEntropy sample_stream 0.

(** An exclusion input stripped of its non-integer members. *)
Definition integers_only (ignore : ignore_value) : ignore_value :=
  match ignore with
  | IsSet s => IsSet (filter (fun v => Number_isInteger v = true) s)
  | IsIterable l => IsIterable (filter (fun v => Number_isInteger v = true) l)
  | IsString s => IsString s
  | NotIterable => NotIterable
  end.

(** The failure that is due, if any, as a decision procedure. *)
Definition due (min max : number) (ignore : option ignore_value)
    : option failure :=
  match min, max with
  | Int lo, Int hi =>
      if hi <=? lo then Some InvalidRange
      else if 2 ^ 32 <? hi - lo then Some RangeTooLarge
      else if negb (ignore_accepted ignore) then Some InvalidExclusionType
      else if bool_decide (hi - lo <= excluded_count lo hi (exclusion ignore))
      then Some ExhaustedRange
      else None
  | _, _ => Some InvalidRange
  end.

(** ** The single-bound generator of [utils/random.ts]

    The earlier generator: [next(max)] only, with its own validation, and
    [secureRandomNumber(max)] as one draw from a session of its own. *)

Module Legacy.

Definition ERR_POSITIVE : exn := RangeError "max must be a positive integer.".
Definition ERR_TOO_LARGE : exn :=
  RangeError "max must be less than or equal to 2^32.".

(** The [do ... while (randomValue >= maxSafe)] loop of the session. *)
Fixpoint next_loop (fuel : nat) (maxSafe : Z) (st : gstate)
    : outcome Z * gstate :=
  match fuel with
  | O => (Spinning, st)
  | S fuel' =>
      let st1 := if (BUFFER_SIZE <=? index (fst st))%nat
                 then _refillBuffer st else st in
      let randomValue := default 0 (buffer (fst st1) !! index (fst st1)) in
      let st2 := (mkSession (buffer (fst st1)) (S (index (fst st1))), snd st1) in
      if maxSafe <=? randomValue then next_loop fuel' maxSafe st2
      else (Returned randomValue, st2)
  end.

(** [createSecureRandomGenerator().next(max)] *)
Definition next (fuel : nat) (max : number) : M gstate Z :=
  match max with
  | NonInt _ => throw ERR_POSITIVE
  | Int max =>
      if max <=? 0 then throw ERR_POSITIVE
      else if 2 ^ 32 <? max then throw ERR_TOO_LARGE
      else
        let maxSafe := 2 ^ 32 - Z.rem (2 ^ 32) max in
        let* randomValue := next_loop fuel maxSafe in
        ret (Z.rem randomValue max)
  end.

(** [secureRandomNumber(max)]: [createSecureRandomGenerator().next(max)];
    the session is dropped, the entropy it fetched is spent. *)
Definition secureRandomNumber (fuel : nat) (max : number) : M entropy Z :=
  fun e =>
    let '(r, st) := next fuel max (createSecureRandomGenerator, e) in
    (r, snd st).

Section Arrays.
Context {T : Type}.
Variable undefined : T.

Fixpoint secureShuffle_loop (fuel : nat) (i : nat) (array : ref)
    (st : store T * gstate) : outcome unit * (store T * gstate) :=
  match i with
  | O => (Returned tt, st)
  | S i' =>
      match next fuel (Int (Z.of_nat i + 1)) (snd st) with
      | (Returned j, g') =>
          let arr := contents (fst st) array in
          let aj := array_get undefined arr (Z.to_nat j) in
          let ai := array_get undefined arr i in
          let arr' :=
            array_set undefined (array_set undefined arr i aj) (Z.to_nat j) ai in
          secureShuffle_loop fuel i' array (<[array := arr']> (fst st), g')
      | (Threw x, g') => (Threw x, (fst st, g'))
      | (Spinning, g') => (Spinning, (fst st, g'))
      end
  end.

Definition secureShuffle (fuel : nat) (array : ref)
    (generator : option session) (h : store T) (e : entropy)
    : outcome ref * (store T * gstate) :=
  let gen := default createSecureRandomGenerator generator in
  match secureShuffle_loop fuel (Nat.pred (length (contents h array))) array
          (h, (gen, e)) with
  | (Returned _, st) => (Returned array, st)
  | (Threw x, st) => (Threw x, st)
  | (Spinning, st) => (Spinning, st)
  end.
End Arrays.

(** *** [generateSecurePassword] on one session

    The generator of strings as it was before the timestamp option: the
    draws are [next(max)] of one session, the shuffle is the one above. *)

Definition ERR_NO_TYPES : exn :=
  Error "Cannot generate password. No character types selected.".

Definition _characterSetBuilder (fuel : nat) (set : selector)
    (defaultSet : list ascii) : M gstate (list ascii * option ascii) :=
  let used := used_alphabet set defaultSet in
  let* j := next fuel (Int (Z.of_nat (length used))) in
  ret (used, used !! Z.to_nat j).

Definition include_class (fuel : nat) (set : selector) (defaultSet : list ascii)
    (acc : list ascii * list (option ascii))
    : M gstate (list ascii * list (option ascii)) :=
  if _shouldIncludeSet set then
    let* r := _characterSetBuilder fuel set defaultSet in
    ret (fst acc ++ fst r, snd acc ++ [snd r])
  else ret acc.

Fixpoint fill_random (fuel : nat) (n : nat) (charset : list ascii)
    (randomChars : list (option ascii)) : M gstate (list (option ascii)) :=
  match n with
  | O => ret randomChars
  | S n' =>
      let* j := next fuel (Int (Z.of_nat (length charset))) in
      fill_random fuel n' charset (randomChars ++ [charset !! Z.to_nat j])
  end.

(** [secureShuffle([...guaranteedChars, ...randomChars], random)] *)
Definition shuffle_fresh (fuel : nat) (arr : list (option ascii))
    : M gstate (list (option ascii)) :=
  fun st =>
    match secureShuffle None fuel 0%nat (Some (fst st)) {[ 0%nat := arr ]}
            (snd st) with
    | (Returned a, (h, st')) => (Returned (contents h a), st')
    | (Threw x, (_, st')) => (Threw x, st')
    | (Spinning, (_, st')) => (Spinning, st')
    end.

(** The body of [generateSecurePassword] from the creation of the session
    on. *)
Definition generate_body (fuel : nat) (length : Z)
    (uppercase lowercase numbers specials : selector) : M gstate (list ascii) :=
  let* c1 := include_class fuel uppercase DEFAULT_UPPERCASE ([], []) in
  let* c2 := include_class fuel lowercase DEFAULT_LOWERCASE c1 in
  let* c3 := include_class fuel numbers DEFAULT_NUMBERS c2 in
  let* c4 := include_class fuel specials DEFAULT_SPECIALS c3 in
  let charset := fst c4 in
  let guaranteedChars := snd c4 in
  match charset with
  | [] => throw ERR_NO_TYPES
  | _ :: _ =>
      let remainingLength := length - Z.of_nat (List.length guaranteedChars) in
      let* randomChars :=
        (if 0 <? remainingLength
         then fill_random fuel (Z.to_nat remainingLength) charset []
         else ret []) in
      let* finalPasswordArray :=
        shuffle_fresh fuel (guaranteedChars ++ randomChars) in
      ret (Array_join (Array_slice0 finalPasswordArray length))
  end.

(** [generateSecurePassword(numOrOptions = DEFAULT_LENGTH)]; a [timestamp]
    property of the options is not read. *)
Definition generateSecurePassword (fuel : nat)
    (numOrOptions : option (Z + SecureGenerateOptions)) : M entropy (list ascii) :=
  fun e =>
    let '(length, uppercase, lowercase, numbers, specials, _) :=
      resolve_options numOrOptions in
    if length <? 1 then (Threw ERR_LENGTH, e)
    else
      let random := createSecureRandomGenerator in
      let '(r, st) :=
        generate_body fuel length uppercase lowercase numbers specials
          (random, e) in
      (r, snd st).

End Legacy.

(** ** The first release: draws without a session

    [secureRandomNumber(max)] fetching one word per iteration, and
    [secureShuffle(array)] drawing through it. *)

Module Unbuffered.

Fixpoint secureRandomNumber_loop (fuel : nat) (maxSafe : Z) (e : entropy)
    : outcome Z * entropy :=
  match fuel with
  | O => (Spinning, e)
  | S fuel' =>
      let '(randomBytes, e1) := crypto_getRandomValues 1 e in
      let randomValue := default 0 (randomBytes !! 0%nat) in
      if maxSafe <=? randomValue then secureRandomNumber_loop fuel' maxSafe e1
      else (Returned randomValue, e1)
  end.

Definition secureRandomNumber (fuel : nat) (max : number) : M entropy Z :=
  match max with
  | NonInt _ => throw Legacy.ERR_POSITIVE
  | Int max =>
      if max <=? 0 then throw Legacy.ERR_POSITIVE
      else if 2 ^ 32 <? max then throw Legacy.ERR_TOO_LARGE
      else
        let maxSafe := 2 ^ 32 - Z.rem (2 ^ 32) max in
        let* randomValue := secureRandomNumber_loop fuel maxSafe in
        ret (Z.rem randomValue max)
  end.

Section Arrays.
Context {T : Type}.
Variable undefined : T.

Fixpoint secureShuffle_loop (fuel : nat) (i : nat) (array : ref)
    (st : store T * entropy) : outcome unit * (store T * entropy) :=
  match i with
  | O => (Returned tt, st)
  | S i' =>
      match secureRandomNumber fuel (Int (Z.of_nat i + 1)) (snd st) with
      | (Returned j, e') =>
          let arr := contents (fst st) array in
          let aj := array_get undefined arr (Z.to_nat j) in
          let ai := array_get undefined arr i in
          let arr' :=
            array_set undefined (array_set undefined arr i aj) (Z.to_nat j) ai in
          secureShuffle_loop fuel i' array (<[array := arr']> (fst st), e')
      | (Threw x, e') => (Threw x, (fst st, e'))
      | (Spinning, e') => (Spinning, (fst st, e'))
      end
  end.

Definition secureShuffle (fuel : nat) (array : ref) (h : store T) (e : entropy)
    : outcome ref * (store T * entropy) :=
  match secureShuffle_loop fuel (Nat.pred (length (contents h array))) array
          (h, e) with
  | (Returned _, st) => (Returned array, st)
  | (Threw x, st) => (Threw x, st)
  | (Spinning, st) => (Spinning, st)
  end.
End Arrays.

(** *** [generateSecurePassword] without a session

    The generator of strings of the first release: an options object only,
    every draw a [secureRandomNumber(max)] of its own. *)

Definition _characterSetBuilder (fuel : nat) (set : selector)
    (defaultSet : list ascii) : M entropy (list ascii * option ascii) :=
  let used := used_alphabet set defaultSet in
  let* j := secureRandomNumber fuel (Int (Z.of_nat (length used))) in
  ret (used, used !! Z.to_nat j).

Definition include_class (fuel : nat) (set : selector) (defaultSet : list ascii)
    (acc : list ascii * list (option ascii))
    : M entropy (list ascii * list (option ascii)) :=
  if _shouldIncludeSet set then
    let* r := _characterSetBuilder fuel set defaultSet in
    ret (fst acc ++ fst r, snd acc ++ [snd r])
  else ret acc.

Fixpoint fill_random (fuel : nat) (n : nat) (charset : list ascii)
    (randomChars : list (option ascii)) : M entropy (list (option ascii)) :=
  match n with
  | O => ret randomChars
  | S n' =>
      let* j := secureRandomNumber fuel (Int (Z.of_nat (length charset))) in
      fill_random fuel n' charset (randomChars ++ [charset !! Z.to_nat j])
  end.

(** [secureShuffle([...guaranteedChars, ...randomChars])] *)
Definition shuffle_fresh (fuel : nat) (arr : list (option ascii))
    : M entropy (list (option ascii)) :=
  fun e =>
    match secureShuffle None fuel 0%nat {[ 0%nat := arr ]} e with
    | (Returned a, (h, e')) => (Returned (contents h a), e')
    | (Threw x, (_, e')) => (Threw x, e')
    | (Spinning, (_, e')) => (Spinning, e')
    end.

(** The options object [{}]. *)
Definition no_options : SecureGenerateOptions :=
  mkOptions None None None None None None.

(** [generateSecurePassword(options = {})] *)
Definition generateSecurePassword (fuel : nat)
    (options : option SecureGenerateOptions) : M entropy (list ascii) :=
  let o := default no_options options in
  let length := default DEFAULT_LENGTH (opt_length o) in
  let uppercase := default (Flag true) (opt_uppercase o) in
  let lowercase := default (Flag true) (opt_lowercase o) in
  let numbers := default (Flag true) (opt_numbers o) in
  let specials := default (Flag true) (opt_specials o) in
  if length <? 1 then throw ERR_LENGTH
  else
    let* c1 := include_class fuel uppercase DEFAULT_UPPERCASE ([], []) in
    let* c2 := include_class fuel lowercase DEFAULT_LOWERCASE c1 in
    let* c3 := include_class fuel numbers DEFAULT_NUMBERS c2 in
    let* c4 := include_class fuel specials DEFAULT_SPECIALS c3 in
    let charset := fst c4 in
    let guaranteedChars := snd c4 in
    match charset with
    | [] => throw Legacy.ERR_NO_TYPES
    | _ :: _ =>
        let remainingLength := length - Z.of_nat (List.length guaranteedChars) in
        let* randomChars :=
          (if 0 <? remainingLength
           then fill_random fuel (Z.to_nat remainingLength) charset []
           else ret []) in
        let* finalPasswordArray :=
          shuffle_fresh fuel (guaranteedChars ++ randomChars) in
        ret (Array_join (Array_slice0 finalPasswordArray length))
    end.

End Unbuffered.

(** A session that holds exactly the words the entropy source [e] would
    deliver next. *)
Definition in_step (st : gstate) (e : entropy) : Prop :=
  forall i, upcoming st i = raw e i.

(** ** Hexadecimal encoding ([utils/hex.ts])

    A string that is produced or read character by character is a list of
    characters; a text handed whole to the platform's encoder is a
    [string].  Characters are code units below 256. *)

Definition char_code (c : ascii) : Z := Z.of_nat (nat_of_ascii c).

Definition digit16 (d : Z) : ascii :=
  nth (Z.to_nat d) (chars "0123456789abcdef") "0"%char.

Fixpoint digits16 (fuel : nat) (n : Z) : list ascii :=
  match fuel with
  | O => [digit16 (n mod 16)]
  | S fuel' =>
      if n <? 16 then [digit16 n]
      else digits16 fuel' (n / 16) ++ [digit16 (n mod 16)]
  end.

(** [n.toString(16)] for a non-negative integer. *)
Definition Number_toString16 (n : Z) : list ascii :=
  digits16 (Z.to_nat (Z.log2 n)) n.

(** [s.slice(start)] *)
Definition String_slice (s : list ascii) (start : Z) : list ascii :=
  drop (Z.to_nat (if start <? 0 then Z.max (Z.of_nat (length s) + start) 0
                  else start)) s.

(** The characters the pattern [.] does not match. *)
Definition is_LineTerminator (c : ascii) : bool :=
  bool_decide (c = "010"%char) || bool_decide (c = "013"%char).

(** [s.match(/.{1,2}/g)]: the successive matches, none for [null]. *)
Fixpoint String_match_pairs (s : list ascii) : list (list ascii) :=
  match s with
  | [] => []
  | c :: rest =>
      if is_LineTerminator c then String_match_pairs rest
      else
        match rest with
        | [] => [[c]]
        | d :: rest' =>
            if is_LineTerminator d then [c] :: String_match_pairs rest
            else [c; d] :: String_match_pairs rest'
        end
  end.

(** White space skipped by [parseInt]. *)
Definition is_StrWhiteSpaceChar (c : ascii) : bool :=
  bool_decide (c ∈ ["009"; "010"; "011"; "012"; "013"; " "; "160"]%char).

Fixpoint skip_white_space (s : list ascii) : list ascii :=
  match s with
  | c :: s' => if is_StrWhiteSpaceChar c then skip_white_space s' else s
  | [] => []
  end.

Definition hex_value (c : ascii) : option Z :=
  let n := char_code c in
  if (48 <=? n) && (n <=? 57) then Some (n - 48)
  else if (97 <=? n) && (n <=? 102) then Some (n - 87)
  else if (65 <=? n) && (n <=? 70) then Some (n - 55)
  else None.

(** The value of the longest prefix of hexadecimal digits; [acc] is the
    value read so far, [None] while no digit has been read. *)
Fixpoint parse_digits16 (s : list ascii) (acc : option Z) : option Z :=
  match s with
  | [] => acc
  | c :: s' =>
      match hex_value c with
      | Some d => parse_digits16 s' (Some (default 0 acc * 16 + d))
      | None => acc
      end
  end.

(** [Number.parseInt(string, 16)]; [None] is [NaN].  Leading white space is
    skipped, a sign is read, a [0x] or [0X] prefix is dropped, and the
    longest run of hexadecimal digits that follows is the value. *)
Definition Number_parseInt16 (string : list ascii) : option Z :=
  let S := skip_white_space string in
  let sign := if bool_decide (head S = Some "-"%char) then -1 else 1 in
  let S :=
    if bool_decide (head S = Some "-"%char)
       || bool_decide (head S = Some "+"%char)
    then tail S else S in
  let S :=
    if bool_decide (take 2 S = chars "0x") || bool_decide (take 2 S = chars "0X")
    then drop 2 S else S in
  match parse_digits16 S None with
  | None => None
  | Some mathInt => Some (sign * mathInt)
  end.

(** The conversion of a number stored into a [Uint8Array]. *)
Definition ToUint8 (v : option Z) : Byte.byte :=
  match v with
  | None => Byte.x00
  | Some n => default Byte.x00 (Byte.of_N (Z.to_N (n mod 256)))
  end.

Definition fromHexString (hexString : list ascii) : list Byte.byte :=
  match String_match_pairs hexString with
  | [] => []
  | match_ => map (fun byte => ToUint8 (Number_parseInt16 byte)) match_
  end.

Section Hex.
(** The platform's [TextEncoder.encode] and [TextDecoder.decode], and its
    [Uint8Array.prototype.toHex] and [Uint8Array.fromHex] where it has
    them. *)
Variable textEncoder_encode : string -> list Byte.byte.
Variable textDecoder_decode : list Byte.byte -> string.
Variable Uint8Array_toHex : option (list Byte.byte -> list ascii).
Variable Uint8Array_fromHex : option (list ascii -> outcome (list Byte.byte)).

Definition hexEncode (data : operand) : list ascii :=
  let encodedData :=
    match data with
    | Bytes b => b
    | Text s => textEncoder_encode s
    end in
  match Uint8Array_toHex with
  | Some toHex => toHex encodedData
  | None =>
      concat (map (fun x =>
                     String_slice (chars "00" ++ Number_toString16 (byte_val x))
                       (-2))
                encodedData)
  end.

Definition hexDecode (str : option (list ascii)) (toString : option bool)
    : outcome operand :=
  let decodeToString := negb (bool_decide (toString = Some false)) in
  match str with
  | None | Some [] =>
      Returned (if decodeToString then Text EmptyString else Bytes [])
  | Some str =>
      match (match Uint8Array_fromHex with
             | Some fromHex => fromHex str
             | None => Returned (fromHexString str)
             end) with
      | Returned data =>
          Returned (if decodeToString then Text (textDecoder_decode data)
                    else Bytes data)
      | Threw x => Threw x
      | Spinning => Spinning
      end
  end.
End Hex.

(** [textDecoder.decode(data)] as [hexDecode] returns it: the empty string
    for no bytes. *)
Definition decoded_text (decode : list Byte.byte -> string)
    (bytes : list Byte.byte) : string :=
  match bytes with
  | [] => EmptyString
  | _ => decode bytes
  end.

(** The lower-case hexadecimal digits. *)
Definition is_lower_hex (c : ascii) : Prop := c ∈ chars "0123456789abcdef".

(** [s.toUpperCase()] on the hexadecimal digits. *)
Definition upper_hex (c : ascii) : ascii :=
  if (97 <=? char_code c) && (char_code c <=? 102)
  then ascii_of_nat (Z.to_nat (char_code c - 32)) else c.

(** The two digits [hexEncode] writes for a byte. *)
Definition hex_pair (x : Byte.byte) : list ascii :=
  [digit16 (byte_val x / 16); digit16 (byte_val x mod 16)].

(** What is checked of every byte: its two digits are what the encoder
    writes, are lower-case digits matched by [.], and are read back as the
    byte, also in upper case. *)
Definition hex_pair_check (x : Byte.byte) : bool :=
  bool_decide
    (String_slice (chars "00" ++ Number_toString16 (byte_val x)) (-2)
     = hex_pair x)
  && forallb (fun c => negb (is_LineTerminator c)
                       && bool_decide (c ∈ chars "0123456789abcdef"))
       (hex_pair x)
  && Byte.eqb (ToUint8 (Number_parseInt16 (hex_pair x))) x
  && Byte.eqb (ToUint8 (Number_parseInt16 (map upper_hex (hex_pair x)))) x.

(** A digit read on its own, as the last chunk of a string of odd
    length. *)
Definition hex_digit_check (d : Z) : bool :=
  negb (is_LineTerminator (digit16 d))
  && bool_decide (Number_parseInt16 [digit16 d] = Some d).

(** ** Base64 ([utils/base64.ts])

    The platform's [btoa] and [atob] work on binary strings, whose
    characters stand for bytes.  [btoa] is the Base64 encoding with
    padding; [atob] is its forgiving decoder. *)

Definition BASE64 : list ascii :=
  chars "ABCDEFGHIJKLMNOPQRSTUVWXYZabcdefghijklmnopqrstuvwxyz0123456789+/".

Definition base64_digit (n : Z) : ascii := nth (Z.to_nat n) BASE64 "A"%char.

Fixpoint index_of (c : ascii) (l : list ascii) : option Z :=
  match l with
  | [] => None
  | x :: l' => if bool_decide (x = c) then Some 0 else Z.succ <$> index_of c l'
  end.

Definition base64_value (c : ascii) : option Z := index_of c BASE64.

(** The 6-bit groups of a sequence of bytes; the last group is filled up
    with zero bits. *)
Fixpoint sextets (codes : list Z) : list Z :=
  match codes with
  | a :: b :: c :: rest =>
      a / 4 :: (a mod 4) * 16 + b / 16 :: (b mod 16) * 4 + c / 64 :: c mod 64
        :: sextets rest
  | [a; b] => [a / 4; (a mod 4) * 16 + b / 16; (b mod 16) * 4]
  | [a] => [a / 4; (a mod 4) * 16]
  | [] => []
  end.

(** [btoa(data)]; the characters above U+00FF that make it throw are not
    characters of this model. *)
Definition btoa (data : list ascii) : list ascii :=
  let codes := map char_code data in
  map base64_digit (sextets codes)
    ++ replicate ((3 - length codes mod 3) mod 3) "="%char.

Definition is_ASCII_whitespace (c : ascii) : bool :=
  bool_decide (c ∈ ["009"; "010"; "012"; "013"; " "]%char).

(** One or two [=] at the end of a string whose length is a multiple of
    four are removed. *)
Definition strip_padding (data : list ascii) : list ascii :=
  let n := length data in
  if (n mod 4 =? 0)%nat then
    if bool_decide (drop (n - 2) data = chars "==") then take (n - 2) data
    else if bool_decide (drop (n - 1) data = chars "=") then take (n - 1) data
    else data
  else data.

(** The bytes of a sequence of 6-bit groups; the bits left over in a last
    group of two or three are dropped. *)
Fixpoint octets (ss : list Z) : list Z :=
  match ss with
  | s1 :: s2 :: s3 :: s4 :: rest =>
      s1 * 4 + s2 / 16 :: (s2 mod 16) * 16 + s3 / 4 :: (s3 mod 4) * 64 + s4
        :: octets rest
  | [s1; s2; s3] => [s1 * 4 + s2 / 16; (s2 mod 16) * 16 + s3 / 4]
  | [s1; s2] => [s1 * 4 + s2 / 16]
  | _ => []
  end.

(** The [DOMException] named [InvalidCharacterError] that [atob] throws. *)
Definition ERR_INVALID_CHARACTER : exn := Error "InvalidCharacterError".

Definition ascii_of_code (n : Z) : ascii := ascii_of_nat (Z.to_nat n).

(** [atob(data)] *)
Definition atob (data : list ascii) : outcome (list ascii) :=
  let data := filter (fun c => is_ASCII_whitespace c = false) data in
  let data := strip_padding data in
  if (length data mod 4 =? 1)%nat then Threw ERR_INVALID_CHARACTER
  else
    match mapM base64_value data with
    | None => Threw ERR_INVALID_CHARACTER
    | Some ss => Returned (map ascii_of_code (octets ss))
    end.

(** The string [String.fromCodePoint(...bytes)] gives when the call goes
    through; [Spread] below has the call with the engine's limit on the
    number of arguments. *)
Definition String_fromCodePoint (bytes : list Byte.byte) : list ascii :=
  map (fun x => ascii_of_code (byte_val x)) bytes.

(** [Uint8Array.from(s, (b) => b.codePointAt(0))] *)
Definition Uint8Array_from_string (s : list ascii) : list Byte.byte :=
  map (fun b => ToUint8 (Some (char_code b))) s.

(** [s.replace(/c/g, r)] for a single character [c]. *)
Definition String_replace_char (c r : ascii) (s : list ascii) : list ascii :=
  map (fun x => if bool_decide (x = c) then r else x) s.

(** [s.replace(/c/g, r)] with the empty string for [r]. *)
Definition String_remove_char (c : ascii) (s : list ascii) : list ascii :=
  filter (fun x => x <> c) s.

(** [while (str.length % 4) str += "="], with [fuel] iterations at most. *)
Fixpoint pad_loop (fuel : nat) (str : list ascii) : outcome (list ascii) :=
  if (length str mod 4 =? 0)%nat then Returned str
  else
    match fuel with
    | O => Spinning
    | S fuel' => pad_loop fuel' (str ++ ["="%char])
    end.

Section Base64.
(** The platform's text codecs, and its [Uint8Array.prototype.toBase64]
    and [Uint8Array.fromBase64] where it has them; their argument tells
    whether the [base64url] options are passed. *)
Variable textEncoder_encode : string -> list Byte.byte.
Variable textDecoder_decode : list Byte.byte -> string.
Variable Uint8Array_toBase64 : option (bool -> list Byte.byte -> list ascii).
Variable Uint8Array_fromBase64
  : option (bool -> list ascii -> outcome (list Byte.byte)).

Definition base64Encode (data : operand) : list ascii :=
  let encodedData :=
    match data with
    | Bytes b => b
    | Text s => textEncoder_encode s
    end in
  match Uint8Array_toBase64 with
  | Some toBase64 => toBase64 false encodedData
  | None => btoa (String_fromCodePoint encodedData)
  end.

Definition base64UrlEncode (data : operand) : list ascii :=
  let encodedData :=
    match data with
    | Bytes b => b
    | Text s => textEncoder_encode s
    end in
  match Uint8Array_toBase64 with
  | Some toBase64 => toBase64 true encodedData
  | None =>
      String_remove_char "="
        (String_replace_char "/" "_"
           (String_replace_char "+" "-" (btoa (String_fromCodePoint encodedData))))
  end.

Definition base64Decode (str : option (list ascii)) (toString : option bool)
    : outcome operand :=
  let decodeToString := negb (bool_decide (toString = Some false)) in
  match str with
  | None | Some [] =>
      Returned (if decodeToString then Text EmptyString else Bytes [])
  | Some str =>
      match (match Uint8Array_fromBase64 with
             | Some fromBase64 => fromBase64 false str
             | None =>
                 match atob str with
                 | Returned s => Returned (Uint8Array_from_string s)
                 | Threw x => Threw x
                 | Spinning => Spinning
                 end
             end) with
      | Returned data =>
          Returned (if decodeToString then Text (textDecoder_decode data)
                    else Bytes data)
      | Threw x => Threw x
      | Spinning => Spinning
      end
  end.

Definition base64UrlDecode (fuel : nat) (str : option (list ascii))
    (toString : option bool) : outcome operand :=
  let decodeToString := negb (bool_decide (toString = Some false)) in
  match str with
  | None | Some [] =>
      Returned (if decodeToString then Text EmptyString else Bytes [])
  | Some str =>
      match (match Uint8Array_fromBase64 with
             | Some fromBase64 => fromBase64 true str
             | None =>
                 let str :=
                   String_replace_char "_" "/" (String_replace_char "-" "+" str) in
                 match pad_loop fuel str with
                 | Returned str =>
                     match atob str with
                     | Returned s => Returned (Uint8Array_from_string s)
                     | Threw x => Threw x
                     | Spinning => Spinning
                     end
                 | Threw x => Threw x
                 | Spinning => Spinning
                 end
             end) with
      | Returned data =>
          Returned (if decodeToString then Text (textDecoder_decode data)
                    else Bytes data)
      | Threw x => Threw x
      | Spinning => Spinning
      end
  end.
End Base64.

(** ** The spread call of the encoders

    [String.fromCodePoint(...encodedData)] hands over every byte as an
    argument of its own, and an engine refuses a call with more arguments
    than it has room for.  [base64Encode] and [base64UrlEncode] above are
    the encoders where the call goes through, as it does for a digest;
    here they are with the refusal.  [max_arguments] is the number of
    arguments the engine has room for at the call, [refusal] the message
    of the [RangeError] it throws. *)
Module Spread.
Section Encoders.
Variable max_arguments : nat.
Variable refusal : string.
Variable textEncoder_encode : string -> list Byte.byte.
Variable Uint8Array_toBase64 : option (bool -> list Byte.byte -> list ascii).

(** [String.fromCodePoint(...bytes)] *)
Definition String_fromCodePoint (bytes : list Byte.byte)
    : outcome (list ascii) :=
  if (length bytes <=? max_arguments)%nat
  then Returned (map (fun x => ascii_of_code (byte_val x)) bytes)
  else Threw (RangeError refusal).

Definition base64Encode (data : operand) : outcome (list ascii) :=
  let encodedData :=
    match data with
    | Bytes b => b
    | Text s => textEncoder_encode s
    end in
  match Uint8Array_toBase64 with
  | Some toBase64 => Returned (toBase64 false encodedData)
  | None =>
      match String_fromCodePoint encodedData with
      | Returned s => Returned (btoa s)
      | Threw x => Threw x
      | Spinning => Spinning
      end
  end.

Definition base64UrlEncode (data : operand) : outcome (list ascii) :=
  let encodedData :=
    match data with
    | Bytes b => b
    | Text s => textEncoder_encode s
    end in
  match Uint8Array_toBase64 with
  | Some toBase64 => Returned (toBase64 true encodedData)
  | None =>
      match String_fromCodePoint encodedData with
      | Returned s =>
          Returned
            (String_remove_char "="
               (String_replace_char "/" "_"
                  (String_replace_char "+" "-" (btoa s))))
      | Threw x => Threw x
      | Spinning => Spinning
      end
  end.
End Encoders.
End Spread.

(** The Base64 digit of the URL alphabet. *)
Definition base64url_digit (n : Z) : ascii :=
  nth (Z.to_nat n)
    (chars "ABCDEFGHIJKLMNOPQRSTUVWXYZabcdefghijklmnopqrstuvwxyz0123456789-_")
    "A"%char.

(** What is checked of each of the 64 digits: it is read back as its
    value, is neither white space nor padding, and goes to the URL alphabet
    and back. *)
Definition base64_digit_check (n : Z) : bool :=
  bool_decide (base64_value (base64_digit n) = Some n)
  && negb (is_ASCII_whitespace (base64_digit n))
  && bool_decide (base64_digit n <> "="%char)
  && bool_decide
       (String_replace_char "/" "_" (String_replace_char "+" "-" [base64_digit n])
        = [base64url_digit n])
  && bool_decide
       (String_replace_char "_" "/" (String_replace_char "-" "+" [base64url_digit n])
        = [base64_digit n])
  && bool_decide (base64url_digit n ∉ chars "+/=")
  && bool_decide
       (String_replace_char "_" "/" (String_replace_char "-" "+" [base64_digit n])
        = [base64_digit n]).

Definition is_octet (z : Z) : Prop := 0 <= z < 256.
Definition is_sextet (z : Z) : Prop := 0 <= z < 64.

(** The result of a decoder on the encoding of [bytes]: the bytes, or
    their decoding as a text. *)
Definition decoded (decode : list Byte.byte -> string) (toString : option bool)
    (bytes : list Byte.byte) : operand :=
  if bool_decide (toString = Some false) then Bytes bytes
  else Text (decoded_text decode bytes).

(** What is checked of every byte: it goes to a character and back. *)
Definition byte_char_check (x : Byte.byte) : bool :=
  bool_decide (char_code (ascii_of_code (byte_val x)) = byte_val x)
  && Byte.eqb (ToUint8 (Some (byte_val x))) x.

(** ** Hashing ([hash.ts])

    [crypto.subtle.digest] is the platform's; a rejected promise is a
    thrown error. *)

(** What [hash] resolves to, [Uint8Array | string]. *)
Inductive hashed : Type :=
  | AsBytes (b : list Byte.byte)
  | AsString (s : list ascii).

Record DigestOptions : Type := mkDigestOptions {
  algorithm : option string;
  returnAs : option string
}.

Definition ERR_UNSUPPORTED_RETURN (returnAs : string) : exn :=
  Error ("Unsupported hash " +:+ String "034" "returnAs"
           +:+ String "034" " option: " +:+ returnAs).

Section Hash.
Variable textEncoder_encode : string -> list Byte.byte.
Variable crypto_subtle_digest : string -> list Byte.byte -> outcome (list Byte.byte).
Variable Uint8Array_toHex : option (list Byte.byte -> list ascii).
Variable Uint8Array_toBase64 : option (bool -> list Byte.byte -> list ascii).

Definition hash (data : operand) (options : option DigestOptions)
    : outcome hashed :=
  let options := default (mkDigestOptions None None) options in
  let algorithm := default "SHA-256"%string (algorithm options) in
  let returnAs := default "hex"%string (returnAs options) in
  let dataBuffer :=
    match data with
    | Text s => textEncoder_encode s
    | Bytes b => b
    end in
  match crypto_subtle_digest algorithm dataBuffer with
  | Returned hashBytes =>
      if bool_decide (returnAs = "bytes"%string)
         || bool_decide (returnAs = "uint8array"%string)
      then Returned (AsBytes hashBytes)
      else if bool_decide (returnAs = "hex"%string)
      then Returned
             (AsString (hexEncode textEncoder_encode Uint8Array_toHex
                          (Bytes hashBytes)))
      else if bool_decide (returnAs = "b64"%string)
              || bool_decide (returnAs = "base64"%string)
      then Returned
             (AsString (base64Encode textEncoder_encode Uint8Array_toBase64
                          (Bytes hashBytes)))
      else if bool_decide (returnAs = "b64url"%string)
              || bool_decide (returnAs = "base64url"%string)
      then Returned
             (AsString (base64UrlEncode textEncoder_encode Uint8Array_toBase64
                          (Bytes hashBytes)))
      else Threw (ERR_UNSUPPORTED_RETURN returnAs)
  | Threw x => Threw x
  | Spinning => Spinning
  end.
End Hash.

(** The first release of [hash], with its [asString] option. *)
Module AsString.

Record DigestOptions : Type := mkDigestOptions {
  algorithm : option string;
  asString : option bool
}.

Section Hash.
Variable textEncoder_encode : string -> list Byte.byte.
Variable crypto_subtle_digest : string -> list Byte.byte -> outcome (list Byte.byte).
Variable Uint8Array_toHex : option (list Byte.byte -> list ascii).

Definition hash (data : operand) (options : option DigestOptions)
    : outcome hashed :=
  let options := default (mkDigestOptions None None) options in
  let algorithm := default "SHA-256"%string (algorithm options) in
  let asString := asString options in
  let dataBuffer :=
    match data with
    | Text s => textEncoder_encode s
    | Bytes b => b
    end in
  match crypto_subtle_digest algorithm dataBuffer with
  | Returned hashBytes =>
      if bool_decide (asString = Some false) then Returned (AsBytes hashBytes)
      else Returned
             (AsString (hexEncode textEncoder_encode Uint8Array_toHex
                          (Bytes hashBytes)))
  | Threw x => Threw x
  | Spinning => Spinning
  end.
End Hash.

End AsString.

(** The values of [returnAs] that [hash] knows. *)
Definition known_returnAs : list string :=
  ["bytes"; "uint8array"; "hex"; "b64"; "base64"; "b64url"; "base64url"]%string.

(** Options asking for the form [returnAs]. *)
Definition returning (algorithm : option string) (returnAs : string)
    : option DigestOptions :=
  Some (mkDigestOptions algorithm (Some returnAs)).

(** The [returnAs] that stands for an [asString] option. *)
Definition returnAs_of (asString : option bool) : string :=
  if bool_decide (asString = Some false) then "bytes"%string else "hex"%string.

(** What a generated string is made of: [gs], one character of each
    enabled class, in the order of the classes, and [extra], the
    characters drawn from the whole character set to fill it up. *)
Definition made_of (classes : list (list ascii)) (L : Z)
    (gs extra body : list ascii) : Prop :=
  Forall2 (fun cls c => c ∈ cls) classes gs /\
  Forall (fun c => c ∈ concat classes) extra /\
  length extra = Z.to_nat (L - Z.of_nat (length classes)) /\
  Z.of_nat (length body) = L /\
  body ⊆+ gs ++ extra.

(** Two computations, over states of their own, that go together: started
    in related states they have the same outcome and end in related states,
    and what they return satisfies [P]. *)
Definition related {S1 S2 A} (R : S1 -> S2 -> Prop) (P : A -> Prop)
    (m1 : M S1 A) (m2 : M S2 A) : Prop :=
  forall s1 s2, R s1 s2 ->
    fst (m1 s1) = fst (m2 s2) /\ R (snd (m1 s1)) (snd (m2 s2)) /\
    forall a, fst (m1 s1) = Returned a -> P a.

(** The entropy source of a program without a session against the session
    of a program with one. *)
Definition session_in_step (e : entropy) (st : gstate) : Prop := in_step st e.

(** A call's argument with the [timestamp] property taken away. *)
Definition without_timestamp
    (numOrOptions : option (Z + SecureGenerateOptions))
    : option (Z + SecureGenerateOptions) :=
  match numOrOptions with
  | Some (inr o) =>
      Some (inr (mkOptions (opt_length o) (opt_uppercase o) (opt_lowercase o)
                   (opt_numbers o) (opt_specials o) None))
  | _ => numOrOptions
  end.

(** What [include_class] has added to [charset] and [guaranteedChars]. *)
Definition class_added (set : selector) (defaultSet : list ascii)
    (acc c : list ascii * list (option ascii)) : Prop :=
  fst c = fst acc ++ concat (class_alphabet set defaultSet) /\
  length (snd c) = (length (snd acc) + length (class_alphabet set defaultSet))%nat.

(** * Proofs *)

(** ** Searching the first accepted word *)

Lemma first_accepted_ext fuel acc (w w' : nat -> Z) :
  (forall i, w i = w' i) ->
  first_accepted fuel acc w = first_accepted fuel acc w'.
Proof.
  revert w w'. induction fuel as [|fuel IH]; intros w w' Hw; simpl; [done|].
  rewrite Hw. destruct (acc (w' O)); [done|].
  f_equal. apply IH. intros i. apply Hw.
Qed.

Lemma first_accepted_Some fuel acc (w : nat -> Z) k :
  first_accepted fuel acc w = Some k ->
  (k < fuel)%nat /\ acc (w k) = true /\
  forall j, (j < k)%nat -> acc (w j) = false.
Proof.
  revert w k. induction fuel as [|fuel IH]; intros w k; simpl; [done|].
  destruct (acc (w O)) eqn:E.
  - intros [= <-]. repeat split; [lia|done|intros; lia].
  - destruct (first_accepted fuel acc (fun i => w (S i))) as [k'|] eqn:F;
      simpl; [|done].
    intros [= <-]. destruct (IH _ _ F) as (Hlt & Hacc & Hbefore).
    repeat split; [lia|done|].
    intros [|j] Hj; [done|]. apply Hbefore. lia.
Qed.

Lemma first_accepted_None fuel acc (w : nat -> Z) :
  first_accepted fuel acc w = None ->
  forall j, (j < fuel)%nat -> acc (w j) = false.
Proof.
  revert w. induction fuel as [|fuel IH]; intros w; simpl; [intros; lia|].
  destruct (acc (w O)) eqn:E; [done|].
  destruct (first_accepted fuel acc (fun i => w (S i))) eqn:F; simpl; [done|].
  intros _ [|j] Hj; [done|]. apply (IH _ F). lia.
Qed.

Lemma first_accepted_intro fuel acc (w : nat -> Z) k :
  (k < fuel)%nat -> acc (w k) = true ->
  (forall j, (j < k)%nat -> acc (w j) = false) ->
  first_accepted fuel acc w = Some k.
Proof.
  intros Hlt Hacc Hbefore.
  destruct (first_accepted fuel acc w) as [k'|] eqn:F.
  - destruct (first_accepted_Some _ _ _ _ F) as (_ & Hacc' & Hbefore').
    f_equal. destruct (Nat.lt_trichotomy k' k) as [H|[H|H]]; [|done|].
    + rewrite (Hbefore _ H) in Hacc'. done.
    + rewrite (Hbefore' _ H) in Hacc. done.
  - rewrite (first_accepted_None _ _ _ F _ Hlt) in Hacc. done.
Qed.

(** ** Reading words *)

Arguments BUFFER_SIZE : simpl never.
Arguments crypto_getRandomValues : simpl never.

Lemma BUFFER_SIZE_eq : BUFFER_SIZE = 256%nat.
Proof. reflexivity. Qed.

Lemma refill_buffer st :
  _refillBuffer st =
  (mkSession (fst (crypto_getRandomValues BUFFER_SIZE (snd st))) 0,
   skip BUFFER_SIZE (snd st)).
Proof. reflexivity. Qed.

Lemma refill_lookup (e : entropy) (n j : nat) :
  (j < n)%nat ->
  fst (crypto_getRandomValues n e) !! j = Some (raw e j).
Proof.
  intros Hj. unfold crypto_getRandomValues, raw. cbn [fst].
  rewrite list_lookup_fmap, lookup_seq_lt by done. reflexivity.
Qed.

Lemma read_word_value st : fst (read_word st) = upcoming st 0.
Proof.
  unfold read_word, upcoming. destruct st as [g e]. cbn [fst snd].
  destruct (Nat.leb_spec BUFFER_SIZE (index g)) as [H|H].
  - rewrite refill_buffer. cbn [fst snd buffer index].
    rewrite refill_lookup by (rewrite BUFFER_SIZE_eq; lia).
    destruct (Nat.ltb_spec 0 (BUFFER_SIZE - index g)) as [H'|H']; [lia|].
    unfold raw. cbn [default from_option id]. do 2 f_equal; try lia.
  - destruct (Nat.ltb_spec 0 (BUFFER_SIZE - index g)) as [H'|H']; [|lia].
    by rewrite Nat.add_0_r.
Qed.

Lemma read_word_upcoming st i :
  upcoming (snd (read_word st)) i = upcoming st (S i).
Proof.
  unfold read_word, upcoming. destruct st as [g e]. cbn [fst snd].
  pose proof BUFFER_SIZE_eq as HB.
  destruct (Nat.leb_spec BUFFER_SIZE (index g)) as [H|H].
  - rewrite refill_buffer. cbn [fst snd buffer index skip stream taken].
    destruct (Nat.ltb_spec (S i) (BUFFER_SIZE - index g)) as [H'|H']; [lia|].
    destruct (Nat.ltb_spec i (BUFFER_SIZE - 1)) as [H2|H2].
    + rewrite refill_lookup by lia. unfold raw. cbn [default from_option id]. do 2 f_equal; try lia.
    + do 2 f_equal; try lia.
  - cbn [fst snd buffer index].
    destruct (Nat.ltb_spec (S i) (BUFFER_SIZE - index g)) as [H'|H'];
      destruct (Nat.ltb_spec i (BUFFER_SIZE - S (index g))) as [H2|H2];
      try lia.
    + do 2 f_equal; try lia.
    + do 2 f_equal; try lia.
Qed.

Lemma getRandomValues_bounds n e :
  Forall (fun w => 0 <= w < 2 ^ 32) (fst (crypto_getRandomValues n e)).
Proof.
  unfold crypto_getRandomValues. cbn [fst]. apply Forall_fmap, Forall_forall.
  intros i _. cbn. unfold uint32. apply Z.mod_pos_bound. lia.
Qed.

Lemma getRandomValues_length n e :
  length (fst (crypto_getRandomValues n e)) = n.
Proof.
  unfold crypto_getRandomValues. cbn [fst]. by rewrite length_fmap, length_seq.
Qed.

Lemma read_word_ok st :
  session_ok (fst st) -> session_ok (fst (snd (read_word st))).
Proof.
  unfold read_word, session_ok. destruct st as [g e]. cbn [fst snd].
  intros [Hlen Hall].
  destruct (Nat.leb_spec BUFFER_SIZE (index g)) as [H|H];
    cbn [fst snd buffer index]; [|done].
  rewrite refill_buffer. cbn [fst snd buffer index]. split.
  - apply getRandomValues_length.
  - apply getRandomValues_bounds.
Qed.

Lemma read_word_stream st :
  stream (snd (snd (read_word st))) = stream (snd st).
Proof.
  unfold read_word. destruct st as [g e]. cbn [fst snd].
  by destruct (BUFFER_SIZE <=? index g)%nat.
Qed.

Lemma advance_upcoming n st i :
  upcoming (advance n st) i = upcoming st (n + i)%nat.
Proof.
  revert st. induction n as [|n IH]; intros st; cbn [advance]; [done|].
  rewrite IH, read_word_upcoming. reflexivity.
Qed.

Lemma advance_ok n st : session_ok (fst st) -> session_ok (fst (advance n st)).
Proof.
  revert st. induction n as [|n IH]; intros st H; cbn [advance]; [done|].
  apply IH, read_word_ok, H.
Qed.

Lemma advance_stream n st : stream (snd (advance n st)) = stream (snd st).
Proof.
  revert st. induction n as [|n IH]; intros st; cbn [advance]; [done|].
  by rewrite IH, read_word_stream.
Qed.

Lemma upcoming_bounds st i :
  session_ok (fst st) -> 0 <= upcoming st i < 2 ^ 32.
Proof.
  intros [_ Hall]. unfold upcoming.
  destruct (i <? BUFFER_SIZE - index (fst st))%nat.
  - destruct (buffer (fst st) !! (index (fst st) + i)%nat) as [w|] eqn:E;
      cbn [default from_option id]; [|lia].
    rewrite Forall_forall in Hall. apply Hall.
    by apply list_elem_of_lookup_2 in E.
  - unfold uint32. apply Z.mod_pos_bound. lia.
Qed.

Lemma upcoming_fresh e i : upcoming (createSecureRandomGenerator, e) i = raw e i.
Proof.
  unfold upcoming, raw. cbn [fst snd index createSecureRandomGenerator].
  destruct (Nat.ltb_spec i (BUFFER_SIZE - BUFFER_SIZE)) as [H|H]; [lia|].
  do 2 f_equal; try lia.
Qed.

Lemma fresh_session_ok : session_ok createSecureRandomGenerator.
Proof.
  split; cbn [buffer createSecureRandomGenerator].
  - by rewrite length_replicate.
  - apply Forall_replicate. lia.
Qed.

Lemma raw_bounds e i : 0 <= raw e i < 2 ^ 32.
Proof. unfold raw, uint32. apply Z.mod_pos_bound. lia. Qed.

(** ** The rejection loops *)

Lemma next_loop_S fuel min range ign st :
  next_loop (S fuel) min range (maxSafe_of range) ign st =
  if accepts min range ign (fst (read_word st))
  then (Returned (Number_add min (Z.rem (fst (read_word st)) range)),
        snd (read_word st))
  else next_loop fuel min range (maxSafe_of range) ign (snd (read_word st)).
Proof.
  unfold accepts, read_word. cbn [next_loop fst snd].
  by destruct ((maxSafe_of range <=? _) || _).
Qed.

Lemma next_loop_spec fuel min range ign st :
  next_loop fuel min range (maxSafe_of range) ign st =
  match first_accepted fuel (accepts min range ign) (upcoming st) with
  | Some k =>
      (Returned (Number_add min (Z.rem (upcoming st k) range)),
       advance (S k) st)
  | None => (Spinning, advance fuel st)
  end.
Proof.
  revert st. induction fuel as [|fuel IH]; intros st; [done|].
  rewrite next_loop_S. cbn [first_accepted]. rewrite read_word_value.
  destruct (accepts min range ign (upcoming st 0)); [done|].
  rewrite IH.
  rewrite (first_accepted_ext fuel _ (upcoming (snd (read_word st)))
             (fun i => upcoming st (S i))) by apply read_word_upcoming.
  destruct (first_accepted fuel _ (fun i => upcoming st (S i))) as [k|];
    cbn [option_map advance]; [|done].
  by rewrite read_word_upcoming.
Qed.

Lemma skip_skip n m e : skip n (skip m e) = skip (m + n) e.
Proof. unfold skip. cbn [stream taken]. f_equal. lia. Qed.

Lemma raw_skip n e i : raw (skip n e) i = raw e (n + i)%nat.
Proof. unfold raw, skip. cbn [stream taken]. do 2 f_equal; lia. Qed.

Lemma secureRandomNumber_loop_S fuel min range ign e :
  secureRandomNumber_loop (S fuel) min range (maxSafe_of range) ign e =
  if accepts min range ign (raw e 0)
  then (Returned (Number_add min (Z.rem (raw e 0) range)), skip 1 e)
  else secureRandomNumber_loop fuel min range (maxSafe_of range) ign (skip 1 e).
Proof.
  unfold accepts. cbn [secureRandomNumber_loop].
  change (crypto_getRandomValues 1 e) with ([raw e 0], skip 1 e).
  cbn [lookup list_lookup default from_option id].
  by destruct ((maxSafe_of range <=? _) || _).
Qed.

Lemma secureRandomNumber_loop_spec fuel min range ign e :
  secureRandomNumber_loop fuel min range (maxSafe_of range) ign e =
  match first_accepted fuel (accepts min range ign) (raw e) with
  | Some k =>
      (Returned (Number_add min (Z.rem (raw e k) range)), skip (S k) e)
  | None => (Spinning, skip fuel e)
  end.
Proof.
  revert e. induction fuel as [|fuel IH]; intros e.
  - cbn. unfold skip. destruct e. cbn. by rewrite Nat.add_0_r.
  - rewrite secureRandomNumber_loop_S. cbn [first_accepted].
    destruct (accepts min range ign (raw e 0)); [done|].
    rewrite IH.
    rewrite (first_accepted_ext fuel _ (raw (skip 1 e))
               (fun i => raw e (S i))) by apply raw_skip.
    destruct (first_accepted fuel _ (fun i => raw e (S i))) as [k|];
      cbn [option_map]; by rewrite ?raw_skip, skip_skip.
Qed.

(** ** Arithmetic of the acceptance test *)

Lemma maxSafe_spec range : 0 < range -> maxSafe_of range = 2 ^ 32 - 2 ^ 32 mod range.
Proof. intros H. unfold maxSafe_of. by rewrite Z.rem_mod_nonneg by lia. Qed.

Lemma binary64_exact z : - 2 ^ 53 <= z <= 2 ^ 53 -> binary64 z = z.
Proof.
  intros Hz. unfold binary64. destruct (Z.leb_spec (Z.abs z) (2 ^ 53)); [done|lia].
Qed.

Lemma Number_add_exact x y :
  - 2 ^ 53 <= x + y <= 2 ^ 53 -> Number_add x y = x + y.
Proof. apply binary64_exact. Qed.

Lemma Number_add_rem w n :
  1 <= n <= 2 ^ 32 -> Number_add 0 (Z.rem w n) = Z.rem w n.
Proof.
  intros Hn. rewrite Number_add_exact; [done|].
  pose proof (Z.rem_bound_abs w n ltac:(lia)). lia.
Qed.

Lemma accepts_spec min range ign w :
  0 <= w -> 0 < range ->
  accepts min range ign w = true <->
  w < 2 ^ 32 - 2 ^ 32 mod range /\
  ignored ign (Number_add min (w mod range)) = false.
Proof.
  intros Hw Hr. unfold accepts.
  rewrite maxSafe_spec, Z.rem_mod_nonneg by lia.
  rewrite negb_true_iff, orb_false_iff, Z.leb_gt. tauto.
Qed.

Lemma maxSafe_above_half range :
  0 < range <= 2 ^ 32 -> 2 ^ 31 < 2 ^ 32 - 2 ^ 32 mod range.
Proof.
  intros [H0 H1].
  pose proof (Z.div_mod (2 ^ 32) range ltac:(lia)) as Hdm.
  pose proof (Z.mod_pos_bound (2 ^ 32) range H0) as Hm.
  assert (1 <= 2 ^ 32 / range) as Hq by (apply Z.div_le_lower_bound; lia).
  nia.
Qed.

Lemma accepts_below_half min range w :
  0 < range <= 2 ^ 32 -> 0 <= w < 2 ^ 31 -> accepts min range None w = true.
Proof.
  intros Hr Hw. apply accepts_spec; [lia|lia|]. split; [|done].
  pose proof (maxSafe_above_half range Hr). lia.
Qed.

Lemma candidate_in_range_upper min max w :
  min < max -> min <= min + w mod (max - min) < max.
Proof.
  intros H. pose proof (Z.mod_pos_bound w (max - min) ltac:(lia)). lia.
Qed.

(** ** Validation of the arguments *)

Lemma excluded_loop_spec vs min max range c :
  c < range ->
  excluded_loop vs min max range c = true <->
  range <= c + Z.of_nat (length (filter (fun v => in_range min max v = true) vs)).
Proof.
  revert c. induction vs as [|v vs IH]; intros c Hc; cbn [excluded_loop].
  - cbn. split; [done|lia].
  - rewrite filter_cons. destruct v as [z|t]; cbn [in_range].
    + destruct ((min <=? z) && (z <? max)) eqn:E.
      * rewrite decide_True by done. cbn [length].
        destruct (Z.leb_spec range (c + 1)) as [H|H].
        -- split; [lia|done].
        -- rewrite IH by lia. lia.
      * rewrite decide_False by done. by apply IH.
    + rewrite decide_False by done. by apply IH.
Qed.

Lemma check_arguments_eq a b c mn mx ig :
  overload a b c = (mn, mx, ig) ->
  check_arguments a b c =
  match mn, mx with
  | Int lo, Int hi =>
      if hi <=? lo then Threw ERR_ORDER
      else if 2 ^ 32 <? hi - lo then Threw ERR_TOO_LARGE
      else match ig with
           | None => Returned (lo, hi - lo, None)
           | Some raw =>
               match normalize_ignore raw with
               | None => Threw ERR_IGNORE_TYPE
               | Some s =>
                   if bool_decide (hi - lo <= excluded_count lo hi s)
                   then Threw ERR_EXHAUSTED
                   else Returned (lo, hi - lo, Some s)
               end
           end
  | _, _ => Threw ERR_INTEGERS
  end.
Proof.
  intros Ho. unfold check_arguments. rewrite Ho.
  destruct mn as [lo|]; [|done]. destruct mx as [hi|]; [|done].
  destruct (Z.leb_spec hi lo); [done|].
  destruct (2 ^ 32 <? hi - lo); [done|].
  destruct ig as [raw|]; [|done].
  destruct (normalize_ignore raw) as [s|]; [|done].
  assert (excluded_loop (elements s) lo hi (hi - lo) 0 =
          bool_decide (hi - lo <= excluded_count lo hi s)) as ->; [|done].
  apply eq_true_iff_eq. rewrite excluded_loop_spec by lia.
  rewrite bool_decide_eq_true. unfold excluded_count. lia.
Qed.

Lemma normalize_exclusion raw s :
  normalize_ignore raw = Some s -> exclusion (Some raw) = s.
Proof. destruct raw; cbn; congruence. Qed.

Lemma normalize_accepted raw :
  ignore_accepted (Some raw) = true <-> is_Some (normalize_ignore raw).
Proof. destruct raw; cbn; split; (done || by intros [? [=]] || eauto). Qed.

(** The validated request of a well-formed call. *)
Lemma check_arguments_valid lo hi ignore :
  lo < hi -> hi - lo <= 2 ^ 32 -> ignore_accepted ignore = true ->
  excluded_count lo hi (exclusion ignore) < hi - lo ->
  exists ign,
    check_arguments (Int lo) (Some (inl (Int hi))) ignore
      = Returned (lo, hi - lo, ign) /\
    forall c, ignored ign c = bool_decide (Int c ∈ exclusion ignore).
Proof.
  intros H1 H2 H3 H4.
  rewrite (check_arguments_eq _ _ _ (Int lo) (Int hi) ignore) by done.
  destruct (Z.leb_spec hi lo); [lia|].
  destruct (Z.ltb_spec (2 ^ 32) (hi - lo)); [lia|].
  destruct ignore as [raw|].
  - apply normalize_accepted in H3 as [s Hs]. rewrite Hs.
    rewrite (normalize_exclusion _ _ Hs) in H4 |- *.
    rewrite bool_decide_eq_false_2 by lia. by exists (Some s).
  - exists None. split; [done|]. intros c. cbn.
    by rewrite bool_decide_eq_false_2 by set_solver.
Qed.

(** ** One-shot and session draws *)

(** A fresh session and a one-shot draw read the same words and so have the
    same outcome. *)
Lemma next_fresh_outcome fuel a b c e :
  fst (next fuel a b c (createSecureRandomGenerator, e)) =
  fst (secureRandomNumber fuel a b c e).
Proof.
  unfold next, secureRandomNumber.
  destruct (check_arguments a b c) as [[[lo range] ign]| |]; [|done|done].
  rewrite next_loop_spec, secureRandomNumber_loop_spec.
  rewrite (first_accepted_ext fuel _ _ (raw e)) by apply upcoming_fresh.
  destruct (first_accepted fuel _ (raw e)) as [k|]; cbn [fst]; [|done].
  by rewrite upcoming_fresh.
Qed.

Lemma accepts_kept lo hi ignore ign w :
  - 2 ^ 53 <= lo -> hi <= 2 ^ 53 ->
  lo < hi -> 0 <= w ->
  (forall c, ignored ign c = bool_decide (Int c ∈ exclusion ignore)) ->
  accepts lo (hi - lo) ign w = true <-> kept lo hi ignore w.
Proof.
  intros Hlo Hhi H Hw Hign. rewrite accepts_spec by lia. unfold kept.
  pose proof (Z.mod_pos_bound w (hi - lo) ltac:(lia)).
  rewrite Number_add_exact by lia.
  by rewrite Hign, bool_decide_eq_false.
Qed.

Lemma first_accepted_kept fuel lo hi ignore ign e k :
  - 2 ^ 53 <= lo -> hi <= 2 ^ 53 ->
  lo < hi ->
  (forall c, ignored ign c = bool_decide (Int c ∈ exclusion ignore)) ->
  first_accepted fuel (accepts lo (hi - lo) ign) (raw e) = Some k <->
  (k < fuel)%nat /\ first_kept lo hi ignore (raw e) k.
Proof.
  intros Hlo Hhi H Hign.
  assert (forall i, accepts lo (hi - lo) ign (raw e i) = true <->
                    kept lo hi ignore (raw e i)) as Hk.
  { intros i. apply accepts_kept; [done|done|done| |done]. apply raw_bounds. }
  split.
  - intros F. apply first_accepted_Some in F as (Hlt & Hacc & Hbefore).
    split; [done|]. split; [by apply Hk|].
    intros j Hj Hkept. apply Hk in Hkept. by rewrite Hbefore in Hkept.
  - intros (Hlt & Hkept & Hbefore). apply first_accepted_intro; [done| |].
    + by apply Hk.
    + intros j Hj. apply not_true_is_false. intros Hacc.
      by apply (Hbefore j Hj), Hk.
Qed.

Lemma one_shot_outcome fuel lo hi ignore e :
  - 2 ^ 53 <= lo -> hi <= 2 ^ 53 ->
  lo < hi -> hi - lo <= 2 ^ 32 -> ignore_accepted ignore = true ->
  excluded_count lo hi (exclusion ignore) < hi - lo ->
  (forall v,
     fst (secureRandomNumber fuel (Int lo) (Some (inl (Int hi))) ignore e)
       = Returned v <->
     exists k, (k < fuel)%nat /\ first_kept lo hi ignore (raw e) k /\
               v = lo + raw e k mod (hi - lo)).
Proof.
  intros Hlo Hhi H1 H2 H3 H4 v.
  destruct (check_arguments_valid lo hi ignore H1 H2 H3 H4) as (ign & Hc & Hign).
  unfold secureRandomNumber. rewrite Hc, secureRandomNumber_loop_spec.
  pose proof (first_accepted_kept fuel lo hi ignore ign e) as Hfa.
  destruct (first_accepted fuel _ (raw e)) as [k|]; cbn [fst].
  - destruct (proj1 (Hfa k Hlo Hhi H1 Hign) eq_refl) as [Hlt Hk].
    rewrite Z.rem_mod_nonneg by (pose proof (raw_bounds e k); lia).
    pose proof (Z.mod_pos_bound (raw e k) (hi - lo) ltac:(lia)).
    rewrite Number_add_exact by lia.
    split.
    + intros [= <-]. by exists k.
    + intros (k' & Hlt' & Hk' & ->).
      assert (Some k = Some k') as [= <-]; [|done].
      by apply (Hfa k' Hlo Hhi H1 Hign).
  - split; [done|]. intros (k' & Hlt' & Hk' & _).
    by pose proof (proj2 (Hfa k' Hlo Hhi H1 Hign) (conj Hlt' Hk')).
Qed.

(** Beyond [2^53] the sum [min + (raw mod range)] is rounded: between
    [2^53 + 2] and [2^53 + 4] an odd word gives the upper bound. *)
Lemma unsafe_candidate w :
  0 <= w ->
  Number_add (2 ^ 53 + 2) (Z.rem w 2)
  = if Z.odd w then 2 ^ 53 + 4 else 2 ^ 53 + 2.
Proof.
  intros Hw. rewrite Z.rem_mod_nonneg by lia.
  rewrite Zmod_odd. by destruct (Z.odd w).
Qed.

(** C1.  For integers [min < max] in the range where Numbers are exact
    ([-2^53 <= min], [max <= 2^53]), with [max - min <= 2^32] and an
    exclusion input with fewer than [max - min] integer members inside
    [[min, max)], any value returned by [secureRandomNumber(min, max,
    ignore)] or by [createSecureRandomGenerator().next(min, max, ignore)]
    lies in [[min, max)], is not excluded, and is [min + (raw mod range)]
    for the first word [raw] of the entropy stream that is below
    [2^32 - (2^32 mod range)] and whose candidate is not excluded; the draw
    returns that value as soon as the loop is allowed to reach that word.
    In particular [draw(0, 1)] returns [0].  Beyond that range the code
    does not keep to it: the bounds are only tested to be integers, the sum
    is rounded, and [draw(2^53 + 2, 2^53 + 4)], a request the validation
    lets through, returns [max] itself whenever the word it reads first is
    odd. *)
Theorem C1_bounded_draw :
  (forall (min max : Z) (ignore : option ignore_value) (e : entropy),
     - 2 ^ 53 <= min -> max <= 2 ^ 53 ->
     min < max -> max - min <= 2 ^ 32 -> ignore_accepted ignore = true ->
     excluded_count min max (exclusion ignore) < max - min ->
     let one_shot fuel :=
       fst (secureRandomNumber fuel (Int min) (Some (inl (Int max))) ignore e) in
     let session fuel :=
       fst (next fuel (Int min) (Some (inl (Int max))) ignore
              (createSecureRandomGenerator, e)) in
     (forall fuel v,
        one_shot fuel = Returned v \/ session fuel = Returned v ->
        min <= v < max /\ (Int v ∉ exclusion ignore) /\
        exists k, (k < fuel)%nat /\ first_kept min max ignore (raw e) k /\
                  v = min + raw e k mod (max - min)) /\
     (forall k, first_kept min max ignore (raw e) k ->
        forall fuel, (k < fuel)%nat ->
          one_shot fuel = Returned (min + raw e k mod (max - min)) /\
          session fuel = Returned (min + raw e k mod (max - min))) /\
     (min = 0 -> max = 1 -> ignore = None ->
        forall fuel, (0 < fuel)%nat ->
          one_shot fuel = Returned 0 /\ session fuel = Returned 0)) /\
  (forall (e : entropy) (fuel : nat),
     let min := 2 ^ 53 + 2 in
     let max := 2 ^ 53 + 4 in
     is_threw (check_arguments (Int min) (Some (inl (Int max))) None) = false /\
     (Z.odd (raw e 0) = true -> (0 < fuel)%nat ->
      fst (secureRandomNumber fuel (Int min) (Some (inl (Int max))) None e)
        = Returned max /\
      fst (next fuel (Int min) (Some (inl (Int max))) None
             (createSecureRandomGenerator, e)) = Returned max)).
Proof.
  split.
  - intros min max ignore e Hlo Hhi H1 H2 H3 H4 one_shot session.
    assert (forall fuel, session fuel = one_shot fuel) as Hsame
      by (intros; apply next_fresh_outcome).
    pose proof (fun fuel =>
                  one_shot_outcome fuel min max ignore e Hlo Hhi H1 H2 H3 H4)
      as Hout.
    assert (forall k, first_kept min max ignore (raw e) k ->
              forall fuel, (k < fuel)%nat ->
                one_shot fuel = Returned (min + raw e k mod (max - min)) /\
                session fuel = Returned (min + raw e k mod (max - min)))
      as Htotal.
    { intros k Hk fuel Hlt. rewrite Hsame.
      split; apply Hout; by exists k. }
    split; [|split; [exact Htotal|]].
    + intros fuel v Hv.
      assert (one_shot fuel = Returned v) as Hv'
        by (destruct Hv as [Hv|Hv]; [done|by rewrite <- Hsame]).
      apply Hout in Hv' as (k & Hlt & Hk & ->).
      split; [apply candidate_in_range_upper; lia|].
      split; [apply Hk|]. by exists k.
    + intros -> -> -> fuel Hfuel.
      assert (0 + raw e 0 mod (1 - 0) = 0) as Hzero
        by (change (1 - 0) with 1; by rewrite Z.mod_1_r).
      assert (first_kept 0 1 None (raw e) 0) as Hk.
      { split; [|intros; lia].
        split; [|cbn; set_solver].
        pose proof (raw_bounds e 0). change (2 ^ 32 mod (1 - 0)) with 0. lia. }
      destruct (Htotal 0%nat Hk fuel Hfuel) as [A B].
      rewrite Hzero in A, B. done.
  - intros e fuel min max. split; [done|].
    intros Hodd Hfuel.
    rewrite next_fresh_outcome.
    enough (fst (secureRandomNumber fuel (Int min) (Some (inl (Int max)))
                   None e) = Returned max) by done.
    destruct fuel as [|fuel]; [lia|].
    unfold secureRandomNumber.
    change (check_arguments (Int min) (Some (inl (Int max))) None)
      with (Returned (min, 2, @None (gset number))).
    cbv iota beta. rewrite secureRandomNumber_loop_S.
    pose proof (raw_bounds e 0) as Hw.
    assert (accepts min 2 None (raw e 0) = true) as ->.
    { unfold accepts. cbn [ignored]. rewrite orb_false_r.
      change (maxSafe_of 2) with (2 ^ 32).
      apply negb_true_iff, Z.leb_gt. lia. }
    cbn [fst]. unfold min. rewrite unsafe_candidate by lia.
    by rewrite Hodd.
Qed.

(** [secureRandomNumber(50, 150, [55, 60, 65])] on the sample source: the
    first word is kept and gives 95. *)
Lemma C1_bounded_draw_witness :
  50 <= 95 < 150 /\
  (Int 95 ∉ exclusion (Some (IsIterable [Int 55; Int 60; Int 65]))) /\
  exists k, (k < 10)%nat /\
    first_kept 50 150 (Some (IsIterable [Int 55; Int 60; Int 65]))
      (raw sample_entropy) k /\
    95 = 50 + raw sample_entropy k mod (150 - 50).
Proof.
  refine (proj1 (proj1 C1_bounded_draw 50 150
                   (Some (IsIterable [Int 55; Int 60; Int 65]))
                   sample_entropy _ _ _ _ _ _) 10%nat 95 _).
  - lia.
  - lia.
  - lia.
  - lia.
  - reflexivity.
  - vm_compute. reflexivity.
  - left. vm_compute. reflexivity.
Defined.

(** ** What buffering changes *)

Arguments advance : simpl never.
Arguments read_word : simpl never.
Arguments createSecureRandomGenerator : simpl never.
Arguments _refillBuffer : simpl never.

Lemma advance_S_back n st : advance (S n) st = snd (read_word (advance n st)).
Proof.
  revert st. induction n as [|n IH]; intros st; [done|].
  change (advance (S (S n)) st) with (advance (S n) (snd (read_word st))).
  by rewrite IH.
Qed.

(** After [n + 1] reads a fresh session has fetched [n / 256 + 1] whole
    blocks, holds the last of them and points behind word [n mod 256]. *)
Lemma advance_fresh_state n e :
  index (fst (advance (S n) (createSecureRandomGenerator, e))) = S (n mod 256) /\
  snd (advance (S n) (createSecureRandomGenerator, e))
    = skip (256 * S (n / 256)) e /\
  buffer (fst (advance (S n) (createSecureRandomGenerator, e)))
    = fst (crypto_getRandomValues BUFFER_SIZE (skip (256 * (n / 256)) e)).
Proof.
  induction n as [|n (IHi & IHe & IHb)].
  - unfold advance, read_word, createSecureRandomGenerator. cbn [fst snd index].
    rewrite Nat.leb_refl, refill_buffer. cbn [fst snd index buffer].
    change (0 `mod` 256)%nat with 0%nat. change (0 / 256)%nat with 0%nat.
    assert (skip (256 * 0) e = e) as ->
      by (unfold skip; destruct e; cbn [stream taken Nat.mul]; f_equal; lia).
    split; [done|]. split; [|done]. unfold skip. f_equal; lia.
  - rewrite advance_S_back.
    destruct (advance (S n) (createSecureRandomGenerator, e)) as [g e'].
    cbn [fst snd] in *. unfold read_word. cbn [fst snd].
    pose proof BUFFER_SIZE_eq as HB.
    pose proof (Nat.div_mod_eq n 256) as Hn.
    pose proof (Nat.mod_upper_bound n 256 ltac:(lia)) as Hn'.
    pose proof (Nat.div_mod_eq (S n) 256) as HSn.
    pose proof (Nat.mod_upper_bound (S n) 256 ltac:(lia)) as HSn'.
    destruct (Nat.leb_spec BUFFER_SIZE (index g)) as [H|H].
    + assert (S n `mod` 256 = 0 /\ S n / 256 = S (n / 256))%nat as [E1 E2] by lia.
      rewrite refill_buffer. cbn [fst snd index buffer]. rewrite E1, E2, IHe.
      split; [done|]. split; [|done].
      rewrite skip_skip. unfold skip. f_equal. lia.
    + assert (S n `mod` 256 = S (n `mod` 256) /\ S n / 256 = n / 256)%nat
        as [E1 E2] by lia.
      cbn [fst snd index buffer]. rewrite E1, E2, IHi, IHe, IHb. done.
Qed.

(** C7.  One-shot and session draws have the same semantics: on the same
    entropy stream [secureRandomNumber(min, max, ignore)] and
    [createSecureRandomGenerator().next(min, max, ignore)] return the same
    value and raise the same errors; in both, [draw(max)] is [draw(0, max)],
    with or without an exclusion argument.  The session differs only in its
    buffering: where the one-shot draw has fetched the [k + 1] words it
    read, the session has fetched [k / 256 + 1] blocks of 256 words, holds
    the last block with its cursor behind word [k mod 256], and will next
    deliver exactly the words the one-shot mode would fetch next. *)
Theorem C7_modes_agree (a : number) (b : option (number + ignore_value))
    (c : option ignore_value) (e : entropy) (fuel : nat) :
  fst (next fuel a b c (createSecureRandomGenerator, e))
    = fst (secureRandomNumber fuel a b c e) /\
  (forall (ignore : option ignore_value) (st : gstate),
     next fuel a (option_map inr ignore) None st
       = next fuel (Int 0) (Some (inl a)) ignore st) /\
  (forall ignore : option ignore_value,
     secureRandomNumber fuel a (option_map inr ignore) None e
       = secureRandomNumber fuel (Int 0) (Some (inl a)) ignore e) /\
  (forall v st', next fuel a b c (createSecureRandomGenerator, e) = (Returned v, st') ->
     exists k : nat,
       snd (secureRandomNumber fuel a b c e) = skip (S k) e /\
       snd st' = skip (256 * S (k / 256)) e /\
       index (fst st') = S (k mod 256) /\
       buffer (fst st')
         = fst (crypto_getRandomValues BUFFER_SIZE (skip (256 * (k / 256)) e)) /\
       forall i, upcoming st' i = raw (skip (S k) e) i).
Proof.
  split; [apply next_fresh_outcome|].
  split; [|split].
  - intros ignore st. unfold next.
    by replace (check_arguments a (option_map inr ignore) None)
      with (check_arguments (Int 0) (Some (inl a)) ignore)
      by (by destruct ignore).
  - intros ignore. unfold secureRandomNumber.
    by replace (check_arguments a (option_map inr ignore) None)
      with (check_arguments (Int 0) (Some (inl a)) ignore)
      by (by destruct ignore).
  - intros v st'. unfold next, secureRandomNumber.
    destruct (check_arguments a b c) as [[[lo range] ign]| |]; [|done|done].
    rewrite next_loop_spec, secureRandomNumber_loop_spec.
    rewrite (first_accepted_ext fuel _ _ (raw e)) by apply upcoming_fresh.
    destruct (first_accepted fuel _ (raw e)) as [k|]; [|done].
    intros [= _ <-]. exists k. cbn [snd].
    destruct (advance_fresh_state k e) as (Hi & He & Hb).
    repeat split; try done.
    intros i. by rewrite advance_upcoming, upcoming_fresh, raw_skip.
Qed.


(** ** The failures of a draw *)

Ltac fc_elim :=
  unfold valid_range in *;
  repeat match goal with
         | H : _ /\ _ |- _ => destruct H
         | H : exists _, _ |- _ => destruct H
         | H : _ \/ _ |- _ => destruct H
         end;
  simplify_eq; try done; try lia; try congruence.

Ltac fc_intro :=
  unfold valid_range;
  first
    [ done
    | by left
    | by (right; left)
    | right; right; eexists _, _; repeat split; (done || lia)
    | eexists _, _; repeat split; (done || lia)
    | split; [eexists _, _; repeat split; (done || lia) | done] ].

Lemma failure_case_due mn mx ig k :
  failure_case mn mx ig k <-> due mn mx ig = Some k.
Proof.
  unfold due, valid_range.
  destruct mn as [lo|t].
  2:{ destruct k; cbn; (split; [intros H; fc_elim | intros H; simplify_eq; fc_intro]). }
  destruct mx as [hi|t].
  2:{ destruct k; cbn; (split; [intros H; fc_elim | intros H; simplify_eq; fc_intro]). }
  destruct (Z.leb_spec hi lo) as [Hord|Hord].
  { destruct k; cbn; (split; [intros H; fc_elim | intros H; simplify_eq; fc_intro]). }
  destruct (Z.ltb_spec (2 ^ 32) (hi - lo)) as [Hbig|Hbig].
  { destruct k; cbn; (split; [intros H; fc_elim | intros H; simplify_eq; fc_intro]). }
  destruct (ignore_accepted ig) eqn:Hacc; cbn [negb].
  2:{ destruct k; cbn; (split; [intros H; fc_elim | intros H; simplify_eq; fc_intro]). }
  case_bool_decide as Hcount.
  - destruct k; cbn; (split; [intros H; fc_elim | intros H; simplify_eq; fc_intro]).
  - destruct k; cbn; (split; [intros H; fc_elim | intros H; simplify_eq; fc_intro]).
Qed.

Lemma reports_functional k k' x : reports k x -> reports k' x -> k = k'.
Proof.
  destruct k, k'; cbn;
    unfold ERR_INTEGERS, ERR_ORDER, ERR_TOO_LARGE, ERR_IGNORE_TYPE,
      ERR_EXHAUSTED;
    intros H H'; try done; destruct_or?; by simplify_eq.
Qed.

Lemma check_arguments_due a b c :
  match check_arguments a b c with
  | Threw x =>
      exists k,
        due (overload a b c).1.1 (overload a b c).1.2 (overload a b c).2
          = Some k /\ reports k x
  | Returned _ =>
      due (overload a b c).1.1 (overload a b c).1.2 (overload a b c).2 = None
  | Spinning => False
  end.
Proof.
  destruct (overload a b c) as [[mn mx] ig] eqn:Ho.
  rewrite (check_arguments_eq a b c mn mx ig Ho). cbn [fst snd]. unfold due.
  destruct mn as [lo|t]; [|exists InvalidRange; split; [done|by left]].
  destruct mx as [hi|t]; [|exists InvalidRange; split; [done|by left]].
  destruct (Z.leb_spec hi lo); [exists InvalidRange; split; [done|by right]|].
  destruct (Z.ltb_spec (2 ^ 32) (hi - lo)); [by exists RangeTooLarge|].
  destruct ig as [raw|].
  - destruct (normalize_ignore raw) as [s|] eqn:Hs.
    + rewrite (proj2 (normalize_accepted raw)) by (by rewrite Hs).
      rewrite (normalize_exclusion _ _ Hs). cbn [negb].
      case_bool_decide; [by exists ExhaustedRange|done].
    + assert (ignore_accepted (Some raw) = false) as ->.
      { apply not_true_is_false. intros Hacc%normalize_accepted.
        rewrite Hs in Hacc. by destruct Hacc. }
      by exists InvalidExclusionType.
  - cbn [ignore_accepted negb exclusion]. unfold excluded_count.
    rewrite elements_empty. cbn [filter list_filter length Z.of_nat].
    by rewrite bool_decide_eq_false_2 by lia.
Qed.

Lemma next_outcome_cases fuel a b c st :
  match check_arguments a b c with
  | Threw x => next fuel a b c st = (Threw x, st)
  | _ => forall x, fst (next fuel a b c st) <> Threw x
  end.
Proof.
  unfold next. destruct (check_arguments a b c) as [[[lo range] ign]| |];
    [|done|done].
  intros x. rewrite next_loop_spec.
  by destruct (first_accepted fuel _ (upcoming st)).
Qed.

Lemma secureRandomNumber_outcome_cases fuel a b c e :
  match check_arguments a b c with
  | Threw x => secureRandomNumber fuel a b c e = (Threw x, e)
  | _ => forall x, fst (secureRandomNumber fuel a b c e) <> Threw x
  end.
Proof.
  unfold secureRandomNumber.
  destruct (check_arguments a b c) as [[[lo range] ign]| |]; [|done|done].
  intros x. rewrite secureRandomNumber_loop_spec.
  by destruct (first_accepted fuel _ (raw e)).
Qed.

(** *** Non-integer members of an exclusion input *)

Lemma first_accepted_ext_acc fuel (acc acc' : Z -> bool) (w : nat -> Z) :
  (forall z, acc z = acc' z) ->
  first_accepted fuel acc w = first_accepted fuel acc' w.
Proof.
  intros Hacc. revert w. induction fuel as [|fuel IH]; intros w; [done|].
  cbn [first_accepted]. by rewrite Hacc, IH.
Qed.

Lemma integers_only_members ig s :
  normalize_ignore ig = Some s ->
  exists s', normalize_ignore (integers_only ig) = Some s' /\
    forall v, v ∈ s' <-> v ∈ s /\ Number_isInteger v = true.
Proof.
  destruct ig as [s0|l| |]; cbn; intros [= <-].
  - eexists. split; [done|]. intros v. rewrite elem_of_filter. tauto.
  - eexists. split; [done|]. intros v.
    rewrite !elem_of_list_to_set, list_elem_of_filter. tauto.
Qed.

Lemma integers_only_rejected ig :
  normalize_ignore ig = None -> normalize_ignore (integers_only ig) = None.
Proof. by destruct ig. Qed.

Lemma excluded_count_members lo hi (s s' : gset number) :
  (forall v, v ∈ s' <-> v ∈ s /\ Number_isInteger v = true) ->
  excluded_count lo hi s' = excluded_count lo hi s.
Proof.
  intros Hmem. unfold excluded_count. f_equal. apply Permutation_length.
  apply NoDup_Permutation; [apply NoDup_filter, NoDup_elements..|].
  intros v. rewrite !list_elem_of_filter, !elem_of_elements, Hmem.
  destruct v; cbn; [tauto|]. split; intros [? ?]; done.
Qed.

Lemma ignored_members (s s' : gset number) c :
  (forall v, v ∈ s' <-> v ∈ s /\ Number_isInteger v = true) ->
  ignored (Some s') c = ignored (Some s) c.
Proof.
  intros Hmem. cbn. apply bool_decide_ext. rewrite Hmem. cbn. tauto.
Qed.

Lemma accepts_members lo range (s s' : gset number) w :
  (forall v, v ∈ s' <-> v ∈ s /\ Number_isInteger v = true) ->
  accepts lo range (Some s') w = accepts lo range (Some s) w.
Proof. intros Hmem. unfold accepts. by rewrite (ignored_members s s' _ Hmem). Qed.

Lemma check_arguments_integers_only mn mx ig :
  match check_arguments mn (Some (inl mx)) (Some ig) with
  | Returned (lo, range, Some s) =>
      exists s',
        check_arguments mn (Some (inl mx)) (Some (integers_only ig))
          = Returned (lo, range, Some s') /\
        forall v, v ∈ s' <-> v ∈ s /\ Number_isInteger v = true
  | Returned (_, _, None) => False
  | Threw x =>
      check_arguments mn (Some (inl mx)) (Some (integers_only ig)) = Threw x
  | Spinning => False
  end.
Proof.
  rewrite !(check_arguments_eq mn (Some (inl mx)) _ mn mx _ eq_refl).
  destruct mn as [lo|]; [|done]. destruct mx as [hi|]; [|done].
  destruct (hi <=? lo); [done|]. destruct (2 ^ 32 <? hi - lo); [done|].
  destruct (normalize_ignore ig) as [s|] eqn:Hs.
  - destruct (integers_only_members ig s Hs) as (s' & -> & Hmem).
    rewrite (excluded_count_members lo hi s s' Hmem).
    case_bool_decide; [done|]. by exists s'.
  - by rewrite integers_only_rejected.
Qed.

Lemma next_integers_only fuel mn mx ig st :
  next fuel mn (Some (inl mx)) (Some (integers_only ig)) st
  = next fuel mn (Some (inl mx)) (Some ig) st.
Proof.
  unfold next. pose proof (check_arguments_integers_only mn mx ig) as H.
  destruct (check_arguments mn (Some (inl mx)) (Some ig))
    as [[[lo range] [s|]]|x|]; try done; [|by rewrite H].
  destruct H as (s' & -> & Hmem).
  rewrite !next_loop_spec.
  rewrite (first_accepted_ext_acc fuel _ (accepts lo range (Some s)))
    by (intros; by apply accepts_members).
  done.
Qed.

Lemma secureRandomNumber_integers_only fuel mn mx ig e :
  secureRandomNumber fuel mn (Some (inl mx)) (Some (integers_only ig)) e
  = secureRandomNumber fuel mn (Some (inl mx)) (Some ig) e.
Proof.
  unfold secureRandomNumber.
  pose proof (check_arguments_integers_only mn mx ig) as H.
  destruct (check_arguments mn (Some (inl mx)) (Some ig))
    as [[[lo range] [s|]]|x|]; try done; [|by rewrite H].
  destruct H as (s' & -> & Hmem).
  rewrite !secureRandomNumber_loop_spec.
  rewrite (first_accepted_ext_acc fuel _ (accepts lo range (Some s)))
    by (intros; by apply accepts_members).
  done.
Qed.

(** C5.  A bounded draw, one-shot or from a session, fails in exactly four
    cases, each read once the cases before it are ruled out: with an
    invalid-range error when [min] or [max] is not an integer or
    [max <= min]; with a range-too-large error when [max - min > 2^32]; with
    an invalid-exclusion-type error when the exclusion argument is a bare
    string or not iterable; with an exhausted-range error when the integer
    members of the exclusion set inside [[min, max)] number at least
    [max - min].  In every other case no error is raised.  A failing call
    leaves the session and the entropy source as they were.  Non-integer
    members of an exclusion input are ignored: a call behaves as it does
    with these members removed. *)
Theorem C5_draw_failures (a : number) (b : option (number + ignore_value))
    (c : option ignore_value) (fuel : nat) (st : gstate) (e : entropy) :
  let min := (overload a b c).1.1 in
  let max := (overload a b c).1.2 in
  let ignore := (overload a b c).2 in
  let session_throws x := fst (next fuel a b c st) = Threw x in
  let one_shot_throws x := fst (secureRandomNumber fuel a b c e) = Threw x in
  (forall x, session_throws x <-> one_shot_throws x) /\
  (forall k, failure_case min max ignore k <->
             exists x, reports k x /\ session_throws x) /\
  ((forall k, ~ failure_case min max ignore k) ->
   forall x, ~ session_throws x /\ ~ one_shot_throws x) /\
  (forall x, session_throws x ->
     (exists k, reports k x) /\
     next fuel a b c st = (Threw x, st) /\
     secureRandomNumber fuel a b c e = (Threw x, e)) /\
  (forall (mn mx : number) (ig : ignore_value),
     next fuel mn (Some (inl mx)) (Some (integers_only ig)) st
       = next fuel mn (Some (inl mx)) (Some ig) st /\
     secureRandomNumber fuel mn (Some (inl mx)) (Some (integers_only ig)) e
       = secureRandomNumber fuel mn (Some (inl mx)) (Some ig) e).
Proof.
  intros min max ignore session_throws one_shot_throws.
  subst min max ignore session_throws one_shot_throws. cbv beta.
  assert (Hint : forall (mn mx : number) (ig : ignore_value),
     next fuel mn (Some (inl mx)) (Some (integers_only ig)) st
       = next fuel mn (Some (inl mx)) (Some ig) st /\
     secureRandomNumber fuel mn (Some (inl mx)) (Some (integers_only ig)) e
       = secureRandomNumber fuel mn (Some (inl mx)) (Some ig) e).
  { intros mn mx ig.
    split; [apply next_integers_only|apply secureRandomNumber_integers_only]. }
  pose proof (check_arguments_due a b c) as Hd.
  pose proof (next_outcome_cases fuel a b c st) as Hn.
  pose proof (secureRandomNumber_outcome_cases fuel a b c e) as Ho.
  destruct (check_arguments a b c) as [r|x0|]; [| |done].
  - split; [|split; [|split; [|split]]]; [| | | |exact Hint].
    + intros x. split; intros H; [by apply Hn in H|by apply Ho in H].
    + intros k. rewrite failure_case_due, Hd. split; [done|].
      intros (x & _ & H). by apply Hn in H.
    + intros _ x. split; intros H; [by apply Hn in H|by apply Ho in H].
    + intros x H. by apply Hn in H.
  - destruct Hd as (k0 & Hdue & Hrep).
    rewrite Hn, Ho. cbn [fst].
    split; [done|]. split; [|split; [|split]]; [| | |exact Hint].
    + intros k. rewrite failure_case_due, Hdue. split.
      * intros [= <-]. by exists x0.
      * intros (x & Hx & [= <-]). f_equal. by apply (reports_functional _ _ x0).
    + intros Hnone. destruct (Hnone k0). by apply failure_case_due.
    + intros x [= <-]. split; [by exists k0|done].
Qed.

(** ** Bitwise operators on 32-bit operands *)

Lemma ToInt32_mod z : ToInt32 z mod 2 ^ 32 = z mod 2 ^ 32.
Proof.
  unfold ToInt32. destruct (2 ^ 31 <=? z mod 2 ^ 32).
  - replace (z mod 2 ^ 32 - 2 ^ 32) with (z mod 2 ^ 32 + -1 * 2 ^ 32) by lia.
    by rewrite Z_mod_plus_full, Z.mod_mod by lia.
  - by rewrite Z.mod_mod by lia.
Qed.

Lemma ToInt32_zero z : ToInt32 z = 0 <-> z mod 2 ^ 32 = 0.
Proof.
  unfold ToInt32. pose proof (Z.mod_pos_bound z (2 ^ 32) ltac:(lia)).
  destruct (Z.leb_spec (2 ^ 31) (z mod 2 ^ 32)); lia.
Qed.

Lemma ToInt32_inj x y : ToInt32 x = ToInt32 y <-> x mod 2 ^ 32 = y mod 2 ^ 32.
Proof.
  split; [intros H; by rewrite <- (ToInt32_mod x), H, ToInt32_mod|].
  intros H. unfold ToInt32. by rewrite H.
Qed.

Lemma ToInt32_small z : 0 <= z < 2 ^ 31 -> ToInt32 z = z.
Proof.
  intros H. unfold ToInt32. rewrite Z.mod_small by lia.
  destruct (Z.leb_spec (2 ^ 31) z); lia.
Qed.

Lemma js_or_zero m x : js_or m x = 0 <-> m mod 2 ^ 32 = 0 /\ x mod 2 ^ 32 = 0.
Proof. unfold js_or. by rewrite Z.lor_eq_0_iff, !ToInt32_zero. Qed.

Lemma js_xor_zero x y : js_xor x y = 0 <-> x mod 2 ^ 32 = y mod 2 ^ 32.
Proof. unfold js_xor. by rewrite Z.lxor_eq_0_iff, ToInt32_inj. Qed.

Lemma lor_mod32 a b :
  Z.lor a b mod 2 ^ 32 = 0 <-> a mod 2 ^ 32 = 0 /\ b mod 2 ^ 32 = 0.
Proof.
  rewrite <- !(Z.land_ones _ 32) by lia.
  by rewrite Z.land_lor_distr_l, Z.lor_eq_0_iff.
Qed.

Lemma land_lxor_distr a b c :
  Z.land (Z.lxor a b) c = Z.lxor (Z.land a c) (Z.land b c).
Proof.
  apply Z.bits_inj'. intros n _.
  rewrite Z.land_spec, !Z.lxor_spec, !Z.land_spec.
  by destruct (Z.testbit a n), (Z.testbit b n), (Z.testbit c n).
Qed.

Lemma lxor_mod32 a b :
  Z.lxor a b mod 2 ^ 32 = 0 <-> a mod 2 ^ 32 = b mod 2 ^ 32.
Proof.
  rewrite <- !(Z.land_ones _ 32) by lia.
  by rewrite land_lxor_distr, Z.lxor_eq_0_iff.
Qed.

Lemma js_or_clean m x : clean (js_or m x).
Proof.
  unfold clean. rewrite js_or_zero. unfold js_or.
  by rewrite lor_mod32, !ToInt32_mod.
Qed.

Lemma js_xor_clean x y : clean (js_xor x y).
Proof.
  unfold clean. rewrite js_xor_zero. unfold js_xor.
  by rewrite lxor_mod32, !ToInt32_mod.
Qed.

Lemma byte_val_bounds b : 0 <= byte_val b < 256.
Proof. unfold byte_val. pose proof (Byte.to_N_bounded b). lia. Qed.

Lemma byte_val_inj b b' : byte_val b = byte_val b' -> b = b'.
Proof.
  unfold byte_val. intros H%N2Z.inj.
  apply (f_equal Byte.of_N) in H. rewrite !Byte.of_to_N in H. congruence.
Qed.

(** ** The comparison loop *)

Lemma compare_loop_iterations entries b m n :
  snd (compare_loop entries b m n) = (n + length entries)%nat.
Proof.
  revert m n. induction entries as [|[i x] rest IH]; intros m n;
    cbn [compare_loop length snd]; [lia|].
  rewrite IH. lia.
Qed.

Lemma compare_loop_fold entries b m n :
  fst (compare_loop entries b m n) =
  fold_left (fun acc ie => js_or acc (js_xor (byte_val ie.2) (read_or_zero b ie.1)))
    entries m.
Proof.
  revert m n. induction entries as [|[i x] rest IH]; intros m n;
    cbn [compare_loop fold_left fst snd]; [done|].
  by rewrite IH.
Qed.

Lemma byte_xor_zero x b i :
  js_xor (byte_val x) (read_or_zero b i) = 0 <-> byte_val x = read_or_zero b i.
Proof.
  rewrite js_xor_zero.
  assert (0 <= read_or_zero b i < 256) as Hb.
  { unfold read_or_zero. destruct (b !! i); [apply byte_val_bounds|lia]. }
  pose proof (byte_val_bounds x).
  by rewrite !Z.mod_small by lia.
Qed.

Lemma compare_loop_zero entries b m n :
  clean m ->
  fst (compare_loop entries b m n) = 0 <->
  m = 0 /\ Forall (fun ie => byte_val ie.2 = read_or_zero b ie.1) entries.
Proof.
  revert m n. induction entries as [|[i x] rest IH]; intros m n Hm;
    cbn [compare_loop fst].
  - split; [by intros ->|by intros [-> _]].
  - fold (read_or_zero b i). rewrite IH by apply js_or_clean.
    rewrite Forall_cons. cbn [fst snd].
    pose proof (js_xor_clean (byte_val x) (read_or_zero b i)) as Hx.
    unfold clean in Hm, Hx.
    rewrite js_or_zero, <- Hm, <- Hx, byte_xor_zero. tauto.
Qed.

(** ** [secureCompare] *)

Section CompareProofs.
Variable encode : string -> list Byte.byte.

Lemma secureCompare_run_eq reference incoming :
  reference_missing reference = false ->
  secureCompare_run encode reference incoming =
  (Returned
     (fst (compare_loop
             (imap (fun i element => (i, element)) (operand_bytes encode reference))
             (operand_bytes encode incoming)
             (match incoming with
              | None => 1
              | Some _ =>
                  js_xor (Z.of_nat (length (operand_bytes encode reference)))
                    (Z.of_nat (length (operand_bytes encode incoming)))
              end) O) =? 0),
   length (operand_bytes encode reference)).
Proof.
  intros H. unfold secureCompare_run. rewrite H.
  destruct reference as [r|]; [|done]. cbn [operand_bytes].
  destruct incoming as [inc|]; cbn [operand_bytes Z.eqb];
    match goal with
    | |- context [compare_loop ?es ?b ?m O] =>
        pose proof (compare_loop_iterations es b m O) as Hit;
        destruct (compare_loop es b m O) as [mm it]
    end; cbn [fst snd] in *; by rewrite Hit, length_imap.
Qed.

(** What [secureCompare] computes: the operands match when [incoming] is
    present, the two lengths agree in their low 32 bits, and every byte of
    the reference equals the byte of [incoming] at its index, a missing
    byte reading as zero. *)
Lemma secureCompare_spec reference incoming :
  reference_missing reference = false ->
  exists r,
    secureCompare encode reference incoming = Returned r /\
    (r = true <->
     is_Some incoming /\
     Z.of_nat (length (operand_bytes encode reference)) mod 2 ^ 32
       = Z.of_nat (length (operand_bytes encode incoming)) mod 2 ^ 32 /\
     forall i x, operand_bytes encode reference !! i = Some x ->
                 byte_val x = read_or_zero (operand_bytes encode incoming) i).
Proof.
  intros H. unfold secureCompare. rewrite secureCompare_run_eq by done.
  cbn [fst]. eexists. split; [done|].
  rewrite Z.eqb_eq, compare_loop_zero.
  2:{ destruct incoming; [apply js_xor_clean|]. unfold clean. by split. }
  rewrite Forall_forall.
  assert ((forall ie, ie ∈ imap (fun i element => (i, element))
                        (operand_bytes encode reference) ->
             byte_val ie.2 = read_or_zero (operand_bytes encode incoming) ie.1)
          <-> (forall i x, operand_bytes encode reference !! i = Some x ->
                 byte_val x = read_or_zero (operand_bytes encode incoming) i))
    as ->.
  { split.
    - intros Hall i x Hx.
      apply (Hall (i, x)), (elem_of_lookup_imap_2 (fun i element => (i, element))).
      done.
    - intros Hall ie [i [x [-> Hx]]]%elem_of_lookup_imap. by apply Hall. }
  destruct incoming as [inc|].
  - rewrite js_xor_zero. split; [intros [? ?]; by eauto|tauto].
  - split; [by intros [? _]|by intros [[? [=]] _]].
Qed.

(** For operands shorter than [2^32] bytes the comparison is exact. *)
Lemma secureCompare_correct reference incoming :
  reference_missing reference = false ->
  Z.of_nat (length (operand_bytes encode reference)) < 2 ^ 32 ->
  Z.of_nat (length (operand_bytes encode incoming)) < 2 ^ 32 ->
  exists r,
    secureCompare encode reference incoming = Returned r /\
    (r = true <->
     is_Some incoming /\
     operand_bytes encode incoming = operand_bytes encode reference).
Proof.
  intros H Ha Hb.
  destruct (secureCompare_spec reference incoming H) as (r & Hr & Hspec).
  exists r. split; [done|]. rewrite Hspec. clear Hr Hspec.
  set (a := operand_bytes encode reference) in *.
  set (b := operand_bytes encode incoming) in *.
  rewrite !Z.mod_small by lia.
  split.
  - intros (Hsome & Hlen & Hbytes). split; [done|].
    apply Nat2Z.inj in Hlen. apply list_eq. intros i.
    destruct (a !! i) as [x|] eqn:Hx.
    + pose proof (Hbytes i x Hx) as Hv. unfold read_or_zero in Hv.
      destruct (b !! i) as [y|] eqn:Hy.
      * apply byte_val_inj in Hv. by subst.
      * apply lookup_lt_Some in Hx. apply lookup_ge_None in Hy. lia.
    + apply lookup_ge_None. apply lookup_ge_None in Hx. lia.
  - intros [Hsome ->]. split; [done|]. split; [done|].
    intros i x Hx. unfold read_or_zero. by rewrite Hx.
Qed.

(** C3.  For a non-empty reference [secureCompare] never throws; it returns
    [false] when [incoming] is absent and [true] when [incoming] is present
    and encodes to the bytes of the reference, a text being recognised in
    its byte encoding; and when both operands are shorter than [2^32] bytes it
    returns [true] exactly when [incoming] is present and encodes to the
    bytes of the reference.  Code defect: the two lengths are compared
    through a 32-bit XOR, so lengths that differ by a multiple of [2^32]
    pass for equal, and a one-byte reference [[0]] matches an [incoming] of
    [2^32 + 1] zero bytes, although the byte sequences differ. *)
Theorem C3_length_compared_modulo_2_32 :
  (forall reference : option operand,
     reference_missing reference = false ->
     secureCompare encode reference None = Returned false) /\
  (forall reference incoming : option operand,
     reference_missing reference = false -> is_Some incoming ->
     operand_bytes encode incoming = operand_bytes encode reference ->
     secureCompare encode reference incoming = Returned true) /\
  (forall s : string,
     reference_missing (Some (Text s)) = false ->
     secureCompare encode (Some (Text s)) (Some (Bytes (encode s)))
       = Returned true) /\
  (forall reference incoming : option operand,
     reference_missing reference = false ->
     Z.of_nat (length (operand_bytes encode reference)) < 2 ^ 32 ->
     Z.of_nat (length (operand_bytes encode incoming)) < 2 ^ 32 ->
     exists r,
       secureCompare encode reference incoming = Returned r /\
       (r = true <->
        is_Some incoming /\
        operand_bytes encode incoming = operand_bytes encode reference)) /\
  secureCompare encode (Some (Bytes [Byte.x00]))
    (Some (Bytes (replicate (Z.to_nat (2 ^ 32 + 1)) Byte.x00)))
    = Returned true /\
  replicate (Z.to_nat (2 ^ 32 + 1)) Byte.x00 <> [Byte.x00].
Proof.
  assert (forall a b : option operand,
            reference_missing a = false -> is_Some b ->
            operand_bytes encode b = operand_bytes encode a ->
            secureCompare encode a b = Returned true) as Hsame.
  { intros a b Ha Hb Hab.
    destruct (secureCompare_spec a b Ha) as (r & -> & Hspec).
    f_equal. apply Hspec. rewrite Hab. split; [done|]. split; [done|].
    intros i x Hx. unfold read_or_zero. by rewrite Hx. }
  split; [|split; [exact Hsame|split; [|split;
    [exact secureCompare_correct|split]]]].
  - intros reference H.
    destruct (secureCompare_spec reference None H) as (r & -> & Hspec).
    f_equal. destruct r; [|done].
    by destruct (proj1 Hspec eq_refl) as [[? [=]] _].
  - intros s H. apply Hsame; [done|by eexists|done].
  - destruct (secureCompare_spec (Some (Bytes [Byte.x00]))
                (Some (Bytes (replicate (Z.to_nat (2 ^ 32 + 1)) Byte.x00)))
                eq_refl) as (r & Hr & Hspec).
    rewrite Hr. f_equal. apply Hspec. clear Hr Hspec r.
    unfold operand_bytes, _toUint8Array.
    split; [by eexists|]. split.
    + rewrite length_replicate, Z2Nat.id by lia. reflexivity.
    + intros [|i] x Hx; [|by destruct i].
      injection Hx as <-. unfold read_or_zero.
      rewrite lookup_replicate_2 by lia. reflexivity.
  - intros H. apply (f_equal length) in H.
    rewrite length_replicate in H. cbn [length] in H. lia.
Qed.

(** C8.  [secureCompare] fails with its precondition error exactly when the
    reference is absent or empty (the empty string or a zero-length byte
    sequence); it fails before the comparison loop has run; and for a
    non-empty reference it returns a boolean whatever [incoming] is. *)
Theorem C8_reference_precondition (reference incoming : option operand) :
  (secureCompare encode reference incoming = Threw ERR_REFERENCE <->
   reference = None \/ reference = Some (Text "") \/
   reference = Some (Bytes [])) /\
  (forall x, secureCompare encode reference incoming = Threw x ->
     x = ERR_REFERENCE /\
     snd (secureCompare_run encode reference incoming) = O) /\
  (reference <> None -> reference <> Some (Text "") ->
   reference <> Some (Bytes []) ->
   forall incoming' : option operand,
     exists r, secureCompare encode reference incoming' = Returned r).
Proof.
  assert (reference_missing reference = true <->
          reference = None \/ reference = Some (Text "") \/
          reference = Some (Bytes [])) as Hmiss.
  { destruct reference as [[[|c s]|[|c b]]|]; cbn;
      (split; [intros ?; try done; auto|intros ?; destruct_or?; by simplify_eq]). }
  destruct (reference_missing reference) eqn:H.
  - assert (forall inc, secureCompare_run encode reference inc
                        = (Threw ERR_REFERENCE, O)) as Hrun
      by (intros inc; unfold secureCompare_run; by rewrite H).
    unfold secureCompare. rewrite !Hrun. cbn [fst snd].
    split; [by rewrite <- Hmiss|]. split; [by intros x [= <-]|].
    intros H1 H2 H3. destruct (proj1 Hmiss eq_refl) as [?|[?|?]]; done.
  - split; [|split].
    + destruct (secureCompare_spec reference incoming H) as (r & -> & _).
      split; [done|]. intros Hr. apply Hmiss in Hr. done.
    + intros x. by destruct (secureCompare_spec reference incoming H) as (r & -> & _).
    + intros _ _ _ incoming'.
      destruct (secureCompare_spec reference incoming' H) as (r & Hr & _).
      by exists r.
Qed.

Lemma compare_loop_steps_spec entries b m n ops :
  compare_loop_steps entries b m ops
  = (fst (compare_loop entries b m n), ops ++ map (fun ie => Iterate ie.1) entries).
Proof.
  revert m n ops. induction entries as [|[i x] rest IH]; intros m n ops;
    cbn [compare_loop_steps compare_loop map fst].
  - by rewrite app_nil_r.
  - rewrite (IH _ (S n)). by rewrite <- app_assoc.
Qed.

Lemma entries_indices (a : list Byte.byte) k :
  map (fun ie : nat * Byte.byte => Iterate ie.1)
    (imap (fun i element => (k + i, element)%nat) a)
  = map Iterate (seq k (length a)).
Proof.
  revert k. induction a as [|x a IH]; intros k; [done|].
  cbn [imap map seq length fst]. rewrite Nat.add_0_r. f_equal.
  rewrite <- IH. f_equal. apply imap_ext. intros i y _. cbn. f_equal. lia.
Qed.

Lemma entries_accumulated (a b : list Byte.byte) m :
  fold_left
    (fun acc ie => js_or acc (js_xor (byte_val ie.2) (read_or_zero b ie.1)))
    (imap (fun i element => (i, element)) a) m
  = accumulated a b m.
Proof.
  unfold accumulated.
  assert (forall (pre l : list Byte.byte) m,
            fold_left
              (fun acc ie =>
                 js_or acc (js_xor (byte_val ie.2) (read_or_zero b ie.1)))
              (imap (fun i element => (length pre + i, element)%nat) l) m
            = fold_left
                (fun acc i =>
                   js_or acc (js_xor (read_or_zero (pre ++ l) i)
                                (read_or_zero b i)))
                (seq (length pre) (length l)) m) as Hgen.
  { intros pre l. revert pre. induction l as [|x l IH]; intros pre m'; [done|].
    cbn [imap fold_left seq length fst snd]. rewrite Nat.add_0_r.
    assert (read_or_zero (pre ++ x :: l) (length pre) = byte_val x) as ->.
    { unfold read_or_zero. by rewrite list_lookup_middle. }
    specialize (IH (pre ++ [x])). rewrite length_app in IH. cbn [length] in IH.
    rewrite <- (app_assoc pre [x] l) in IH. cbn [app] in IH.
    replace (S (length pre)) with (length pre + 1)%nat by lia.
    rewrite <- IH. f_equal. apply imap_ext. intros i y _. cbn. f_equal. lia. }
  apply (Hgen [] a m).
Qed.

Lemma iterations_app ops ops' :
  iterations (ops ++ ops') = iterations ops ++ iterations ops'.
Proof. apply omap_app. Qed.

Lemma iterations_Iterate l : iterations (map Iterate l) = l.
Proof.
  unfold iterations. induction l as [|i l IH]; [done|].
  cbn [map omap list_omap]. by rewrite IH.
Qed.

Lemma iterations_encodings o : iterations (encodings o) = [].
Proof. by destruct o as [[s|b]|]. Qed.

Lemma secureCompare_steps_eq reference incoming :
  reference_missing reference = false ->
  secureCompare_steps encode reference incoming
  = (Returned
       (accumulated (operand_bytes encode reference)
          (operand_bytes encode incoming)
          (seeded incoming (operand_bytes encode reference)
             (operand_bytes encode incoming)) =? 0),
     encodings reference ++ encodings incoming
       ++ map Iterate (seq 0 (length (operand_bytes encode reference)))).
Proof.
  intros H. unfold secureCompare_steps. rewrite H.
  destruct reference as [r|]; [|done]. cbn [operand_bytes].
  assert (_toUint8Array_steps encode r
          = (_toUint8Array encode r, encodings (Some r))) as ->
    by (by destruct r).
  destruct incoming as [inc|]; cbn [operand_bytes seeded Z.eqb].
  - assert (_toUint8Array_steps encode inc
            = (_toUint8Array encode inc, encodings (Some inc))) as ->
      by (by destruct inc).
    rewrite (compare_loop_steps_spec _ _ _ O), compare_loop_fold.
    rewrite entries_accumulated, (entries_indices _ 0).
    by rewrite <- app_assoc.
  - rewrite (compare_loop_steps_spec _ _ _ O), compare_loop_fold.
    rewrite entries_accumulated, (entries_indices _ 0).
    by rewrite <- app_assoc.
Qed.

(** C9 (amended).  The comparison loop of [secureCompare] makes exactly one
    pass per byte of the reference, at the indices [0] to
    [reference.length - 1] in order, whatever the content, the length or
    the presence of [incoming], and it never leaves early: what the call
    returns is decided by the accumulator after all of these passes, each
    of which has ORed into it the XOR of the reference byte with the
    [incoming] byte at its index, a missing byte reading as zero.  So the
    work of the loop is fixed by the length of the reference alone, and so
    is the work of the whole call when [incoming] is absent or a byte
    sequence.  A text operand is encoded in full before the loop: for a
    text [incoming] the call also does that work, which grows with the
    length of the text. *)
Theorem C9_loop_depends_on_reference_only (reference incoming : option operand) :
  reference_missing reference = false ->
  let a := operand_bytes encode reference in
  let b := operand_bytes encode incoming in
  secureCompare_steps encode reference incoming
    = (Returned (accumulated a b (seeded incoming a b) =? 0),
       encodings reference ++ encodings incoming
         ++ map Iterate (seq 0 (length a))) /\
  fst (secureCompare_steps encode reference incoming)
    = secureCompare encode reference incoming /\
  (forall incoming' : option operand,
     iterations (snd (secureCompare_steps encode reference incoming'))
       = seq 0 (length a)) /\
  (forall incoming' : option operand,
     is_text incoming = false -> is_text incoming' = false ->
     snd (secureCompare_steps encode reference incoming')
       = snd (secureCompare_steps encode reference incoming)) /\
  (forall s : string,
     incoming = Some (Text s) ->
     snd (secureCompare_steps encode reference incoming)
       = encodings reference ++ Encode (String.length s)
           :: map Iterate (seq 0 (length a))).
Proof.
  intros H a b. split; [by apply secureCompare_steps_eq|].
  split; [|split; [|split]].
  - rewrite secureCompare_steps_eq by done. unfold secureCompare.
    rewrite secureCompare_run_eq by done. cbn [fst].
    rewrite compare_loop_fold, entries_accumulated.
    by destruct incoming.
  - intros incoming'. rewrite secureCompare_steps_eq by done. cbn [snd].
    rewrite !iterations_app, !iterations_encodings, iterations_Iterate.
    done.
  - intros incoming' Hi Hi'. rewrite !secureCompare_steps_eq by done.
    cbn [snd]. by destruct incoming as [[?|?]|], incoming' as [[?|?]|].
  - intros s ->. by rewrite secureCompare_steps_eq by done.
Qed.

End CompareProofs.

(** ["abc"] against its own bytes: the reference is encoded, then three
    passes through the loop. *)
Lemma C9_loop_depends_on_reference_only_witness :
  secureCompare_steps list_byte_of_string (Some (Text "abc"))
    (Some (Bytes (list_byte_of_string "abc")))
  = (Returned true, [Encode 3; Iterate 0; Iterate 1; Iterate 2]%nat).
Proof.
  refine (eq_trans
            (proj1 (C9_loop_depends_on_reference_only list_byte_of_string
                      (Some (Text "abc"))
                      (Some (Bytes (list_byte_of_string "abc"))) _)) _).
  - reflexivity.
  - vm_compute. reflexivity.
Defined.

(** C9, as claimed, fails for a text [incoming]: the calls
    [secureCompare("a", "b")] and [secureCompare("a", "bb")] differ in
    [incoming] only, and the second has the longer text to encode. *)
Lemma C9_counterexample :
  snd (secureCompare_steps list_byte_of_string (Some (Text "a"))
         (Some (Text "b")))
    = [Encode 1; Encode 1; Iterate 0]%nat /\
  snd (secureCompare_steps list_byte_of_string (Some (Text "a"))
         (Some (Text "bb")))
    = [Encode 1; Encode 2; Iterate 0]%nat /\
  snd (secureCompare_steps list_byte_of_string (Some (Text "a"))
         (Some (Text "b")))
    <> snd (secureCompare_steps list_byte_of_string (Some (Text "a"))
              (Some (Text "bb"))).
Proof. split; [by vm_compute|]. split; by vm_compute. Qed.

(** ** Runs that come to an end *)

Lemma converges_ret {S A} (a : A) (s : S) (Q : A -> S -> Prop) :
  Q a s -> converges (fun _ => (Returned a, s)) Q.
Proof. intros H. exists O, a, s. split; [done|]. intros fuel. by left. Qed.

Lemma converges_bind {S A B} (m : nat -> M S A) (k : nat -> A -> M S B) (s : S)
    (Q : A -> S -> Prop) (R : B -> S -> Prop) :
  converges (fun fuel => m fuel s) Q ->
  (forall a s', Q a s' -> converges (fun fuel => k fuel a s') R) ->
  converges (fun fuel => bind (m fuel) (k fuel) s) R.
Proof.
  intros (f1 & a & s' & HQ & Hm) Hk.
  destruct (Hk a s' HQ) as (f2 & b & s'' & HR & Hk').
  exists (Nat.max f1 f2), b, s''. split; [done|].
  intros fuel. unfold bind.
  destruct (Hm fuel) as [->|[Hlt Hspin]].
  - destruct (Hk' fuel) as [->|[Hlt Hspin]]; [by left|].
    right. split; [lia|done].
  - right. split; [lia|].
    destruct (m fuel s) as [[?| |] ?]; by cbn in *.
Qed.

Lemma converges_weaken {S A} (run : nat -> outcome A * S) (Q R : A -> S -> Prop) :
  converges run Q -> (forall a s, Q a s -> R a s) -> converges run R.
Proof.
  intros (f0 & a & s' & HQ & Hrun) HQR. exists f0, a, s'. split; [by apply HQR|done].
Qed.

Lemma converges_ext {S A} (run run' : nat -> outcome A * S) (Q : A -> S -> Prop) :
  (forall fuel, run fuel = run' fuel) -> converges run Q -> converges run' Q.
Proof.
  intros Heq (f0 & a & s' & HQ & Hrun). exists f0, a, s'. split; [done|].
  intros fuel. by rewrite <- Heq.
Qed.

(** A returned result of a converging run is the one it converges to. *)
Lemma converges_returned {S A} (run : nat -> outcome A * S) (Q : A -> S -> Prop) :
  converges run Q ->
  (exists fuel a s, run fuel = (Returned a, s)) /\
  (forall fuel a s, run fuel = (Returned a, s) -> Q a s) /\
  (forall fuel x, fst (run fuel) <> Threw x).
Proof.
  intros (f0 & a & s' & HQ & Hrun). split; [|split].
  - exists f0, a, s'. destruct (Hrun f0) as [?|[? _]]; [done|lia].
  - intros fuel b s Hb. destruct (Hrun fuel) as [H|[_ H]].
    + rewrite H in Hb. by simplify_eq.
    + by rewrite Hb in H.
  - intros fuel x Hx. destruct (Hrun fuel) as [H|[_ H]]; rewrite H in Hx; done.
Qed.

Lemma converges_transfer {S A S' A'} (run : nat -> outcome A * S)
    (run' : nat -> outcome A' * S') (f : A -> S -> A') (g : A -> S -> S')
    (Q : A -> S -> Prop) (Q' : A' -> S' -> Prop) :
  converges run Q ->
  (forall fuel,
     match run fuel with
     | (Returned a, s) => run' fuel = (Returned (f a s), g a s)
     | (Threw _, _) => True
     | (Spinning, _) => fst (run' fuel) = Spinning
     end) ->
  (forall a s, Q a s -> Q' (f a s) (g a s)) ->
  converges run' Q'.
Proof.
  intros (f0 & a & s & HQ & Hrun) Hrel HQQ'.
  exists f0, (f a s), (g a s). split; [by apply HQQ'|].
  intros fuel. specialize (Hrel fuel).
  destruct (Hrun fuel) as [Hr|[Hlt Hr]].
  - left. by rewrite Hr in Hrel.
  - right. split; [done|]. destruct (run fuel) as [[?| |] ?]; by cbn in *.
Qed.

(** ** Runs that are sound *)

Lemma sound_ret {S A} (a : A) (s : S) (Q : A -> S -> Prop) :
  Q a s -> sound (fun _ => (Returned a, s)) Q.
Proof. intros H fuel. done. Qed.

Lemma sound_bind {S A B} (m : nat -> M S A) (k : nat -> A -> M S B) (s : S)
    (Q : A -> S -> Prop) (R : B -> S -> Prop) :
  sound (fun fuel => m fuel s) Q ->
  (forall a s', Q a s' -> sound (fun fuel => k fuel a s') R) ->
  sound (fun fuel => bind (m fuel) (k fuel) s) R.
Proof.
  intros Hm Hk fuel. specialize (Hm fuel). unfold bind.
  destruct (m fuel s) as [[a| |] s']; [|done|done].
  apply (Hk a s' Hm fuel).
Qed.

Lemma sound_weaken {S A} (run : nat -> outcome A * S) (Q R : A -> S -> Prop) :
  sound run Q -> (forall a s, Q a s -> R a s) -> sound run R.
Proof.
  intros Hrun HQR fuel. specialize (Hrun fuel).
  destruct (run fuel) as [[a| |] s]; [by apply HQR|done|done].
Qed.

Lemma sound_transfer {S A S' A'} (run : nat -> outcome A * S)
    (run' : nat -> outcome A' * S') (f : A -> S -> A') (g : A -> S -> S')
    (Q : A -> S -> Prop) (Q' : A' -> S' -> Prop) :
  sound run Q ->
  (forall fuel,
     match run fuel with
     | (Returned a, s) => run' fuel = (Returned (f a s), g a s)
     | (Threw _, _) => True
     | (Spinning, _) => fst (run' fuel) = Spinning
     end) ->
  (forall a s, Q a s -> Q' (f a s) (g a s)) ->
  sound run' Q'.
Proof.
  intros Hrun Hrel HQQ' fuel. specialize (Hrun fuel). specialize (Hrel fuel).
  destruct (run fuel) as [[a| |] s]; [|done|].
  - rewrite Hrel. by apply HQQ'.
  - destruct (run' fuel) as [[?| |] ?]; by cbn in *.
Qed.

(** ** Draws from a steady session *)

Lemma fair_shift (w w' : nat -> Z) n :
  (forall i, w' i = w (n + i)%nat) -> fair w -> fair w'.
Proof.
  intros Hw Hf m. destruct (Hf (n + m)%nat) as (k & Hk & Hv).
  exists (k - n)%nat. split; [lia|]. rewrite Hw.
  by replace (n + (k - n))%nat with k by lia.
Qed.

Lemma steady_advance n st : steady st -> steady (advance n st).
Proof.
  intros [Hok Hf]. split; [by apply advance_ok|].
  apply (fair_shift (upcoming st) _ n); [apply advance_upcoming|done].
Qed.

Lemma steady_session g e : session_ok g -> fair_entropy e -> steady (g, e).
Proof.
  intros Hok Hf. split; [done|]. intros n.
  destruct (Hf (n + taken e + BUFFER_SIZE)%nat) as (k & Hk & Hv).
  exists (k - taken e + (BUFFER_SIZE - index g))%nat. split; [lia|].
  unfold upcoming. cbn [fst snd].
  destruct (Nat.ltb_spec (k - taken e + (BUFFER_SIZE - index g))
              (BUFFER_SIZE - index g)) as [H|H]; [lia|].
  unfold raw in Hv. cbn [stream taken] in Hv.
  replace (taken e + (k - taken e + (BUFFER_SIZE - index g)
                      - (BUFFER_SIZE - index g)))%nat with k by lia.
  by rewrite Nat.add_0_l in Hv.
Qed.

(** The one-argument draw [next(n)] of a session in good order. *)
Lemma next_single_spec fuel n st :
  1 <= n <= 2 ^ 32 ->
  next fuel (Int n) None None st =
  match first_accepted fuel (accepts 0 n None) (upcoming st) with
  | Some k => (Returned (Z.rem (upcoming st k) n), advance (S k) st)
  | None => (Spinning, advance fuel st)
  end.
Proof.
  intros Hn. unfold next.
  rewrite (check_arguments_eq _ _ _ (Int 0) (Int n) None) by done.
  destruct (Z.leb_spec n 0); [lia|].
  rewrite Z.sub_0_r. destruct (Z.ltb_spec (2 ^ 32) n); [lia|].
  rewrite next_loop_spec.
  destruct (first_accepted fuel _ (upcoming st)); [|done].
  by rewrite Number_add_rem.
Qed.

Lemma next_single_converges n st :
  1 <= n <= 2 ^ 32 -> steady st ->
  converges (fun fuel => next fuel (Int n) None None st)
    (fun j st' => 0 <= j < n /\ steady st').
Proof.
  intros Hn [Hok Hfair].
  destruct (Hfair O) as (k0 & _ & Hk0).
  destruct (first_accepted (S k0) (accepts 0 n None) (upcoming st)) as [k|] eqn:F.
  2:{ pose proof (first_accepted_None _ _ _ F k0 ltac:(lia)) as Hno.
      rewrite accepts_below_half in Hno by lia. done. }
  apply first_accepted_Some in F as (Hlt & Hacc & Hbefore).
  exists (S k), (Z.rem (upcoming st k) n), (advance (S k) st). split.
  - split; [|by apply steady_advance].
    pose proof (upcoming_bounds st k Hok).
    rewrite Z.rem_mod_nonneg by lia. apply Z.mod_pos_bound. lia.
  - intros fuel. rewrite next_single_spec by done.
    destruct (Nat.lt_ge_cases k fuel) as [H|H].
    + left. by rewrite (first_accepted_intro fuel _ _ k).
    + right. split; [lia|].
      destruct (first_accepted fuel _ (upcoming st)) as [k'|] eqn:F'; [|done].
      apply first_accepted_Some in F' as (Hlt' & Hacc' & _).
      rewrite Hbefore in Hacc' by lia. done.
Qed.

Lemma next_single_sound n st :
  1 <= n <= 2 ^ 32 -> session_ok (fst st) ->
  sound (fun fuel => next fuel (Int n) None None st)
    (fun j st' => 0 <= j < n /\ session_ok (fst st')).
Proof.
  intros Hn Hok fuel. rewrite next_single_spec by done.
  destruct (first_accepted fuel _ (upcoming st)) as [k|]; [|done].
  split; [|by apply advance_ok].
  pose proof (upcoming_bounds st k Hok).
  rewrite Z.rem_mod_nonneg by lia. apply Z.mod_pos_bound. lia.
Qed.

(** ** Fisher–Yates *)

Arguments next : simpl never.
Arguments upcoming : simpl never.

Section ShuffleBasics.
Context {T : Type}.
Variable undefined : T.

Lemma insert_perm_cons (l : list T) j x y :
  l !! j = Some y -> y :: <[j := x]> l ≡ₚ x :: l.
Proof.
  revert j. induction l as [|z l IH]; intros [|j] Hj; try done.
  - injection Hj as ->. cbn. apply perm_swap.
  - cbn in Hj. cbn [insert list_insert].
    rewrite (perm_swap z y), (IH j Hj). apply perm_swap.
Qed.

Lemma exchange_perm (l : list T) i j : exchange l i j ≡ₚ l.
Proof.
  unfold exchange.
  destruct (l !! i) as [x|] eqn:Hi; [|done].
  destruct (l !! j) as [y|] eqn:Hj; [|done].
  revert i j Hi Hj. induction l as [|z l IH]; intros [|i] [|j] Hi Hj; try done.
  - by simplify_eq/=.
  - cbn in Hi, Hj. injection Hi as ->. cbn [insert list_insert].
    by apply insert_perm_cons.
  - cbn in Hi, Hj. injection Hj as ->. cbn [insert list_insert].
    symmetry. rewrite <- (insert_perm_cons l i y x Hi). done.
  - cbn in Hi, Hj. cbn [insert list_insert]. f_equiv. by apply IH.
Qed.

Lemma exchange_length (l : list T) i j : length (exchange l i j) = length l.
Proof. apply Permutation_length, exchange_perm. Qed.

(** Inside the array the two writes of the swap are an exchange. *)
Lemma swap_exchange (l : list T) i j :
  (i < length l)%nat -> (j < length l)%nat ->
  array_set undefined
    (array_set undefined l i (array_get undefined l j)) j
    (array_get undefined l i)
  = exchange l i j.
Proof.
  intros Hi Hj. unfold array_set, array_get, exchange.
  destruct (lookup_lt_is_Some_2 l i Hi) as [x Hx].
  destruct (lookup_lt_is_Some_2 l j Hj) as [y Hy].
  rewrite Hx, Hy. cbn [default from_option id].
  destruct (Nat.ltb_spec i (length l)); [|lia].
  rewrite length_insert. destruct (Nat.ltb_spec j (length l)); [|lia].
  done.
Qed.

Lemma contents_lookup (h : gmap ref (list T)) array l :
  h !! array = Some l -> contents h array = l.
Proof. intros H. unfold contents. by rewrite H. Qed.

Lemma next_two_arguments fuel (n : number) :
  next fuel (Int 0) (Some (inl n)) None = next fuel n None None.
Proof. reflexivity. Qed.

(** The in-place loop computes the Fisher–Yates shuffle of the array's
    contents and stores it back. *)
Lemma secureShuffle_loop_refines fuel i array (h : store T) (l : list T) st :
  h !! array = Some l -> (i <= Nat.pred (length l))%nat ->
  Z.of_nat (length l) <= 2 ^ 32 -> session_ok (fst st) ->
  fst (secureShuffle_loop undefined fuel i array (h, st)) =
    match fst (fisher_yates fuel i l st) with
    | Returned _ => Returned tt
    | Threw x => Threw x
    | Spinning => Spinning
    end /\
  snd (snd (secureShuffle_loop undefined fuel i array (h, st)))
    = snd (fisher_yates fuel i l st) /\
  forall l', fst (fisher_yates fuel i l st) = Returned l' ->
    fst (snd (secureShuffle_loop undefined fuel i array (h, st)))
      = <[array := l']> h.
Proof.
  revert h l st. induction i as [|i IH]; intros h l st Hl Hi Hlen Hok.
  - cbn. split; [done|]. split; [done|]. intros l' [= <-]. by rewrite insert_id.
  - cbn [secureShuffle_loop fisher_yates fst snd]. unfold bind.
    rewrite next_two_arguments, next_single_spec by lia.
    destruct (first_accepted fuel _ (upcoming st)) as [k|] eqn:F; [|done].
    pose proof (upcoming_bounds st k Hok) as Hb.
    assert (0 <= Z.rem (upcoming st k) (Z.of_nat (S i) + 1) < Z.of_nat (S i) + 1)
      as Hj by (rewrite Z.rem_mod_nonneg by lia; apply Z.mod_pos_bound; lia).
    set (j := Z.rem (upcoming st k) (Z.of_nat (S i) + 1)) in *.
    rewrite (contents_lookup h array l Hl), swap_exchange by lia.
    destruct (IH (<[array := exchange l (S i) (Z.to_nat j)]> h)
                (exchange l (S i) (Z.to_nat j)) (advance (S k) st))
      as (IH1 & IH2 & IH3);
      [by rewrite lookup_insert_eq|rewrite exchange_length; lia
      |by rewrite exchange_length|by apply advance_ok|].
    split; [done|]. split; [done|].
    intros l' Hl'. etrans; [by apply IH3|apply insert_insert_eq].
Qed.

Lemma secureShuffle_refines array (l : list T) generator (h : store T) e fuel :
  h !! array = Some l ->
  Z.of_nat (length l) <= 2 ^ 32 ->
  session_ok (default createSecureRandomGenerator generator) ->
  fst (secureShuffle undefined fuel array generator h e) =
    match fst (fisher_yates fuel (Nat.pred (length l)) l
                 (default createSecureRandomGenerator generator, e)) with
    | Returned _ => Returned array
    | Threw x => Threw x
    | Spinning => Spinning
    end /\
  snd (snd (secureShuffle undefined fuel array generator h e))
    = snd (fisher_yates fuel (Nat.pred (length l)) l
             (default createSecureRandomGenerator generator, e)) /\
  forall l', fst (fisher_yates fuel (Nat.pred (length l)) l
                    (default createSecureRandomGenerator generator, e))
               = Returned l' ->
    fst (snd (secureShuffle undefined fuel array generator h e))
      = <[array := l']> h.
Proof.
  intros Hl Hlen Hok. unfold secureShuffle.
  set (gen := default createSecureRandomGenerator generator) in *.
  rewrite (contents_lookup h array l Hl).
  destruct (secureShuffle_loop_refines fuel (Nat.pred (length l)) array h l
              (gen, e) Hl ltac:(lia) Hlen Hok) as (H1 & H2 & H3).
  destruct (secureShuffle_loop undefined fuel _ array (h, (gen, e)))
    as [[[]| |] s]; cbn [fst snd] in *;
    destruct (fisher_yates fuel _ l (gen, e)) as [[?| |] ?];
    cbn [fst snd] in *; try done; simplify_eq;
    (split; [done|]; split; [done|]; first [done | by intros ? [=] | auto]).
Qed.

End ShuffleBasics.

(** ** String generation: the data *)

Arguments include_class : simpl never.
Arguments fill_random : simpl nomatch.

Lemma enabled_used_nonempty set def :
  def <> [] -> _shouldIncludeSet set = true -> used_alphabet set def <> [].
Proof.
  intros Hdef. destruct set as [b|s]; cbn; [done|].
  destruct s; [done|]. done.
Qed.

Lemma class_alphabet_nonempty set def :
  def <> [] -> Forall (fun cls => cls <> []) (class_alphabet set def).
Proof.
  intros Hdef. unfold class_alphabet.
  destruct (_shouldIncludeSet set) eqn:E; [|done].
  apply Forall_singleton. by apply enabled_used_nonempty.
Qed.

Lemma drawn_from_lookup (cls : list ascii) j :
  0 <= j < Z.of_nat (length cls) -> drawn_from cls (cls !! Z.to_nat j).
Proof.
  intros Hj.
  destruct (lookup_lt_is_Some_2 cls (Z.to_nat j) ltac:(lia)) as [c Hc].
  exists c. split; [done|]. by apply list_elem_of_lookup_2 in Hc.
Qed.

Lemma drawn_from_concat (classes : list (list ascii)) gs :
  Forall2 drawn_from classes gs ->
  Forall (drawn_from (concat classes)) gs /\
  Forall (fun cls => exists c, c ∈ cls /\ Some c ∈ gs) classes.
Proof.
  induction 1 as [|cls g classes gs (c & -> & Hc) _ [IH1 IH2]]; [by split|].
  split.
  - apply Forall_cons. split.
    + exists c. split; [done|]. cbn [concat]. apply elem_of_app. by left.
    + eapply Forall_impl; [exact IH1|].
      intros g (c' & -> & Hc'). exists c'. split; [done|].
      cbn [concat]. apply elem_of_app. by right.
  - apply Forall_cons. split.
    + exists c. split; [done|]. apply list_elem_of_here.
    + eapply Forall_impl; [exact IH2|].
      intros cls' (c' & Hc' & Hin). exists c'. split; [done|].
      by apply list_elem_of_further.
Qed.

Lemma all_defined (cs : list ascii) (arr : list (option ascii)) :
  Forall (drawn_from cs) arr ->
  exists body, arr = Some <$> body /\ Forall (fun c => c ∈ cs) body.
Proof.
  induction 1 as [|g arr (c & -> & Hc) _ (body & -> & Hbody)].
  - by exists [].
  - exists (c :: body). split; [done|]. by apply Forall_cons.
Qed.

Lemma Array_join_defined (body : list ascii) : Array_join (Some <$> body) = body.
Proof.
  unfold Array_join. induction body as [|c body IH]; [done|].
  cbn. by f_equal.
Qed.

Lemma Array_slice0_take {A} (arr : list A) (n : Z) :
  0 <= n -> Array_slice0 arr n = take (Z.to_nat n) arr.
Proof. intros H. unfold Array_slice0. by destruct (Z.ltb_spec n 0); [lia|]. Qed.

(** What the generated array turns into: the first [L] characters of a
    permutation of the guaranteed and the filler characters. *)
Lemma assemble_output (classes : list (list ascii)) gs extra final (L : Z) :
  1 <= L ->
  Forall2 drawn_from classes gs ->
  Forall (drawn_from (concat classes)) extra ->
  length extra = Z.to_nat (L - Z.of_nat (length gs)) ->
  final ≡ₚ gs ++ extra ->
  exists body,
    Array_join (Array_slice0 final L) = body /\
    Z.of_nat (length body) = L /\
    Forall (fun c => c ∈ concat classes) body /\
    (Z.of_nat (length classes) <= L ->
     Forall (fun cls => exists c, c ∈ cls /\ c ∈ body) classes).
Proof.
  intros HL Hgs Hextra Hlen Hperm.
  destruct (drawn_from_concat classes gs Hgs) as [Hall Hcls].
  assert (Forall (drawn_from (concat classes)) final) as Hfinal.
  { rewrite Hperm. apply Forall_app. by split. }
  destruct (all_defined _ _ Hfinal) as (full & -> & Hfull).
  pose proof (Permutation_length Hperm) as Hlenp.
  rewrite length_fmap, length_app, Hlen in Hlenp.
  pose proof (Forall2_length _ _ _ Hgs) as Hk.
  rewrite Array_slice0_take by lia.
  rewrite <- fmap_take, Array_join_defined.
  exists (take (Z.to_nat L) full). split; [done|].
  split; [rewrite length_take; lia|].
  split; [by apply Forall_take|].
  intros Hroom. rewrite take_ge by lia.
  eapply Forall_impl; [exact Hcls|].
  intros cls (c & Hc & Hin). exists c. split; [done|].
  assert (Some c ∈ Some <$> full) as Hin'
    by (rewrite Hperm; apply elem_of_app; by left).
  apply list_elem_of_fmap in Hin' as (c' & [= ->] & Hin'). done.
Qed.

Lemma defaults_nonempty :
  DEFAULT_UPPERCASE <> [] /\ DEFAULT_LOWERCASE <> [] /\
  DEFAULT_NUMBERS <> [] /\ DEFAULT_SPECIALS <> [].
Proof. by repeat split. Qed.

Lemma enabled_alphabets_nonempty up lo nu sp :
  Forall (fun cls => cls <> []) (enabled_alphabets up lo nu sp).
Proof.
  destruct defaults_nonempty as (H1 & H2 & H3 & H4).
  unfold enabled_alphabets. rewrite !Forall_app.
  repeat split; by apply class_alphabet_nonempty.
Qed.

Lemma digits36_nonempty fuel n : digits36 fuel n <> [].
Proof.
  destruct fuel; cbn [digits36]; [done|].
  destruct (n <? 36); [done|]. by destruct (digits36 fuel (n / 36)).
Qed.

Lemma timestamp_string_nonempty clock t : timestamp_string clock (Some t) <> [].
Proof.
  unfold timestamp_string, Number_toString36.
  destruct (Date_getTime _) as [n|]; [|done].
  destruct (n <? 0); [done|]. apply digits36_nonempty.
Qed.

Lemma secureGenerate_unfold fuel clock numOrOptions e length up lo nu sp ts :
  resolve_options numOrOptions = (length, up, lo, nu, sp, ts) ->
  secureGenerate fuel clock numOrOptions e =
  if length <? 1 then (Threw ERR_LENGTH, e)
  else if negb (bool_decide (timestamp_string clock ts = []))
          && (length <=? Z.of_nat (List.length (timestamp_string clock ts)))
  then (Threw (ERR_TIMESTAMP (List.length (timestamp_string clock ts))), e)
  else
    (fst (generate_body fuel length (timestamp_string clock ts) up lo nu sp
            (createSecureRandomGenerator, e)),
     snd (snd (generate_body fuel length (timestamp_string clock ts) up lo nu sp
                 (createSecureRandomGenerator, e)))).
Proof.
  intros H. unfold secureGenerate. rewrite H.
  destruct (length <? 1); [done|].
  destruct (negb _ && _); [done|].
  by destruct (generate_body _ _ _ _ _ _ _ _) as [r [g e']].
Qed.

(** ** Shuffle and generation under a program logic

    The composite runs are handled once, for any judgement [holds] on runs
    that is closed under return, sequencing, weakening and transfer along
    a refinement and that covers a draw from a session satisfying [inv];
    [sound] and [converges] are the two instances. *)

Section Logic.
Variable inv : gstate -> Prop.
Variable holds :
  forall S A : Type, (nat -> outcome A * S) -> (A -> S -> Prop) -> Prop.
Arguments holds {S A} _ _.

Hypothesis inv_ok : forall st, inv st -> session_ok (fst st).

Hypothesis holds_ret :
  forall S A (a : A) (s : S) (Q : A -> S -> Prop),
    Q a s -> holds (fun _ => (Returned a, s)) Q.

Hypothesis holds_bind :
  forall S A B (m : nat -> M S A) (k : nat -> A -> M S B) (s : S)
         (Q : A -> S -> Prop) (R : B -> S -> Prop),
    holds (fun fuel => m fuel s) Q ->
    (forall a s', Q a s' -> holds (fun fuel => k fuel a s') R) ->
    holds (fun fuel => bind (m fuel) (k fuel) s) R.

Hypothesis holds_weaken :
  forall S A (run : nat -> outcome A * S) (Q R : A -> S -> Prop),
    holds run Q -> (forall a s, Q a s -> R a s) -> holds run R.

Hypothesis holds_transfer :
  forall S A S' A' (run : nat -> outcome A * S)
         (run' : nat -> outcome A' * S') (f : A -> S -> A')
         (g : A -> S -> S') (Q : A -> S -> Prop) (Q' : A' -> S' -> Prop),
    holds run Q ->
    (forall fuel,
       match run fuel with
       | (Returned a, s) => run' fuel = (Returned (f a s), g a s)
       | (Threw _, _) => True
       | (Spinning, _) => fst (run' fuel) = Spinning
       end) ->
    (forall a s, Q a s -> Q' (f a s) (g a s)) ->
    holds run' Q'.

Hypothesis holds_next :
  forall n st,
    1 <= n <= 2 ^ 32 -> inv st ->
    holds (fun fuel => next fuel (Int n) None None st)
      (fun j st' => 0 <= j < n /\ inv st').

Lemma fisher_yates_holds {T} i (l : list T) st :
  Z.of_nat i + 1 <= 2 ^ 32 -> inv st ->
  holds (fun fuel => fisher_yates fuel i l st)
    (fun l' st' => l' ≡ₚ l /\ inv st').
Proof.
  revert l st. induction i as [|i IH]; intros l st Hi Hst.
  - by apply holds_ret.
  - cbn [fisher_yates].
    apply (holds_bind _ _ _
             (fun fuel => next fuel (Int (Z.of_nat (S i) + 1)) None None)
             (fun fuel j => fisher_yates fuel i (exchange l (S i) (Z.to_nat j)))
             st (fun j st' => 0 <= j < Z.of_nat (S i) + 1 /\ inv st')).
    + apply holds_next; [lia|done].
    + intros j st' [Hj Hst'].
      apply (holds_weaken _ _ _
               (fun l' st'' => l' ≡ₚ exchange l (S i) (Z.to_nat j) /\ inv st'')).
      * apply IH; [lia|done].
      * intros l' st'' [Hp ?]. split; [|done]. by rewrite Hp, exchange_perm.
Qed.

Lemma secureShuffle_holds {T} (undefined : T) array (l : list T) generator
    (h : store T) e :
  h !! array = Some l ->
  Z.of_nat (length l) <= 2 ^ 32 ->
  inv (default createSecureRandomGenerator generator, e) ->
  holds (fun fuel => secureShuffle undefined fuel array generator h e)
    (fun r s =>
       r = array /\ (exists l', fst s = <[array := l']> h /\ l' ≡ₚ l) /\
       inv (snd s)).
Proof.
  intros Hl Hlen Hst.
  set (gen := default createSecureRandomGenerator generator) in *.
  apply (holds_transfer _ _ _ _
           (fun fuel => fisher_yates fuel (Nat.pred (length l)) l (gen, e))
           _ (fun _ _ => array) (fun l' st' => (<[array := l']> h, st'))
           (fun l' st' => l' ≡ₚ l /\ inv st')).
  - apply fisher_yates_holds; [lia|done].
  - intros fuel.
    destruct (secureShuffle_refines undefined array l generator h e fuel
                Hl Hlen (inv_ok _ Hst)) as (H1 & H2 & H3).
    fold gen in H1, H2, H3.
    destruct (fisher_yates fuel _ l (gen, e)) as [[l'| |] st'];
      cbn [fst snd] in *; [|done|done].
    specialize (H3 l' eq_refl).
    destruct (secureShuffle undefined fuel array generator h e) as [o [h' s]].
    cbn [fst snd] in *. by subst.
  - intros l' st' [Hperm Hst']. cbn [fst snd]. by eauto.
Qed.

Lemma shuffle_fresh_holds arr st :
  Z.of_nat (length arr) <= 2 ^ 32 -> inv st ->
  holds (fun fuel => shuffle_fresh fuel arr st)
    (fun r st' => r ≡ₚ arr /\ inv st').
Proof.
  intros Hlen Hst. destruct st as [g e].
  apply (holds_transfer _ _ _ _
           (fun fuel => secureShuffle None fuel 0%nat (Some g)
                          {[ 0%nat := arr ]} e)
           _ (fun a s => contents (fst s) a) (fun _ s => snd s)
           (fun r s =>
              r = 0%nat /\
              (exists l', fst s = <[0%nat := l']> {[ 0%nat := arr ]} /\ l' ≡ₚ arr)
              /\ inv (snd s))).
  - apply (secureShuffle_holds None); [by rewrite lookup_singleton_eq|done|done].
  - intros fuel. unfold shuffle_fresh. cbn [fst snd].
    by destruct (secureShuffle None fuel 0%nat (Some g) {[ 0%nat := arr ]} e)
      as [[?| |] [? ?]].
  - intros r [h' st'] (-> & (l' & Hh & Hperm) & Hst'). cbn [fst snd] in *.
    split; [|done]. subst h'. unfold contents. by rewrite lookup_insert_eq.
Qed.

Lemma characterSetBuilder_holds set def st :
  used_alphabet set def <> [] ->
  Z.of_nat (length (used_alphabet set def)) <= 2 ^ 32 -> inv st ->
  holds (fun fuel => _characterSetBuilder fuel set def st)
    (fun r st' =>
       fst r = used_alphabet set def /\
       drawn_from (used_alphabet set def) (snd r) /\ inv st').
Proof.
  intros Hne Hlen Hst. unfold _characterSetBuilder.
  apply (holds_bind _ _ _
           (fun fuel => next fuel
                          (Int (Z.of_nat (length (used_alphabet set def))))
                          None None)
           (fun _ j => ret (used_alphabet set def,
                            used_alphabet set def !! Z.to_nat j))
           st
           (fun j st' => 0 <= j < Z.of_nat (length (used_alphabet set def))
                         /\ inv st')).
  - apply holds_next; [|done].
    destruct (used_alphabet set def); [done|]. cbn [length] in *. lia.
  - intros j st' [Hj Hst']. apply holds_ret. cbn [fst snd].
    split; [done|]. split; [|done]. by apply drawn_from_lookup.
Qed.

Lemma include_class_holds set def acc st :
  def <> [] ->
  Z.of_nat (length (concat (class_alphabet set def))) <= 2 ^ 32 -> inv st ->
  holds (fun fuel => include_class fuel set def acc st)
    (fun acc' st' =>
       fst acc' = fst acc ++ concat (class_alphabet set def) /\
       (exists gs, snd acc' = snd acc ++ gs /\
                   Forall2 drawn_from (class_alphabet set def) gs) /\
       inv st').
Proof.
  intros Hdef Hlen Hst. unfold include_class, class_alphabet in *.
  destruct (_shouldIncludeSet set) eqn:E.
  - cbn [concat] in Hlen. rewrite app_nil_r in Hlen.
    apply (holds_bind _ _ _
             (fun fuel => _characterSetBuilder fuel set def)
             (fun _ r => ret (fst acc ++ fst r, snd acc ++ [snd r]))
             st
             (fun r st' =>
                fst r = used_alphabet set def /\
                drawn_from (used_alphabet set def) (snd r) /\ inv st')).
    + apply characterSetBuilder_holds; [|done|done].
      by apply enabled_used_nonempty.
    + intros r st' (Hr & Hd & Hst'). apply holds_ret. cbn [fst snd concat].
      rewrite app_nil_r, Hr. split; [done|]. split; [|done].
      exists [snd r]. split; [done|]. by apply Forall2_cons.
  - apply holds_ret. cbn [concat]. rewrite app_nil_r.
    split; [done|]. split; [|done]. exists []. by rewrite app_nil_r.
Qed.

Lemma fill_random_holds n charset randomChars st :
  charset <> [] -> Z.of_nat (length charset) <= 2 ^ 32 -> inv st ->
  holds (fun fuel => fill_random fuel n charset randomChars st)
    (fun r st' =>
       (exists extra, r = randomChars ++ extra /\ length extra = n /\
                      Forall (drawn_from charset) extra) /\
       inv st').
Proof.
  intros Hne Hlen. revert randomChars st.
  induction n as [|n IH]; intros randomChars st Hst.
  - apply holds_ret. split; [|done]. exists []. by rewrite app_nil_r.
  - cbn [fill_random].
    apply (holds_bind _ _ _
             (fun fuel => next fuel (Int (Z.of_nat (length charset))) None None)
             (fun fuel j => fill_random fuel n charset
                              (randomChars ++ [charset !! Z.to_nat j]))
             st
             (fun j st' => 0 <= j < Z.of_nat (length charset) /\ inv st')).
    + apply holds_next; [|done].
      destruct charset; [done|]. cbn [length] in *. lia.
    + intros j st' [Hj Hst'].
      eapply holds_weaken; [by apply IH|].
      intros r st'' [(extra & -> & Hn & Hall) Hst'']. split; [|done].
      exists (charset !! Z.to_nat j :: extra). rewrite <- app_assoc.
      split; [done|]. split; [by cbn; rewrite Hn|].
      apply Forall_cons. split; [by apply drawn_from_lookup|done].
Qed.

Lemma generate_body_holds length timestampStr up lo nu sp st :
  1 <= length - Z.of_nat (List.length timestampStr) <= 2 ^ 32 ->
  enabled_alphabets up lo nu sp <> [] ->
  Z.of_nat (List.length (concat (enabled_alphabets up lo nu sp))) <= 2 ^ 32 ->
  inv st ->
  holds
    (fun fuel => generate_body fuel length timestampStr up lo nu sp st)
    (fun s st' =>
       exists body,
         s = timestampStr ++ body /\
         Z.of_nat (List.length body)
           = length - Z.of_nat (List.length timestampStr) /\
         Forall (fun c => c ∈ concat (enabled_alphabets up lo nu sp)) body /\
         (Z.of_nat (List.length (enabled_alphabets up lo nu sp))
            <= length - Z.of_nat (List.length timestampStr) ->
          Forall (fun cls => exists c, c ∈ cls /\ c ∈ body)
            (enabled_alphabets up lo nu sp))).
Proof.
  intros HL Hne Hsize Hst.
  destruct defaults_nonempty as (D1 & D2 & D3 & D4).
  unfold enabled_alphabets in *.
  rewrite !concat_app, !length_app in Hsize.
  unfold generate_body.
  eapply holds_bind;
    [apply (include_class_holds up DEFAULT_UPPERCASE); [done|lia|done]|].
  intros c1 st1 (Hc1 & (g1 & Hg1 & Hd1) & Hst1). cbn [fst snd] in Hc1, Hg1.
  eapply holds_bind;
    [apply (include_class_holds lo DEFAULT_LOWERCASE); [done|lia|done]|].
  intros c2 st2 (Hc2 & (g2 & Hg2 & Hd2) & Hst2).
  eapply holds_bind;
    [apply (include_class_holds nu DEFAULT_NUMBERS); [done|lia|done]|].
  intros c3 st3 (Hc3 & (g3 & Hg3 & Hd3) & Hst3).
  eapply holds_bind;
    [apply (include_class_holds sp DEFAULT_SPECIALS); [done|lia|done]|].
  intros c4 st4 (Hc4 & (g4 & Hg4 & Hd4) & Hst4).
  set (classes := class_alphabet up DEFAULT_UPPERCASE
                    ++ class_alphabet lo DEFAULT_LOWERCASE
                    ++ class_alphabet nu DEFAULT_NUMBERS
                    ++ class_alphabet sp DEFAULT_SPECIALS) in *.
  assert (fst c4 = concat classes) as Hcharset.
  { subst classes. rewrite Hc4, Hc3, Hc2, Hc1, !concat_app.
    by rewrite <- !app_assoc. }
  assert (Forall2 drawn_from classes (snd c4)) as Hguar.
  { subst classes. rewrite Hg4, Hg3, Hg2, Hg1. cbn [app].
    rewrite <- !app_assoc. by repeat apply Forall2_app. }
  assert (fst c4 <> []) as Hcs.
  { rewrite Hcharset. pose proof (enabled_alphabets_nonempty up lo nu sp) as Hall.
    unfold enabled_alphabets in Hall. fold classes in Hall.
    destruct classes as [|cls classes']; [done|].
    apply Forall_cons in Hall as [Hcls _]. cbn [concat].
    destruct cls; [done|]. done. }
  pose proof (Forall2_length _ _ _ Hguar) as Hk.
  assert (List.length classes <= 4)%nat as Hk4.
  { subst classes. rewrite !length_app. unfold class_alphabet.
    repeat destruct (_shouldIncludeSet _); cbn [List.length]; lia. }
  assert (Z.of_nat (List.length (fst c4)) <= 2 ^ 32) as Hcslen.
  { rewrite Hcharset. subst classes. rewrite !concat_app, !length_app. lia. }
  destruct (fst c4) as [|ch charset'] eqn:Echarset; [done|].
  rewrite <- Echarset in *. clear ch charset' Echarset.
  set (L := length - Z.of_nat (List.length timestampStr)) in *.
  eapply (holds_bind _ _ _ _ _ _
            (fun randomChars st' =>
               (Forall (drawn_from (concat classes)) randomChars /\
                List.length randomChars
                  = Z.to_nat (L - Z.of_nat (List.length (snd c4)))) /\
               inv st')).
  { destruct (Z.ltb_spec 0 (L - Z.of_nat (List.length (snd c4)))) as [Hpos|Hpos].
    - eapply holds_weaken; [by apply fill_random_holds|].
      intros r st' [(extra & -> & Hn & Hall) Hst']. cbn [app].
      rewrite <- Hcharset. done.
    - apply holds_ret. split; [|done]. split; [done|]. cbn [List.length]. lia. }
  intros randomChars st5 [[Hrand Hrlen] Hst5].
  eapply holds_bind.
  { apply shuffle_fresh_holds; [|done]. rewrite length_app. lia. }
  intros final st6 [Hperm Hst6]. apply holds_ret.
  destruct (assemble_output classes (snd c4) randomChars final L)
    as (body & Hbody & Hlen & Hall & Hroom); [lia|done|done|done|done|].
  exists body. by rewrite Hbody.
Qed.

Lemma secureGenerate_holds clock numOrOptions e :
  inv (createSecureRandomGenerator, e) ->
  Z.of_nat (List.length (requested_timestamp clock numOrOptions))
    < requested_length numOrOptions ->
  requested_length numOrOptions
    - Z.of_nat (List.length (requested_timestamp clock numOrOptions)) <= 2 ^ 32 ->
  requested_alphabets numOrOptions <> [] ->
  Z.of_nat (List.length (concat (requested_alphabets numOrOptions))) <= 2 ^ 32 ->
  holds (fun fuel => secureGenerate fuel clock numOrOptions e)
    (fun s _ =>
       Z.of_nat (List.length s) = requested_length numOrOptions /\
       exists body,
         s = requested_timestamp clock numOrOptions ++ body /\
         Forall (fun c => c ∈ concat (requested_alphabets numOrOptions)) body /\
         (Z.of_nat (List.length (requested_alphabets numOrOptions))
            <= requested_length numOrOptions
               - Z.of_nat (List.length (requested_timestamp clock numOrOptions)) ->
          Forall (fun cls => exists c, c ∈ cls /\ c ∈ body)
            (requested_alphabets numOrOptions))).
Proof.
  unfold requested_length, requested_timestamp, requested_alphabets.
  destruct (resolve_options numOrOptions) as [[[[[length up] lo] nu] sp] ts] eqn:R.
  intros Hinv Hts Hmax Hne Hsize.
  eapply (holds_transfer _ _ _ _
            (fun fuel => generate_body fuel length (timestamp_string clock ts)
                           up lo nu sp (createSecureRandomGenerator, e))
            _ (fun s _ => s) (fun _ st => snd st)).
  - apply generate_body_holds; [lia|done|done|done].
  - intros fuel. rewrite (secureGenerate_unfold _ _ _ _ _ _ _ _ _ _ R).
    destruct (Z.ltb_spec length 1); [lia|].
    destruct (Z.leb_spec length
                (Z.of_nat (List.length (timestamp_string clock ts)))); [lia|].
    rewrite andb_false_r.
    by destruct (generate_body fuel length _ up lo nu sp _) as [[?| |] ?].
  - intros s st (body & -> & Hlen & Hall & Hroom). cbn beta.
    split; [rewrite length_app; lia|]. by exists body.
Qed.

End Logic.

(** ** The two instances *)

Lemma secureShuffle_delivers {T} (undefined : T) array (l : list T) generator
    (h : store T) e :
  h !! array = Some l ->
  Z.of_nat (length l) <= 2 ^ 32 ->
  session_ok (default createSecureRandomGenerator generator) ->
  delivers e (fun fuel => secureShuffle undefined fuel array generator h e)
    (fun r s => r = array /\ exists l', fst s = <[array := l']> h /\ l' ≡ₚ l).
Proof.
  intros Hl Hlen Hok. split.
  - eapply sound_weaken.
    + apply (secureShuffle_holds (fun st => session_ok (fst st))
               (@sound) (fun st H => H) (@sound_ret) (@sound_bind)
               (@sound_weaken) (@sound_transfer) next_single_sound
               undefined array l generator h e Hl Hlen Hok).
    + intros r s (? & ? & _). done.
  - intros Hfair. eapply converges_weaken.
    + apply (secureShuffle_holds steady
               (@converges) (fun st H => proj1 H) (@converges_ret)
               (@converges_bind) (@converges_weaken) (@converges_transfer)
               next_single_converges
               undefined array l generator h e Hl Hlen).
      by apply steady_session.
    + intros r s (? & ? & _). done.
Qed.

Lemma secureGenerate_delivers clock numOrOptions e :
  Z.of_nat (List.length (requested_timestamp clock numOrOptions))
    < requested_length numOrOptions ->
  requested_length numOrOptions
    - Z.of_nat (List.length (requested_timestamp clock numOrOptions)) <= 2 ^ 32 ->
  requested_alphabets numOrOptions <> [] ->
  Z.of_nat (List.length (concat (requested_alphabets numOrOptions))) <= 2 ^ 32 ->
  delivers e (fun fuel => secureGenerate fuel clock numOrOptions e)
    (fun s _ =>
       Z.of_nat (List.length s) = requested_length numOrOptions /\
       exists body,
         s = requested_timestamp clock numOrOptions ++ body /\
         Forall (fun c => c ∈ concat (requested_alphabets numOrOptions)) body /\
         (Z.of_nat (List.length (requested_alphabets numOrOptions))
            <= requested_length numOrOptions
               - Z.of_nat (List.length (requested_timestamp clock numOrOptions)) ->
          Forall (fun cls => exists c, c ∈ cls /\ c ∈ body)
            (requested_alphabets numOrOptions))).
Proof.
  intros H1 H2 H3 H4. split.
  - apply (secureGenerate_holds (fun st => session_ok (fst st))
             (@sound) (fun st H => H) (@sound_ret) (@sound_bind)
             (@sound_weaken) (@sound_transfer) next_single_sound
             clock numOrOptions e fresh_session_ok H1 H2 H3 H4).
  - intros Hfair.
    apply (secureGenerate_holds steady
             (@converges) (fun st H => proj1 H) (@converges_ret)
             (@converges_bind) (@converges_weaken) (@converges_transfer)
             next_single_converges
             clock numOrOptions e
             (steady_session _ _ fresh_session_ok Hfair) H1 H2 H3 H4).
Qed.

Lemma delivers_weaken {S A} e (run : nat -> outcome A * S)
    (Q R : A -> S -> Prop) :
  delivers e run Q -> (forall a s, Q a s -> R a s) -> delivers e run R.
Proof.
  intros [Hs Hc] HQR. split; [by eapply sound_weaken|].
  intros Hfair. eapply converges_weaken; [by apply Hc|done].
Qed.

(** C4.  [secureShuffle] works in place and returns the reference it was
    given.  It is Fisher–Yates exactly: its outcome, the state it leaves
    the generator in (a fresh session when none is supplied) and the array
    it leaves behind are those of the loop that, for [i] from [length - 1]
    down to [1], draws [j = next(0, i + 1)] and exchanges the elements at
    [i] and [j].  On every entropy source it raises no error and the array
    it leaves on return is a permutation of the input; on a fair source it
    does return.  An array of length 0 or 1 is returned unchanged and no
    draw is made. *)
Theorem C4_secureShuffle {T} (undefined : T) (array : ref) (l : list T)
    (generator : option session) (h : store T) (e : entropy) :
  h !! array = Some l ->
  Z.of_nat (length l) <= 2 ^ 32 ->
  (forall g, generator = Some g -> session_ok g) ->
  let gen := default createSecureRandomGenerator generator in
  (forall fuel,
     fst (secureShuffle undefined fuel array generator h e) =
       match fst (fisher_yates fuel (Nat.pred (length l)) l (gen, e)) with
       | Returned _ => Returned array
       | Threw x => Threw x
       | Spinning => Spinning
       end /\
     snd (snd (secureShuffle undefined fuel array generator h e))
       = snd (fisher_yates fuel (Nat.pred (length l)) l (gen, e)) /\
     forall l', fst (fisher_yates fuel (Nat.pred (length l)) l (gen, e))
                  = Returned l' ->
       fst (snd (secureShuffle undefined fuel array generator h e))
         = <[array := l']> h) /\
  delivers e (fun fuel => secureShuffle undefined fuel array generator h e)
    (fun r s => r = array /\ exists l', fst s = <[array := l']> h /\ l' ≡ₚ l) /\
  ((length l <= 1)%nat ->
   forall fuel,
     secureShuffle undefined fuel array generator h e
       = (Returned array, (h, (gen, e)))).
Proof.
  intros Hl Hlen Hgen gen.
  assert (session_ok gen) as Hok.
  { subst gen. destruct generator as [g|]; [by apply Hgen|apply fresh_session_ok]. }
  split; [|split].
  - intros fuel. by apply secureShuffle_refines.
  - by apply secureShuffle_delivers.
  - intros Hshort fuel. unfold secureShuffle. fold gen.
    rewrite (contents_lookup h array l Hl).
    by replace (Nat.pred (length l)) with O by lia.
Qed.

(** ** The sample entropy source *)

Lemma sample_entropy_fair : fair_entropy sample_entropy.
Proof.
  intros n. exists (Z.to_nat (2 ^ 32 * Z.of_nat n)). split; [lia|].
  unfold raw, uint32, sample_entropy, sample_stream. cbn [stream taken].
  rewrite Nat.add_0_l, Z2Nat.id by lia.
  replace (2 ^ 32 * Z.of_nat n * 2654435761 + 12345)
    with (12345 + Z.of_nat n * 2654435761 * 2 ^ 32) by lia.
  rewrite Z_mod_plus_full, Z.mod_small by lia. lia.
Qed.

(** Shuffling [[10; 20; 30; 40]] with a fresh session on the sample
    source. *)
Lemma C4_secureShuffle_witness :
  delivers sample_entropy
    (fun fuel =>
       secureShuffle 0 fuel 0%nat None {[ 0%nat := [10; 20; 30; 40] ]}
         sample_entropy)
    (fun r s =>
       r = 0%nat /\
       exists l', fst s = <[0%nat := l']> {[ 0%nat := [10; 20; 30; 40] ]} /\
                  l' ≡ₚ [10; 20; 30; 40]).
Proof.
  refine (proj1 (proj2 (C4_secureShuffle 0 0%nat [10; 20; 30; 40] None
                          {[ 0%nat := [10; 20; 30; 40] ]} sample_entropy
                          _ _ _))).
  - reflexivity.
  - vm_compute. discriminate.
  - discriminate.
Defined.

Example secureShuffle_sample :
  fst (secureShuffle 0 5 0%nat None {[ 0%nat := [10; 20; 30; 40] ]} sample_entropy)
  = Returned 0%nat /\
  contents
    (fst (snd (secureShuffle 0 5 0%nat None {[ 0%nat := [10; 20; 30; 40] ]}
                 sample_entropy))) 0%nat
  = [10; 30; 40; 20].
Proof. vm_compute. split; reflexivity. Qed.

(** C2.  Whenever [secureGenerate] raises no error it returns a string of
    exactly the requested length: the timestamp prefix, if requested,
    followed by characters of the enabled classes' alphabets (the custom
    string of a class if given, else its default); when the enabled classes
    are no more than the characters after the prefix, the output holds a
    character of each enabled class's own alphabet.  This holds of any
    returned value on every entropy source, and on a fair source the call
    does return.  With all defaults the output has length 16 and a
    character from each default class; with only the custom digits [13579]
    at length 6 it is a 6-character string over these digits. *)
Theorem C2_secureGenerate (clock : Z) (e : entropy) :
  (forall numOrOptions : option (Z + SecureGenerateOptions),
     Z.of_nat (List.length (requested_timestamp clock numOrOptions))
       < requested_length numOrOptions ->
     requested_length numOrOptions
       - Z.of_nat (List.length (requested_timestamp clock numOrOptions))
       <= 2 ^ 32 ->
     requested_alphabets numOrOptions <> [] ->
     Z.of_nat (List.length (concat (requested_alphabets numOrOptions)))
       <= 2 ^ 32 ->
     delivers e (fun fuel => secureGenerate fuel clock numOrOptions e)
       (fun s _ =>
          Z.of_nat (List.length s) = requested_length numOrOptions /\
          exists body,
            s = requested_timestamp clock numOrOptions ++ body /\
            Forall (fun c => c ∈ concat (requested_alphabets numOrOptions)) body /\
            (Z.of_nat (List.length (requested_alphabets numOrOptions))
               <= requested_length numOrOptions
                  - Z.of_nat (List.length
                                (requested_timestamp clock numOrOptions)) ->
             Forall (fun cls => exists c, c ∈ cls /\ c ∈ body)
               (requested_alphabets numOrOptions)))) /\
  delivers e (fun fuel => secureGenerate fuel clock None e)
    (fun s _ =>
       List.length s = 16%nat /\
       (exists c, c ∈ DEFAULT_UPPERCASE /\ c ∈ s) /\
       (exists c, c ∈ DEFAULT_LOWERCASE /\ c ∈ s) /\
       (exists c, c ∈ DEFAULT_NUMBERS /\ c ∈ s) /\
       (exists c, c ∈ DEFAULT_SPECIALS /\ c ∈ s)) /\
  delivers e (fun fuel => secureGenerate fuel clock (Some (inr pin_options)) e)
    (fun s _ =>
       List.length s = 6%nat /\ Forall (fun c => c ∈ chars "13579") s).
Proof.
  split; [|split].
  - intros numOrOptions. by apply secureGenerate_delivers.
  - eapply delivers_weaken.
    + apply (secureGenerate_delivers clock None e); by vm_compute.
    + intros s _ (Hlen & body & -> & _ & Hroom).
      change (requested_length None) with 16 in *.
      change (requested_timestamp clock None) with (@nil ascii) in *.
      change (requested_alphabets None)
        with [DEFAULT_UPPERCASE; DEFAULT_LOWERCASE; DEFAULT_NUMBERS;
              DEFAULT_SPECIALS] in *.
      cbn [app] in *. split; [lia|].
      specialize (Hroom ltac:(by vm_compute)).
      apply Forall_cons in Hroom as [H1 Hroom].
      apply Forall_cons in Hroom as [H2 Hroom].
      apply Forall_cons in Hroom as [H3 Hroom].
      apply Forall_cons in Hroom as [H4 _]. done.
  - eapply delivers_weaken.
    + apply (secureGenerate_delivers clock (Some (inr pin_options)) e);
        by vm_compute.
    + intros s _ (Hlen & body & -> & Hall & _).
      change (requested_length (Some (inr pin_options))) with 6 in *.
      change (requested_timestamp clock (Some (inr pin_options)))
        with (@nil ascii) in *.
      change (concat (requested_alphabets (Some (inr pin_options))))
        with (chars "13579") in *.
      cbn [app] in *. split; [lia|done].
Qed.

Example secureGenerate_sample :
  fst (secureGenerate 10 0 None sample_entropy)
  = Returned (chars "1T?Ry[@U(%VjCywE").
Proof. vm_compute. reflexivity. Qed.

Example secureGenerate_pin_sample :
  fst (secureGenerate 10 0 (Some (inr pin_options)) sample_entropy)
  = Returned (chars "135355").
Proof. vm_compute. reflexivity. Qed.

(** ** Failures of [secureGenerate] *)

Lemma include_class_off fuel set def acc st :
  _shouldIncludeSet set = false ->
  include_class fuel set def acc st = (Returned acc, st).
Proof. intros H. unfold include_class. by rewrite H. Qed.

Lemma generate_body_no_types fuel length timestampStr up lo nu sp st :
  enabled_alphabets up lo nu sp = [] ->
  generate_body fuel length timestampStr up lo nu sp st = (Threw ERR_NO_TYPES, st).
Proof.
  unfold enabled_alphabets, class_alphabet. intros H.
  destruct (_shouldIncludeSet up) eqn:E1; [done|].
  destruct (_shouldIncludeSet lo) eqn:E2; [done|].
  destruct (_shouldIncludeSet nu) eqn:E3; [done|].
  destruct (_shouldIncludeSet sp) eqn:E4; [done|].
  unfold generate_body, bind. by rewrite !include_class_off.
Qed.


(** C6, as claimed, fails when a timestamp is requested with a length below
    1: the call [secureGenerate({length: 0, timestamp: true})] raises the
    length error, which is not the timestamp error. *)
Lemma C6_counterexample :
  is_Some (requested_stamp (Some (inr stamped_empty_options))) /\
  requested_length (Some (inr stamped_empty_options))
    <= Z.of_nat (List.length
                   (requested_timestamp 1672531200000
                      (Some (inr stamped_empty_options)))) /\
  fst (secureGenerate 1 1672531200000 (Some (inr stamped_empty_options))
         sample_entropy) = Threw ERR_LENGTH /\
  fst (secureGenerate 1 1672531200000 (Some (inr stamped_empty_options))
         sample_entropy)
    <> Threw (ERR_TIMESTAMP
                (List.length (requested_timestamp 1672531200000
                                (Some (inr stamped_empty_options))))).
Proof.
  split; [by eexists|]. split; [by vm_compute|]. split; by vm_compute.
Qed.

(** C6 (amended).  [secureGenerate] fails with the length error whenever the
    length is below 1, with or without a timestamp; it fails with the
    timestamp error when the length is at least 1, a timestamp is requested
    and the length is not greater than the length of its base-36 encoding;
    and it fails with the no-character-types error when the length passes
    both checks and all four classes are disabled.  Each of these failures
    occurs before any entropy is consumed. *)
Theorem C6_generate_failures (fuel : nat) (clock : Z)
    (numOrOptions : option (Z + SecureGenerateOptions)) (e : entropy) :
  let length := requested_length numOrOptions in
  let timestampStr := requested_timestamp clock numOrOptions in
  (length < 1 ->
   secureGenerate fuel clock numOrOptions e = (Threw ERR_LENGTH, e)) /\
  (1 <= length -> is_Some (requested_stamp numOrOptions) ->
   length <= Z.of_nat (List.length timestampStr) ->
   secureGenerate fuel clock numOrOptions e
     = (Threw (ERR_TIMESTAMP (List.length timestampStr)), e)) /\
  (1 <= length -> Z.of_nat (List.length timestampStr) < length ->
   requested_alphabets numOrOptions = [] ->
   secureGenerate fuel clock numOrOptions e = (Threw ERR_NO_TYPES, e)).
Proof.
  unfold requested_length, requested_timestamp, requested_stamp,
    requested_alphabets.
  destruct (resolve_options numOrOptions) as [[[[[length up] lo] nu] sp] ts] eqn:R.
  cbv zeta. rewrite (secureGenerate_unfold _ _ _ _ _ _ _ _ _ _ R).
  split; [|split].
  - intros H. by destruct (Z.ltb_spec length 1); [|lia].
  - intros H1 [t ->] H2. destruct (Z.ltb_spec length 1); [lia|].
    rewrite bool_decide_eq_false_2 by apply timestamp_string_nonempty.
    by destruct (Z.leb_spec length
                   (Z.of_nat (List.length (timestamp_string clock (Some t)))));
      [|lia].
  - intros H1 H2 H3. destruct (Z.ltb_spec length 1); [lia|].
    destruct (Z.leb_spec length
                (Z.of_nat (List.length (timestamp_string clock ts)))); [lia|].
    rewrite andb_false_r. by rewrite generate_body_no_types.
Qed.



Example secureGenerate_all_empty :
  secureGenerate 10 0
    (Some (inr (mkOptions None (Some (Alphabet [])) (Some (Flag false))
                  (Some (Alphabet [])) (Some (Alphabet [])) None)))
    sample_entropy
  = (Threw ERR_NO_TYPES, sample_entropy).
Proof. reflexivity. Qed.

(** ** The earlier generators *)

Lemma legacy_next_loop_spec fuel range st :
  0 < range <= 2 ^ 32 ->
  (let* randomValue := Legacy.next_loop fuel (maxSafe_of range) in
   ret (Z.rem randomValue range)) st
  = next_loop fuel 0 range (maxSafe_of range) None st.
Proof.
  intros Hr. unfold bind, ret.
  revert st. induction fuel as [|fuel IH]; intros st; [done|].
  cbn [Legacy.next_loop next_loop ignored orb].
  rewrite orb_false_r.
  destruct (maxSafe_of range <=? _); [apply IH|].
  by rewrite Number_add_rem by lia.
Qed.

Lemma unbuffered_loop_spec fuel range e :
  0 < range <= 2 ^ 32 ->
  (let* randomValue := Unbuffered.secureRandomNumber_loop fuel (maxSafe_of range) in
   ret (Z.rem randomValue range)) e
  = secureRandomNumber_loop fuel 0 range (maxSafe_of range) None e.
Proof.
  intros Hr. unfold bind, ret.
  revert e. induction fuel as [|fuel IH]; intros e; [done|].
  cbn [Unbuffered.secureRandomNumber_loop secureRandomNumber_loop ignored].
  destruct (crypto_getRandomValues 1 e) as [randomBytes e1].
  rewrite orb_false_r.
  destruct (maxSafe_of range <=? _); [apply IH|].
  by rewrite Number_add_rem by lia.
Qed.

Lemma legacy_next_valid fuel m st :
  0 < m <= 2 ^ 32 ->
  Legacy.next fuel (Int m) st = next fuel (Int m) None None st.
Proof.
  intros Hm. unfold Legacy.next, next.
  rewrite (check_arguments_eq _ _ _ (Int 0) (Int m) None) by done.
  destruct (Z.leb_spec m 0); [lia|].
  rewrite Z.sub_0_r. destruct (Z.ltb_spec (2 ^ 32) m); [lia|].
  by apply legacy_next_loop_spec.
Qed.

Lemma unbuffered_valid fuel m e :
  0 < m <= 2 ^ 32 ->
  Unbuffered.secureRandomNumber fuel (Int m) e
  = secureRandomNumber fuel (Int m) None None e.
Proof.
  intros Hm. unfold Unbuffered.secureRandomNumber, secureRandomNumber.
  rewrite (check_arguments_eq _ _ _ (Int 0) (Int m) None) by done.
  destruct (Z.leb_spec m 0); [lia|].
  rewrite Z.sub_0_r. destruct (Z.ltb_spec (2 ^ 32) m); [lia|].
  by apply unbuffered_loop_spec.
Qed.

(** X1.  The single-bound draws of the earlier releases are the current
    [draw(max)]: for an integer [0 < max <= 2^32] the session's
    [next(max)] and the word-by-word [secureRandomNumber(max)] return what
    the current functions return and leave the same state.  Outside this
    domain all of them fail, leaving the state as it was: the earlier ones
    with the positive-integer error for a non-integer or non-positive
    [max] and with their own too-large error above [2^32], where the
    current ones report the integer, the order and the range error. *)
Theorem earlier_draws_agree (fuel : nat) (max : number) (st : gstate)
    (e : entropy) :
  (forall m, max = Int m -> 0 < m <= 2 ^ 32 ->
     Legacy.next fuel max st = next fuel max None None st /\
     Unbuffered.secureRandomNumber fuel max e
       = secureRandomNumber fuel max None None e) /\
  (Number_isInteger max = false ->
     Legacy.next fuel max st = (Threw Legacy.ERR_POSITIVE, st) /\
     Unbuffered.secureRandomNumber fuel max e = (Threw Legacy.ERR_POSITIVE, e) /\
     next fuel max None None st = (Threw ERR_INTEGERS, st) /\
     secureRandomNumber fuel max None None e = (Threw ERR_INTEGERS, e)) /\
  (forall m, max = Int m -> m <= 0 ->
     Legacy.next fuel max st = (Threw Legacy.ERR_POSITIVE, st) /\
     Unbuffered.secureRandomNumber fuel max e = (Threw Legacy.ERR_POSITIVE, e) /\
     next fuel max None None st = (Threw ERR_ORDER, st) /\
     secureRandomNumber fuel max None None e = (Threw ERR_ORDER, e)) /\
  (forall m, max = Int m -> 2 ^ 32 < m ->
     Legacy.next fuel max st = (Threw Legacy.ERR_TOO_LARGE, st) /\
     Unbuffered.secureRandomNumber fuel max e = (Threw Legacy.ERR_TOO_LARGE, e) /\
     next fuel max None None st = (Threw ERR_TOO_LARGE, st) /\
     secureRandomNumber fuel max None None e = (Threw ERR_TOO_LARGE, e)) /\
  is_threw (fst (Legacy.next fuel max st))
    = is_threw (fst (next fuel max None None st)).
Proof.
  split; [|split; [|split; [|split]]].
  - intros m -> Hm. split; [by apply legacy_next_valid|by apply unbuffered_valid].
  - destruct max as [m|t]; [done|]. intros _. done.
  - intros m -> Hm. unfold Legacy.next, Unbuffered.secureRandomNumber, next,
      secureRandomNumber.
    rewrite (check_arguments_eq _ _ _ (Int 0) (Int m) None) by done.
    by destruct (Z.leb_spec m 0); [|lia].
  - intros m -> Hm. unfold Legacy.next, Unbuffered.secureRandomNumber, next,
      secureRandomNumber.
    rewrite (check_arguments_eq _ _ _ (Int 0) (Int m) None) by done.
    destruct (Z.leb_spec m 0); [lia|].
    rewrite Z.sub_0_r. by destruct (Z.ltb_spec (2 ^ 32) m); [|lia].
  - destruct max as [m|t]; [|done].
    destruct (Z.le_gt_cases m 0) as [H|H];
      [|destruct (Z.le_gt_cases m (2 ^ 32)) as [H'|H']].
    + unfold Legacy.next, next.
      rewrite (check_arguments_eq _ _ _ (Int 0) (Int m) None) by done.
      by destruct (Z.leb_spec m 0); [|lia].
    + by rewrite legacy_next_valid by lia.
    + unfold Legacy.next, next.
      rewrite (check_arguments_eq _ _ _ (Int 0) (Int m) None) by done.
      destruct (Z.leb_spec m 0); [lia|].
      rewrite Z.sub_0_r. by destruct (Z.ltb_spec (2 ^ 32) m); [|lia].
Qed.

Lemma one_shot_single_spec fuel n e :
  1 <= n <= 2 ^ 32 ->
  secureRandomNumber fuel (Int n) None None e =
  match first_accepted fuel (accepts 0 n None) (raw e) with
  | Some k => (Returned (Z.rem (raw e k) n), skip (S k) e)
  | None => (Spinning, skip fuel e)
  end.
Proof.
  intros Hn. unfold secureRandomNumber.
  rewrite (check_arguments_eq _ _ _ (Int 0) (Int n) None) by done.
  destruct (Z.leb_spec n 0); [lia|].
  rewrite Z.sub_0_r. destruct (Z.ltb_spec (2 ^ 32) n); [lia|].
  rewrite secureRandomNumber_loop_spec.
  destruct (first_accepted fuel _ (raw e)); [|done].
  by rewrite Number_add_rem.
Qed.

(** X2.  [secureRandomNumber(max)] of [utils/random.ts] draws from a
    session of its own: it has the outcome of the word-by-word draw on the
    same entropy, but where that draw has fetched the [k + 1] words it
    read, it has fetched [k / 256 + 1] whole blocks of 256 words, and the
    words it did not read are lost with the session. *)
Theorem legacy_draw_spends_blocks (fuel : nat) (max : number) (e : entropy) :
  fst (Legacy.secureRandomNumber fuel max e)
    = fst (Unbuffered.secureRandomNumber fuel max e) /\
  (forall v e',
     Unbuffered.secureRandomNumber fuel max e = (Returned v, e') ->
     exists k : nat,
       e' = skip (S k) e /\
       Legacy.secureRandomNumber fuel max e
         = (Returned v, skip (256 * S (k / 256)) e)) /\
  (forall x,
     fst (Unbuffered.secureRandomNumber fuel max e) = Threw x ->
     Unbuffered.secureRandomNumber fuel max e = (Threw x, e) /\
     Legacy.secureRandomNumber fuel max e = (Threw x, e)).
Proof.
  unfold Legacy.secureRandomNumber.
  destruct max as [m|t].
  2:{ split; [done|]. split; [by intros ?? [=]|]. intros x [= <-]. by split. }
  destruct (Z.le_gt_cases m 0) as [H|H];
    [|destruct (Z.le_gt_cases m (2 ^ 32)) as [H'|H']].
  - unfold Legacy.next, Unbuffered.secureRandomNumber.
    destruct (Z.leb_spec m 0); [|lia].
    split; [done|]. split; [by intros ?? [=]|]. intros x [= <-]. by split.
  - rewrite legacy_next_valid, unbuffered_valid by lia.
    rewrite next_single_spec, one_shot_single_spec by lia.
    rewrite (first_accepted_ext fuel _ _ (raw e)) by apply upcoming_fresh.
    destruct (first_accepted fuel _ (raw e)) as [k|]; cbn [fst snd].
    + rewrite upcoming_fresh. split; [done|]. split; [|done].
      intros v e' [= <- <-]. exists k. split; [done|].
      by destruct (advance_fresh_state k e) as (_ & -> & _).
    + done.
  - unfold Legacy.next, Unbuffered.secureRandomNumber.
    destruct (Z.leb_spec m 0); [lia|].
    destruct (Z.ltb_spec (2 ^ 32) m); [|lia].
    split; [done|]. split; [by intros ?? [=]|]. intros x [= <-]. by split.
Qed.

Lemma legacy_shuffle_loop {T} (undefined : T) fuel i array
    (s : store T * gstate) :
  Z.of_nat i + 1 <= 2 ^ 32 ->
  Legacy.secureShuffle_loop undefined fuel i array s
  = secureShuffle_loop undefined fuel i array s.
Proof.
  revert s. induction i as [|i IH]; intros s Hi; [done|].
  cbn [Legacy.secureShuffle_loop secureShuffle_loop].
  rewrite legacy_next_valid by lia.
  destruct (next fuel _ None None (snd s)) as [[j| |] g']; try done.
  apply IH. lia.
Qed.

(** X3.  [secureShuffle] of [utils/random.ts], written against the
    single-bound generator, is the current [secureShuffle]: on an array of
    at most [2^32] elements the two calls are equal, so it too works in
    place, returns the reference it was given, raises no error and leaves a
    permutation of the input, and returns on a fair entropy source. *)
Theorem legacy_shuffle_agrees {T} (undefined : T) (array : ref) (l : list T)
    (generator : option session) (h : store T) (e : entropy) :
  h !! array = Some l ->
  Z.of_nat (length l) <= 2 ^ 32 ->
  (forall g, generator = Some g -> session_ok g) ->
  (forall fuel,
     Legacy.secureShuffle undefined fuel array generator h e
       = secureShuffle undefined fuel array generator h e) /\
  delivers e
    (fun fuel => Legacy.secureShuffle undefined fuel array generator h e)
    (fun r s => r = array /\ exists l', fst s = <[array := l']> h /\ l' ≡ₚ l).
Proof.
  intros Hl Hlen Hgen.
  assert (forall fuel,
            Legacy.secureShuffle undefined fuel array generator h e
            = secureShuffle undefined fuel array generator h e) as Heq.
  { intros fuel. unfold Legacy.secureShuffle, secureShuffle.
    rewrite legacy_shuffle_loop; [done|].
    rewrite (contents_lookup h array l Hl). lia. }
  split; [exact Heq|].
  assert (session_ok (default createSecureRandomGenerator generator)) as Hok.
  { destruct generator as [g|]; [by apply Hgen|apply fresh_session_ok]. }
  destruct (secureShuffle_delivers undefined array l generator h e Hl Hlen Hok)
    as [Hs Hc].
  split.
  - intros fuel. rewrite Heq. apply Hs.
  - intros Hfair. destruct (Hc Hfair) as (f0 & a & s' & HQ & Hrun).
    exists f0, a, s'. split; [done|]. intros fuel. rewrite Heq. apply Hrun.
Qed.

Lemma legacy_shuffle_agrees_witness :
  delivers sample_entropy
    (fun fuel =>
       Legacy.secureShuffle 0 fuel 0%nat None {[ 0%nat := [10; 20; 30; 40] ]}
         sample_entropy)
    (fun r s =>
       r = 0%nat /\
       exists l', fst s = <[0%nat := l']> {[ 0%nat := [10; 20; 30; 40] ]} /\
                  l' ≡ₚ [10; 20; 30; 40]).
Proof.
  refine (proj2 (legacy_shuffle_agrees 0 0%nat [10; 20; 30; 40] None
                   {[ 0%nat := [10; 20; 30; 40] ]} sample_entropy _ _ _)).
  - reflexivity.
  - vm_compute. discriminate.
  - discriminate.
Defined.

Lemma in_step_advance st e k :
  in_step st e -> in_step (advance k st) (skip k e).
Proof.
  intros H i. by rewrite advance_upcoming, raw_skip, H.
Qed.

Lemma in_step_fresh e : in_step (createSecureRandomGenerator, e) e.
Proof. intros i. apply upcoming_fresh. Qed.

Lemma unbuffered_shuffle_loop {T} (undefined : T) fuel i array (h : store T)
    st e :
  Z.of_nat i + 1 <= 2 ^ 32 -> in_step st e ->
  fst (Unbuffered.secureShuffle_loop undefined fuel i array (h, e))
    = fst (secureShuffle_loop undefined fuel i array (h, st)) /\
  fst (snd (Unbuffered.secureShuffle_loop undefined fuel i array (h, e)))
    = fst (snd (secureShuffle_loop undefined fuel i array (h, st))) /\
  in_step (snd (snd (secureShuffle_loop undefined fuel i array (h, st))))
    (snd (snd (Unbuffered.secureShuffle_loop undefined fuel i array (h, e)))).
Proof.
  revert h st e. induction i as [|i IH]; intros h st e Hi Hstep; [done|].
  cbn [Unbuffered.secureShuffle_loop secureShuffle_loop fst snd].
  rewrite unbuffered_valid, one_shot_single_spec, next_single_spec by lia.
  rewrite (first_accepted_ext fuel _ (upcoming st) (raw e)) by done.
  destruct (first_accepted fuel _ (raw e)) as [k|]; cbn [fst snd].
  - rewrite Hstep. apply IH; [lia|]. by apply in_step_advance.
  - split; [done|]. split; [done|]. by apply in_step_advance.
Qed.

(** X4.  [secureShuffle(array)] of the first release, which fetches a word
    from the platform for every iteration of every draw, computes what the
    current [secureShuffle(array)] computes with its buffered session: on
    the same entropy the two have the same outcome and leave the same
    array, and the session ends holding exactly the words the first
    release would fetch next. *)
Theorem unbuffered_shuffle_agrees {T} (undefined : T) (fuel : nat)
    (array : ref) (h : store T) (e : entropy) :
  Z.of_nat (length (contents h array)) <= 2 ^ 32 ->
  fst (Unbuffered.secureShuffle undefined fuel array h e)
    = fst (secureShuffle undefined fuel array None h e) /\
  fst (snd (Unbuffered.secureShuffle undefined fuel array h e))
    = fst (snd (secureShuffle undefined fuel array None h e)) /\
  in_step (snd (snd (secureShuffle undefined fuel array None h e)))
    (snd (snd (Unbuffered.secureShuffle undefined fuel array h e))).
Proof.
  intros Hlen. unfold Unbuffered.secureShuffle, secureShuffle.
  cbn [default from_option id].
  destruct (unbuffered_shuffle_loop undefined fuel
              (Nat.pred (length (contents h array))) array h
              (createSecureRandomGenerator, e) e ltac:(lia) (in_step_fresh e))
    as (H1 & H2 & H3).
  destruct (Unbuffered.secureShuffle_loop _ _ _ _ _) as [[| |] [h1 e1]];
    destruct (secureShuffle_loop _ _ _ _ _) as [[| |] [h2 st2]];
    cbn [fst snd] in *; simplify_eq; done.
Qed.

Lemma unbuffered_shuffle_agrees_witness :
  fst (Unbuffered.secureShuffle 0 5 0%nat {[ 0%nat := [10; 20; 30; 40] ]}
         sample_entropy)
    = fst (secureShuffle 0 5 0%nat None {[ 0%nat := [10; 20; 30; 40] ]}
             sample_entropy).
Proof.
  refine (proj1 (unbuffered_shuffle_agrees 0 5 0%nat
                   {[ 0%nat := [10; 20; 30; 40] ]} sample_entropy _)).
  vm_compute. discriminate.
Defined.

(** ** Hexadecimal encoding *)

Lemma hex_pair_spec (x : Byte.byte) :
  String_slice (chars "00" ++ Number_toString16 (byte_val x)) (-2) = hex_pair x /\
  Forall (fun c => is_LineTerminator c = false /\ is_lower_hex c) (hex_pair x) /\
  ToUint8 (Number_parseInt16 (hex_pair x)) = x /\
  ToUint8 (Number_parseInt16 (map upper_hex (hex_pair x))) = x.
Proof.
  assert (hex_pair_check x = true) as H by (destruct x; vm_compute; reflexivity).
  unfold hex_pair_check in H.
  apply andb_prop in H as [H H4]. apply andb_prop in H as [H H3].
  apply andb_prop in H as [H1 H2].
  apply bool_decide_eq_true in H1.
  split; [done|]. split; [|split; by apply Byte.byte_dec_bl].
  apply Forall_forall. intros c Hc.
  rewrite forallb_forall in H2. apply list_elem_of_In in Hc.
  apply H2, andb_prop in Hc as [Ha Hb].
  split; [by apply negb_true_iff|by apply bool_decide_eq_true in Hb].
Qed.

Lemma match_pairs_hex (bs : list Byte.byte) (rest : list ascii) :
  String_match_pairs (concat (map hex_pair bs) ++ rest)
  = map hex_pair bs ++ String_match_pairs rest.
Proof.
  induction bs as [|x bs IH]; [done|].
  destruct (hex_pair_spec x) as (_ & Hlt & _).
  unfold hex_pair in *. cbn [map concat app].
  apply Forall_cons in Hlt as [[Hc _] Hlt].
  apply Forall_cons in Hlt as [[Hd _] _].
  cbn [String_match_pairs]. rewrite Hc, Hd. by rewrite IH.
Qed.

Lemma fromHexString_map (s : list ascii) :
  fromHexString s
  = map (fun byte => ToUint8 (Number_parseInt16 byte)) (String_match_pairs s).
Proof. unfold fromHexString. by destruct (String_match_pairs s). Qed.

Lemma fromHexString_pairs (bs : list Byte.byte) (rest : list ascii) :
  fromHexString (concat (map hex_pair bs) ++ rest) = bs ++ fromHexString rest.
Proof.
  rewrite !fromHexString_map, match_pairs_hex, map_app. f_equal.
  induction bs as [|x bs IH]; [done|].
  cbn [map]. rewrite IH. f_equal. apply hex_pair_spec.
Qed.

Lemma upper_hex_line c :
  is_LineTerminator c = false -> is_LineTerminator (upper_hex c) = false.
Proof. destruct c as [[] [] [] [] [] [] [] []]; vm_compute; done. Qed.

Lemma match_pairs_upper (bs : list Byte.byte) :
  String_match_pairs (map upper_hex (concat (map hex_pair bs)))
  = map (fun x => map upper_hex (hex_pair x)) bs.
Proof.
  induction bs as [|x bs IH]; [done|].
  destruct (hex_pair_spec x) as (_ & Hlt & _).
  unfold hex_pair in *. cbn [map concat app].
  apply Forall_cons in Hlt as [[Hc _] Hlt].
  apply Forall_cons in Hlt as [[Hd _] _].
  cbn [String_match_pairs].
  rewrite (upper_hex_line _ Hc), (upper_hex_line _ Hd). by rewrite IH.
Qed.

Lemma match_pairs_line (s1 s2 : list ascii) c :
  is_LineTerminator c = true ->
  String_match_pairs (s1 ++ c :: s2)
  = String_match_pairs s1 ++ String_match_pairs s2.
Proof.
  intros Hc.
  assert (forall n s, (length s <= n)%nat ->
            String_match_pairs (s ++ c :: s2)
            = String_match_pairs s ++ String_match_pairs s2) as H.
  { induction n as [|n IH]; intros s Hs.
    - destruct s; [|cbn in Hs; lia]. cbn. by rewrite Hc.
    - destruct s as [|a s]; [cbn; by rewrite Hc|].
      cbn [app String_match_pairs].
      destruct (is_LineTerminator a); [apply IH; cbn in Hs; lia|].
      destruct s as [|d s]; cbn [app];
        [rewrite Hc; cbn [String_match_pairs app]; by rewrite Hc|].
      destruct (is_LineTerminator d) eqn:Hd.
      + cbn [app]. f_equal.
        change (d :: s ++ c :: s2) with ((d :: s) ++ c :: s2).
        apply IH. cbn in Hs |- *. lia.
      + cbn [app]. f_equal. apply IH. cbn in Hs. lia. }
  by apply (H (length s1)).
Qed.

Lemma fromHexString_upper (bs : list Byte.byte) :
  fromHexString (map upper_hex (concat (map hex_pair bs))) = bs.
Proof.
  rewrite fromHexString_map, match_pairs_upper, map_map.
  induction bs as [|y l IH]; [done|]. cbn [map]. rewrite IH. f_equal.
  apply hex_pair_spec.
Qed.

Lemma hex_value_digit c v :
  hex_value c = Some v ->
  is_StrWhiteSpaceChar c = false /\ c <> "-"%char /\ c <> "+"%char.
Proof.
  intros H. split; [|split; by intros ->].
  apply bool_decide_eq_false_2. intros Hin.
  repeat (apply elem_of_cons in Hin as [->|Hin]; [done|]).
  by apply elem_of_nil in Hin.
Qed.

Lemma parseInt16_unsigned c r :
  is_StrWhiteSpaceChar c = false -> c <> "-"%char -> c <> "+"%char ->
  Number_parseInt16 (c :: r) =
  match parse_digits16
          (if bool_decide (take 2 (c :: r) = chars "0x")
              || bool_decide (take 2 (c :: r) = chars "0X")
           then drop 2 (c :: r) else c :: r) None with
  | None => None
  | Some mathInt => Some (1 * mathInt)
  end.
Proof.
  intros Hw Hm Hp. unfold Number_parseInt16.
  cbn [skip_white_space]. rewrite Hw. cbn [head tail].
  rewrite (bool_decide_eq_false_2 (Some c = Some "-"%char)) by (by intros [= ?]).
  rewrite (bool_decide_eq_false_2 (Some c = Some "+"%char)) by (by intros [= ?]).
  done.
Qed.

Section HexProofs.
Variable encode : string -> list Byte.byte.
Variable decode : list Byte.byte -> string.

Lemma hexEncode_fallback data :
  hexEncode encode None data = concat (map hex_pair (_toUint8Array encode data)).
Proof.
  unfold hexEncode.
  replace (match data with Bytes b => b | Text s => encode s end)
    with (_toUint8Array encode data) by (by destruct data).
  f_equal. apply map_ext. intros x. apply hex_pair_spec.
Qed.

(** X5.  Without a native [toHex], [hexEncode] writes every byte of its
    input (the bytes themselves, or the encoding of a text) as two
    lower-case hexadecimal digits, the high half first: the output has
    twice as many characters as the input has bytes, all of them among
    [0-9a-f]. *)
Theorem hexEncode_two_digits_per_byte (data : operand) :
  hexEncode encode None data
    = concat (map hex_pair (_toUint8Array encode data)) /\
  length (hexEncode encode None data)
    = (2 * length (_toUint8Array encode data))%nat /\
  Forall is_lower_hex (hexEncode encode None data).
Proof.
  rewrite hexEncode_fallback. split; [done|].
  induction (_toUint8Array encode data) as [|x bs [IH1 IH2]]; [by split|].
  cbn [map concat]. rewrite length_app, IH1. split; [cbn; lia|].
  apply Forall_app. split; [|done].
  destruct (hex_pair_spec x) as (_ & H & _).
  eapply Forall_impl; [exact H|]. by intros c [_ ?].
Qed.

(** X6.  Hexadecimal round trip, on a platform without the native
    conversions: decoding what [hexEncode] wrote gives back the bytes, or,
    when a string is asked for, the platform's decoding of them (the empty
    string for no bytes).  The same holds after the digits were turned to
    upper case. *)
Theorem hex_round_trip (data : operand) (toString : option bool) :
  let bytes := _toUint8Array encode data in
  let result :=
    if bool_decide (toString = Some false) then Bytes bytes
    else Text (decoded_text decode bytes) in
  hexDecode decode None (Some (hexEncode encode None data)) toString
    = Returned result /\
  hexDecode decode None (Some (map upper_hex (hexEncode encode None data)))
    toString = Returned result.
Proof.
  intros bytes result. rewrite hexEncode_fallback. fold bytes.
  unfold hexDecode, result.
  destruct bytes as [|x bs]; [by destruct (bool_decide _)|].
  set (l := x :: bs).
  assert (fromHexString (concat (map hex_pair l)) = l) as H1.
  { rewrite <- (app_nil_r (concat _)), fromHexString_pairs. apply app_nil_r. }
  pose proof (fromHexString_upper l) as H2.
  rewrite H1, H2. unfold l, hex_pair.
  cbn [map concat app decoded_text].
  by destruct (bool_decide (toString = Some false)).
Qed.

(** X7.  What the fallback decoder accepts beyond the encoder's output.  A
    string of odd length is not rejected: its last digit is read as a byte
    of its own.  Line terminators are passed over wherever they stand,
    also between the two digits of a byte, which then are read as two
    bytes. *)
Theorem fromHexString_accepts (bs : list Byte.byte) :
  (forall d : Z, 0 <= d < 16 ->
     fromHexString (concat (map hex_pair bs) ++ [digit16 d])
       = bs ++ [ToUint8 (Some d)]) /\
  (forall (s1 s2 : list ascii) (c : ascii),
     is_LineTerminator c = true ->
     fromHexString (s1 ++ c :: s2) = fromHexString s1 ++ fromHexString s2) /\
  (forall (x : Byte.byte) (c : ascii),
     is_LineTerminator c = true ->
     fromHexString [digit16 (byte_val x / 16); c; digit16 (byte_val x mod 16)]
       = [ToUint8 (Some (byte_val x / 16));
          ToUint8 (Some (byte_val x mod 16))]).
Proof.
  assert (forall d : Z, 0 <= d < 16 ->
            is_LineTerminator (digit16 d) = false /\
            Number_parseInt16 [digit16 d] = Some d) as Hdigit.
  { intros d Hd.
    assert (hex_digit_check d = true) as H.
    { assert (d = 0 \/ d = 1 \/ d = 2 \/ d = 3 \/ d = 4 \/ d = 5 \/ d = 6 \/
              d = 7 \/ d = 8 \/ d = 9 \/ d = 10 \/ d = 11 \/ d = 12 \/
              d = 13 \/ d = 14 \/ d = 15) as Hcases by lia.
      destruct_or!; subst d; reflexivity. }
    apply andb_prop in H as [H1 H2].
    split; [by apply negb_true_iff|by apply bool_decide_eq_true in H2]. }
  assert (forall (s1 s2 : list ascii) (c : ascii),
            is_LineTerminator c = true ->
            fromHexString (s1 ++ c :: s2) = fromHexString s1 ++ fromHexString s2)
    as Hline.
  { intros s1 s2 c Hc.
    by rewrite !fromHexString_map, match_pairs_line, map_app. }
  split; [|split; [exact Hline|]].
  - intros d Hd. destruct (Hdigit d Hd) as [Hlt Hp].
    rewrite fromHexString_pairs. f_equal.
    unfold fromHexString. cbn [String_match_pairs]. rewrite Hlt.
    cbn [map]. by rewrite Hp.
  - intros x c Hc.
    assert (0 <= byte_val x / 16 < 16 /\ 0 <= byte_val x mod 16 < 16)
      as [Hhi Hlo].
    { pose proof (byte_val_bounds x). split; [|apply Z.mod_pos_bound; lia].
      split; [apply Z.div_pos; lia|apply Z.div_lt_upper_bound; lia]. }
    destruct (Hdigit _ Hhi) as [Hlt1 Hp1], (Hdigit _ Hlo) as [Hlt2 Hp2].
    change [digit16 (byte_val x / 16); c; digit16 (byte_val x mod 16)]
      with ([digit16 (byte_val x / 16)] ++ c :: [digit16 (byte_val x mod 16)]).
    rewrite (Hline _ _ c Hc).
    unfold fromHexString. cbn [String_match_pairs]. rewrite Hlt1, Hlt2.
    cbn [map app]. by rewrite Hp1, Hp2.
Qed.

(** X8.  The fallback decoder never rejects a string: what is not a pair
    of hexadecimal digits is still turned into a byte.  A pair that does
    not begin with a digit, white space or a sign gives the byte 0; a digit
    followed by another character gives the digit's value; a minus sign
    before a digit [d] gives the byte [256 - d]; and [0x] gives 0. *)
Theorem fromHexString_invalid_digits (c d : ascii) :
  is_LineTerminator c = false -> is_LineTerminator d = false ->
  (hex_value c = None -> is_StrWhiteSpaceChar c = false ->
   c <> "-"%char -> c <> "+"%char ->
   fromHexString [c; d] = [Byte.x00]) /\
  (forall v, hex_value c = Some v -> hex_value d = None ->
     fromHexString [c; d] = [ToUint8 (Some v)]) /\
  (forall v, c = "-"%char -> hex_value d = Some v ->
     fromHexString [c; d] = [ToUint8 (Some (- v))]).
Proof.
  intros Hc Hd. unfold fromHexString. cbn [String_match_pairs].
  rewrite Hc, Hd. cbn [map].
  split; [|split].
  - intros Hv Hw Hm Hp. do 2 f_equal.
    rewrite parseInt16_unsigned by done. cbn [take].
    rewrite !bool_decide_eq_false_2.
    + cbn [orb parse_digits16]. by rewrite Hv.
    + intros [= -> _]. done.
    + intros [= -> _]. done.
  - intros v Hv Hn. destruct (hex_value_digit c v Hv) as (Hw & Hm & Hp).
    rewrite parseInt16_unsigned by done. cbn [take].
    destruct (decide ([c; d] = chars "0x" \/ [c; d] = chars "0X")) as [H|H].
    + assert (bool_decide ([c; d] = chars "0x")
              || bool_decide ([c; d] = chars "0X") = true) as ->.
      { destruct H as [H|H]; rewrite (bool_decide_eq_true_2 _ H);
          [done|apply orb_true_r]. }
      assert (v = 0) as ->; [|done].
      destruct H as [[= -> _]|[= -> _]]; by injection Hv.
    + rewrite !bool_decide_eq_false_2 by tauto. cbn [orb parse_digits16].
      rewrite Hv, Hn. cbn [default from_option id]. do 3 f_equal. lia.
  - intros v -> Hv. unfold Number_parseInt16.
    cbn [skip_white_space].
    change (is_StrWhiteSpaceChar "-") with false. cbn [head tail].
    rewrite (bool_decide_eq_true_2 (Some "-"%char = Some "-"%char)) by done.
    cbn [orb take].
    rewrite (bool_decide_eq_false_2 ([d] = chars "0x")) by done.
    rewrite (bool_decide_eq_false_2 ([d] = chars "0X")) by done.
    cbn [orb parse_digits16].
    rewrite Hv. cbn [default from_option id]. done.
Qed.

End HexProofs.

Lemma fromHexString_invalid_digits_witness :
  fromHexString (chars "zz") = [Byte.x00].
Proof. apply (fromHexString_invalid_digits "z" "z"); done. Defined.

Example fromHexString_samples :
  fromHexString (chars "zz") = [Byte.x00] /\
  fromHexString (chars "-1") = [Byte.xff] /\
  fromHexString (chars "1g") = [Byte.x01] /\
  fromHexString (chars "abc") = [Byte.xab; Byte.x0c].
Proof. vm_compute. repeat split. Qed.

(** ** Base64 *)

Lemma list_ind3 {A} (P : list A -> Prop) :
  P [] -> (forall a, P [a]) -> (forall a b, P [a; b]) ->
  (forall a b c l, P l -> P (a :: b :: c :: l)) ->
  forall l, P l.
Proof.
  intros H0 H1 H2 H3 l.
  assert (forall n l, (length l <= n)%nat -> P l) as H.
  { clear l. induction n as [|n IH]; intros l Hl.
    - destruct l; [done|cbn in Hl; lia].
    - destruct l as [|a [|b [|c l]]]; try done.
      apply H3, IH. cbn in Hl. lia. }
  by apply (H (length l)).
Qed.

Lemma base64_digit_spec (n : Z) :
  0 <= n < 64 -> base64_digit_check n = true.
Proof.
  intros Hn.
  assert (forallb base64_digit_check (map Z.of_nat (seq 0 64)) = true) as H
    by (vm_compute; reflexivity).
  rewrite forallb_forall in H. apply H, in_map_iff.
  exists (Z.to_nat n). split; [lia|]. apply in_seq. lia.
Qed.

Lemma base64_digit_value n : 0 <= n < 64 -> base64_value (base64_digit n) = Some n.
Proof.
  intros H%base64_digit_spec. unfold base64_digit_check in H.
  repeat (apply andb_prop in H as [H _]). by apply bool_decide_eq_true in H.
Qed.

Lemma base64_digit_plain n :
  0 <= n < 64 ->
  is_ASCII_whitespace (base64_digit n) = false /\ base64_digit n <> "="%char.
Proof.
  intros H%base64_digit_spec. unfold base64_digit_check in H.
  do 4 (apply andb_prop in H as [H _]).
  apply andb_prop in H as [H H3]. apply andb_prop in H as [_ H2].
  split; [by apply negb_true_iff|by apply bool_decide_eq_true in H3].
Qed.

Lemma base64_digit_url n :
  0 <= n < 64 ->
  String_replace_char "/" "_" (String_replace_char "+" "-" [base64_digit n])
    = [base64url_digit n] /\
  String_replace_char "_" "/" (String_replace_char "-" "+" [base64url_digit n])
    = [base64_digit n] /\
  (base64url_digit n ∉ chars "+/=") /\
  String_replace_char "_" "/" (String_replace_char "-" "+" [base64_digit n])
    = [base64_digit n].
Proof.
  intros H%base64_digit_spec. unfold base64_digit_check in H.
  apply andb_prop in H as [H H7]. apply andb_prop in H as [H H6].
  apply andb_prop in H as [H H5]. apply andb_prop in H as [_ H4].
  apply bool_decide_eq_true in H4, H5, H6, H7. done.
Qed.

Lemma byte_char_spec (x : Byte.byte) :
  char_code (ascii_of_code (byte_val x)) = byte_val x /\
  ToUint8 (Some (byte_val x)) = x.
Proof.
  assert (byte_char_check x = true) as H by (destruct x; vm_compute; reflexivity).
  apply andb_prop in H as [H1 H2].
  split; [by apply bool_decide_eq_true in H1|by apply Byte.byte_dec_bl].
Qed.

Lemma sextets_range codes : Forall is_octet codes -> Forall is_sextet (sextets codes).
Proof.
  unfold is_octet, is_sextet.
  induction codes as [|a|a b|a b c l IH] using list_ind3; intros H.
  - constructor.
  - apply Forall_cons in H as [Ha _]. cbn.
    repeat constructor; try (apply Z.div_pos; lia);
      try (apply Z.div_lt_upper_bound; lia);
      pose proof (Z.mod_pos_bound a 4 ltac:(lia)); lia.
  - apply Forall_cons in H as [Ha H]. apply Forall_cons in H as [Hb _]. cbn.
    pose proof (Z.mod_pos_bound a 4 ltac:(lia)).
    pose proof (Z.mod_pos_bound b 16 ltac:(lia)).
    assert (0 <= a / 4 < 64)
      by (split; [apply Z.div_pos|apply Z.div_lt_upper_bound]; lia).
    assert (0 <= b / 16 < 16)
      by (split; [apply Z.div_pos|apply Z.div_lt_upper_bound]; lia).
    repeat constructor; lia.
  - apply Forall_cons in H as [Ha H]. apply Forall_cons in H as [Hb H].
    apply Forall_cons in H as [Hc H]. cbn [sextets].
    pose proof (Z.mod_pos_bound a 4 ltac:(lia)).
    pose proof (Z.mod_pos_bound b 16 ltac:(lia)).
    pose proof (Z.mod_pos_bound c 64 ltac:(lia)).
    assert (0 <= a / 4 < 64)
      by (split; [apply Z.div_pos|apply Z.div_lt_upper_bound]; lia).
    assert (0 <= b / 16 < 16)
      by (split; [apply Z.div_pos|apply Z.div_lt_upper_bound]; lia).
    assert (0 <= c / 64 < 4)
      by (split; [apply Z.div_pos|apply Z.div_lt_upper_bound]; lia).
    repeat (apply Forall_cons; split; [lia|]). by apply IH.
Qed.

Lemma octets_sextets codes : Forall is_octet codes -> octets (sextets codes) = codes.
Proof.
  unfold is_octet.
  induction codes as [|a|a b|a b c l IH] using list_ind3; intros H.
  - done.
  - apply Forall_cons in H as [Ha _]. cbn. f_equal.
    Z.div_mod_to_equations. lia.
  - apply Forall_cons in H as [Ha H]. apply Forall_cons in H as [Hb _]. cbn.
    f_equal; [|f_equal]; Z.div_mod_to_equations; lia.
  - apply Forall_cons in H as [Ha H]. apply Forall_cons in H as [Hb H].
    apply Forall_cons in H as [Hc H]. cbn [sextets octets].
    rewrite IH by done.
    f_equal; [|f_equal; [|f_equal]]; Z.div_mod_to_equations; lia.
Qed.

(** The number of 6-bit groups and of padding characters. *)
Lemma sextets_length codes :
  (length (sextets codes) mod 4 <> 1)%nat /\
  ((3 - length codes mod 3) mod 3 <= 2)%nat /\
  ((length (sextets codes) + (3 - length codes mod 3) mod 3) mod 4 = 0)%nat /\
  (length (sextets codes) + (3 - length codes mod 3) mod 3
   = 4 * ((length codes + 2) / 3))%nat.
Proof.
  induction codes as [|a|a b|a b c l IH] using list_ind3;
    [cbn; repeat split; lia..|].
  cbn [sextets length].
  set (n := length l) in *. set (m := length (sextets l)) in *.
  replace (S (S (S n)) mod 3)%nat with (n mod 3)%nat
    by (change (S (S (S n))) with (3 + n)%nat;
        rewrite <- (Nat.Div0.mod_add n 1 3); f_equal; lia).
  replace ((S (S (S n)) + 2) / 3)%nat with (S ((n + 2) / 3))
    by (replace (S (S (S n)) + 2)%nat with ((n + 2) + 1 * 3)%nat by lia;
        rewrite Nat.div_add by lia; lia).
  destruct IH as (I1 & I2 & I3 & I4).
  split; [|split; [done|split]].
  - change (S (S (S (S m)))) with (4 + m)%nat.
    replace (4 + m)%nat with (m + 1 * 4)%nat by lia.
    by rewrite Nat.Div0.mod_add.
  - replace (S (S (S (S m))) + (3 - n mod 3) mod 3)%nat
      with ((m + (3 - n mod 3) mod 3) + 1 * 4)%nat by lia.
    by rewrite Nat.Div0.mod_add.
  - lia.
Qed.

Lemma filter_all {A} (P : A -> Prop) `{!forall x, Decision (P x)} (l : list A) :
  Forall P l -> filter P l = l.
Proof.
  induction 1 as [|x l Hx Hl IH]; [done|].
  by rewrite filter_cons_True, IH.
Qed.

Lemma filter_none {A} (P : A -> Prop) `{!forall x, Decision (P x)} (l : list A) :
  Forall (fun x => ~ P x) l -> filter P l = [].
Proof.
  induction 1 as [|x l Hx Hl IH]; [done|].
  by rewrite filter_cons_False.
Qed.

Lemma strip_padding_body (body : list ascii) (p : nat) :
  Forall (fun c => c <> "="%char) body ->
  p = O \/ ((p <= 2)%nat /\ ((length body + p) mod 4 = 0)%nat) ->
  strip_padding (body ++ replicate p "="%char) = body.
Proof.
  intros Hbody Hp. unfold strip_padding.
  rewrite length_app, length_replicate.
  destruct (Nat.eqb_spec ((length body + p) mod 4) 0) as [Hmod|Hmod].
  2:{ destruct Hp as [->|[_ ?]]; [|done]. apply app_nil_r. }
  assert (p = 0 \/ p = 1 \/ p = 2)%nat as [-> | [-> | ->]]
    by (destruct Hp as [->|[? _]]; lia).
  - cbn [replicate]. rewrite app_nil_r, Nat.add_0_r.
    rewrite !bool_decide_eq_false_2; [done| |].
    + intros H. pose proof (Forall_drop _ (length body - 1) _ Hbody) as Hd.
      rewrite H in Hd. by apply Forall_cons in Hd as [? _].
    + intros H. pose proof (Forall_drop _ (length body - 2) _ Hbody) as Hd.
      rewrite H in Hd. by apply Forall_cons in Hd as [? _].
  - cbn [replicate].
    assert (length body <> 0)%nat as Hne
      by (intros E; rewrite E in Hmod; done).
    replace (length body + 1 - 2)%nat with (length body - 1)%nat by lia.
    replace (length body + 1 - 1)%nat with (length body) by lia.
    rewrite drop_app_le by lia.
    rewrite bool_decide_eq_false_2.
    + rewrite drop_app_length, bool_decide_eq_true_2 by done.
      apply take_app_length.
    + intros H. pose proof (Forall_drop _ (length body - 1) _ Hbody) as Hd.
      destruct (drop (length body - 1) body) as [|x l] eqn:E.
      * apply (f_equal length) in E. rewrite length_drop in E. cbn in E. lia.
      * apply Forall_cons in Hd as [Hx _]. by injection H.
  - cbn [replicate].
    replace (length body + 2 - 2)%nat with (length body) by lia.
    rewrite drop_app_length, bool_decide_eq_true_2 by done.
    apply take_app_length.
Qed.

Lemma atob_digits (ss : list Z) (p : nat) :
  Forall is_sextet ss ->
  (length ss mod 4 <> 1)%nat ->
  p = O \/ ((p <= 2)%nat /\ ((length ss + p) mod 4 = 0)%nat) ->
  atob (map base64_digit ss ++ replicate p "="%char)
  = Returned (map ascii_of_code (octets ss)).
Proof.
  intros Hss Hlen Hp. unfold atob.
  assert (Forall (fun c => is_ASCII_whitespace c = false /\ c <> "="%char)
            (map base64_digit ss)) as Hbody.
  { apply Forall_fmap. eapply Forall_impl; [exact Hss|].
    intros n Hn. by apply base64_digit_plain. }
  rewrite filter_all.
  2:{ apply Forall_app. split.
      - eapply Forall_impl; [exact Hbody|]. by intros c [? _].
      - by apply Forall_replicate. }
  rewrite strip_padding_body.
  2:{ eapply Forall_impl; [exact Hbody|]. by intros c [_ ?]. }
  2:{ by rewrite length_map. }
  rewrite length_map.
  destruct (Nat.eqb_spec (length ss mod 4) 1) as [?|_]; [done|].
  assert (mapM base64_value (map base64_digit ss) = Some ss) as ->; [|done].
  apply mapM_Some. clear Hlen Hp Hbody.
  induction Hss as [|n ss Hn Hss IH]; [constructor|].
  cbn [map]. constructor; [by apply base64_digit_value|done].
Qed.

Lemma fromCodePoint_codes (bytes : list Byte.byte) :
  map char_code (String_fromCodePoint bytes) = map byte_val bytes.
Proof.
  unfold String_fromCodePoint. rewrite map_map. apply map_ext.
  intros x. apply byte_char_spec.
Qed.

Lemma from_string_fromCodePoint (bytes : list Byte.byte) :
  Uint8Array_from_string (String_fromCodePoint bytes) = bytes.
Proof.
  unfold Uint8Array_from_string, String_fromCodePoint. rewrite map_map.
  rewrite <- (map_id bytes) at 2. apply map_ext. intros x.
  destruct (byte_char_spec x) as [-> H]. exact H.
Qed.

Lemma byte_vals_octets (bytes : list Byte.byte) :
  Forall is_octet (map byte_val bytes).
Proof. apply Forall_fmap, Forall_forall. intros x _. apply byte_val_bounds. Qed.

Lemma btoa_bytes (bytes : list Byte.byte) :
  btoa (String_fromCodePoint bytes)
  = map base64_digit (sextets (map byte_val bytes))
      ++ replicate ((3 - length bytes mod 3) mod 3) "="%char.
Proof. unfold btoa. by rewrite fromCodePoint_codes, length_map. Qed.

Lemma octets_bytes (bytes : list Byte.byte) :
  map ascii_of_code (octets (sextets (map byte_val bytes)))
  = String_fromCodePoint bytes.
Proof.
  rewrite octets_sextets by apply byte_vals_octets.
  unfold String_fromCodePoint. by rewrite map_map.
Qed.

Lemma atob_btoa (bytes : list Byte.byte) :
  atob (btoa (String_fromCodePoint bytes)) = Returned (String_fromCodePoint bytes).
Proof.
  rewrite btoa_bytes.
  destruct (sextets_length (map byte_val bytes)) as (H1 & H2 & H3 & _).
  rewrite length_map in H2, H3.
  rewrite atob_digits; [by rewrite octets_bytes| |done|by right].
  apply sextets_range, byte_vals_octets.
Qed.

Lemma btoa_nonempty (x : Byte.byte) (bs : list Byte.byte) :
  btoa (String_fromCodePoint (x :: bs)) <> [].
Proof.
  intros H. apply (f_equal length) in H. rewrite btoa_bytes in H.
  destruct (sextets_length (map byte_val (x :: bs))) as (_ & _ & _ & H4).
  rewrite length_app, length_map, length_replicate in H.
  rewrite length_map in H4. cbn [length] in H, H4.
  assert (1 <= (S (length bs) + 2) / 3)%nat
    by (apply Nat.div_le_lower_bound; lia).
  lia.
Qed.

Lemma replace_char_app c r (s1 s2 : list ascii) :
  String_replace_char c r (s1 ++ s2)
  = String_replace_char c r s1 ++ String_replace_char c r s2.
Proof. apply map_app. Qed.

Lemma replace_char_cons c r x (s : list ascii) :
  String_replace_char c r (x :: s)
  = String_replace_char c r [x] ++ String_replace_char c r s.
Proof. done. Qed.

Lemma to_url_digits (ss : list Z) :
  Forall is_sextet ss ->
  String_replace_char "/" "_" (String_replace_char "+" "-" (map base64_digit ss))
  = map base64url_digit ss.
Proof.
  induction 1 as [|n ss Hn Hss IH]; [done|].
  cbn [map]. rewrite (replace_char_cons "+"), replace_char_app.
  rewrite IH. by destruct (base64_digit_url n Hn) as (-> & _).
Qed.

Lemma from_url_digits (ss : list Z) :
  Forall is_sextet ss ->
  String_replace_char "_" "/" (String_replace_char "-" "+" (map base64url_digit ss))
  = map base64_digit ss.
Proof.
  induction 1 as [|n ss Hn Hss IH]; [done|].
  cbn [map]. rewrite (replace_char_cons "-"), replace_char_app.
  rewrite IH. by destruct (base64_digit_url n Hn) as (_ & -> & _).
Qed.

Lemma from_url_standard (ss : list Z) :
  Forall is_sextet ss ->
  String_replace_char "_" "/" (String_replace_char "-" "+" (map base64_digit ss))
  = map base64_digit ss.
Proof.
  induction 1 as [|n ss Hn Hss IH]; [done|].
  cbn [map]. rewrite (replace_char_cons "-"), replace_char_app.
  rewrite IH. by destruct (base64_digit_url n Hn) as (_ & _ & _ & ->).
Qed.

Lemma replace_padding c r (p : nat) :
  c <> "="%char ->
  String_replace_char c r (replicate p "="%char) = replicate p "="%char.
Proof.
  intros Hc. induction p as [|p IH]; [done|].
  cbn [replicate]. rewrite replace_char_cons, IH.
  unfold String_replace_char. cbn [map app].
  by rewrite bool_decide_eq_false_2 by (by intros <-).
Qed.

Lemma pad_loop_spec (fuel : nat) (s : list ascii) :
  ((4 - length s mod 4) mod 4 <= fuel)%nat ->
  pad_loop fuel s
  = Returned (s ++ replicate ((4 - length s mod 4) mod 4) "="%char).
Proof.
  revert s. induction fuel as [|fuel IH]; intros s Hk.
  - cbn [pad_loop].
    pose proof (Nat.mod_upper_bound (length s) 4 ltac:(lia)) as Hm.
    destruct (Nat.eqb_spec (length s mod 4) 0) as [E|E].
    + rewrite E. cbn. by rewrite app_nil_r.
    + exfalso. revert Hk.
      assert (length s mod 4 = 1 \/ length s mod 4 = 2 \/ length s mod 4 = 3)%nat
        as [-> | [-> | ->]] by lia; cbn; lia.
  - cbn [pad_loop].
    pose proof (Nat.mod_upper_bound (length s) 4 ltac:(lia)) as Hm.
    pose proof (Nat.div_mod_eq (length s) 4) as Hdm.
    destruct (Nat.eqb_spec (length s mod 4) 0) as [E|E].
    + rewrite E. cbn. by rewrite app_nil_r.
    + assert (length (s ++ ["="%char]) mod 4 = S (length s mod 4) mod 4)%nat as E'.
      { rewrite length_app. cbn [length].
        rewrite <- Nat.Div0.add_mod_idemp_l. f_equal. lia. }
      rewrite IH.
      * rewrite <- app_assoc. do 2 f_equal. rewrite E'.
        assert (length s mod 4 = 1 \/ length s mod 4 = 2 \/ length s mod 4 = 3)%nat
          as [-> | [-> | ->]] by lia; reflexivity.
      * rewrite E'. revert Hk.
        assert (length s mod 4 = 1 \/ length s mod 4 = 2 \/ length s mod 4 = 3)%nat
          as [-> | [-> | ->]] by lia; cbn; lia.
Qed.

Lemma padding_count (m p : nat) :
  (m mod 4 <> 1)%nat -> (p <= 2)%nat -> ((m + p) mod 4 = 0)%nat ->
  ((4 - m mod 4) mod 4 = p)%nat.
Proof.
  intros H1 H2 H3.
  pose proof (Nat.mod_upper_bound m 4 ltac:(lia)) as Hm.
  rewrite <- Nat.Div0.add_mod_idemp_l in H3.
  assert (m mod 4 = 0 \/ m mod 4 = 2 \/ m mod 4 = 3)%nat as [E | [E | E]] by lia;
    rewrite E in *;
    (assert (p = 0 \/ p = 1 \/ p = 2)%nat as [-> | [-> | ->]] by lia);
    cbn in *; lia.
Qed.

Lemma strip_padding_keeps (c : ascii) (l : list ascii) :
  c ∈ l -> c <> "="%char -> c ∈ strip_padding l.
Proof.
  intros Hin Hc. unfold strip_padding.
  destruct (length l mod 4 =? 0)%nat; [|done].
  case_bool_decide as H2.
  - rewrite <- (take_drop (length l - 2) l), H2 in Hin.
    apply elem_of_app in Hin as [?|Hin]; [done|].
    repeat (apply elem_of_cons in Hin as [->|Hin]; [done|]).
    by apply elem_of_nil in Hin.
  - case_bool_decide as H1; [|done].
    rewrite <- (take_drop (length l - 1) l), H1 in Hin.
    apply elem_of_app in Hin as [?|Hin]; [done|].
    repeat (apply elem_of_cons in Hin as [->|Hin]; [done|]).
    by apply elem_of_nil in Hin.
Qed.

Lemma atob_rejects (c : ascii) (str : list ascii) :
  c ∈ str -> base64_value c = None -> is_ASCII_whitespace c = false ->
  c <> "="%char ->
  atob str = Threw ERR_INVALID_CHARACTER.
Proof.
  intros Hin Hv Hw Hc. unfold atob.
  set (data := strip_padding _).
  assert (c ∈ data) as Hdata.
  { apply strip_padding_keeps; [|done]. by apply list_elem_of_filter. }
  destruct (length data mod 4 =? 1)%nat; [done|].
  destruct (mapM base64_value data) as [ss|] eqn:E; [|done].
  assert (is_Some (mapM base64_value data)) as Hs by (by rewrite E).
  apply mapM_is_Some in Hs. rewrite Forall_forall in Hs.
  destruct (Hs c Hdata) as [v Hv']. unfold compose in Hv'.
  rewrite Hv in Hv'. done.
Qed.

Section Base64Proofs.
Variable encode : string -> list Byte.byte.
Variable decode : list Byte.byte -> string.

Lemma base64Encode_fallback data :
  base64Encode encode None data
  = btoa (String_fromCodePoint (_toUint8Array encode data)).
Proof. unfold base64Encode. by destruct data. Qed.

Lemma base64UrlEncode_fallback data :
  base64UrlEncode encode None data
  = map base64url_digit (sextets (map byte_val (_toUint8Array encode data))).
Proof.
  unfold base64UrlEncode.
  replace (match data with Bytes b => b | Text s => encode s end)
    with (_toUint8Array encode data) by (by destruct data).
  set (bytes := _toUint8Array encode data).
  pose proof (sextets_range _ (byte_vals_octets bytes)) as Hss.
  rewrite btoa_bytes, !replace_char_app, !replace_padding by done.
  rewrite to_url_digits by done.
  unfold String_remove_char. rewrite filter_app.
  rewrite filter_all, filter_none; [apply app_nil_r| |].
  - apply Forall_replicate. by intros H.
  - apply Forall_fmap. eapply Forall_impl; [exact Hss|].
    intros n Hn. destruct (base64_digit_url n Hn) as (_ & _ & Hnot & _).
    unfold compose. intros Heq. apply Hnot. rewrite Heq.
    do 2 apply list_elem_of_further. apply list_elem_of_here.
Qed.

Lemma base64Decode_atob (str : list ascii) (s : list ascii) toString bytes :
  str <> [] -> atob str = Returned s -> Uint8Array_from_string s = bytes ->
  bytes <> [] ->
  base64Decode decode None (Some str) toString
  = Returned (decoded decode toString bytes).
Proof.
  intros Hne Ha Hs Hb. unfold base64Decode, decoded.
  destruct str as [|c str]; [done|]. rewrite Ha, Hs.
  destruct bytes; [done|]. cbn [decoded_text].
  by destruct (bool_decide (toString = Some false)).
Qed.

Lemma base64UrlDecode_atob fuel (str str' : list ascii) (s : list ascii)
    toString bytes :
  str <> [] ->
  pad_loop fuel (String_replace_char "_" "/" (String_replace_char "-" "+" str))
    = Returned str' ->
  atob str' = Returned s -> Uint8Array_from_string s = bytes ->
  bytes <> [] ->
  base64UrlDecode decode None fuel (Some str) toString
  = Returned (decoded decode toString bytes).
Proof.
  intros Hne Hp Ha Hs Hb. unfold base64UrlDecode, decoded.
  destruct str as [|c str]; [done|]. rewrite Hp, Ha, Hs.
  destruct bytes; [done|]. cbn [decoded_text].
  by destruct (bool_decide (toString = Some false)).
Qed.

Lemma decoded_empty toString :
  decoded decode toString []
  = if negb (bool_decide (toString = Some false)) then Text EmptyString
    else Bytes [].
Proof. unfold decoded. by destruct (bool_decide _). Qed.

(** The round trip of [base64Encode] where the spread call goes through. *)
Lemma base64Encode_decodes (data : operand) (toString : option bool) :
  let bytes := _toUint8Array encode data in
  base64Decode decode None (Some (base64Encode encode None data)) toString
    = Returned (decoded decode toString bytes) /\
  base64Decode decode None
    (Some (String_remove_char "=" (base64Encode encode None data))) toString
    = Returned (decoded decode toString bytes) /\
  length (base64Encode encode None data) = (4 * ((length bytes + 2) / 3))%nat /\
  Forall (fun c => c ∈ BASE64 \/ c = "="%char) (base64Encode encode None data).
Proof.
  intros bytes. rewrite base64Encode_fallback. fold bytes. clearbody bytes.
  pose proof (sextets_range _ (byte_vals_octets bytes)) as Hss.
  destruct (sextets_length (map byte_val bytes)) as (H1 & H2 & H3 & H4).
  rewrite length_map in H2, H3, H4.
  assert (String_remove_char "=" (btoa (String_fromCodePoint bytes))
          = map base64_digit (sextets (map byte_val bytes))) as Hbody.
  { rewrite btoa_bytes. unfold String_remove_char.
    rewrite filter_app, filter_all, filter_none; [apply app_nil_r| |].
    - apply Forall_replicate. by intros H.
    - apply Forall_fmap. eapply Forall_impl; [exact Hss|].
      intros n Hn. by apply base64_digit_plain. }
  split; [|split; [|split]].
  - destruct bytes as [|x bs]; [by rewrite decoded_empty|].
    eapply base64Decode_atob;
      [apply btoa_nonempty|apply atob_btoa|apply from_string_fromCodePoint|done].
  - rewrite Hbody.
    destruct bytes as [|x bs]; [by rewrite decoded_empty|].
    eapply base64Decode_atob.
    + intros Hnil. apply (f_equal length) in Hnil.
      rewrite length_map in Hnil. cbn [length] in H2, H4, Hnil.
      assert (1 <= (S (length bs) + 2) / 3)%nat
        by (apply Nat.div_le_lower_bound; lia).
      lia.
    + rewrite <- (app_nil_r (map _ _)).
      apply (atob_digits _ O); [done|done|by left].
    + rewrite octets_bytes. apply from_string_fromCodePoint.
    + done.
  - by rewrite btoa_bytes, length_app, length_map, length_replicate.
  - rewrite btoa_bytes. apply Forall_app. split.
    + apply Forall_fmap, Forall_forall. intros n _. left.
      unfold base64_digit.
      destruct (nth_in_or_default (Z.to_nat n) BASE64 "A"%char) as [H| ->].
      * by apply list_elem_of_In.
      * apply list_elem_of_here.
    + apply Forall_replicate. by right.
Qed.

Lemma pad_loop_digits fuel (bytes : list Byte.byte) :
  (2 <= fuel)%nat ->
  pad_loop fuel (map base64_digit (sextets (map byte_val bytes)))
  = Returned (btoa (String_fromCodePoint bytes)).
Proof.
  intros Hfuel.
  destruct (sextets_length (map byte_val bytes)) as (H1 & H2 & H3 & _).
  rewrite length_map in H2, H3.
  pose proof (padding_count _ _ H1 H2 H3) as Hk.
  rewrite pad_loop_spec; rewrite length_map, Hk; [|lia].
  by rewrite btoa_bytes.
Qed.

Lemma pad_loop_padded fuel (bytes : list Byte.byte) :
  pad_loop fuel (btoa (String_fromCodePoint bytes))
  = Returned (btoa (String_fromCodePoint bytes)).
Proof.
  destruct (sextets_length (map byte_val bytes)) as (_ & _ & H3 & _).
  rewrite length_map in H3.
  assert (length (btoa (String_fromCodePoint bytes)) mod 4 = 0)%nat as E
    by (by rewrite btoa_bytes, length_app, length_map, length_replicate).
  destruct fuel; cbn [pad_loop]; by rewrite E.
Qed.

Lemma digits_nonempty (x : Byte.byte) (bs : list Byte.byte) (f : Z -> ascii) :
  map f (sextets (map byte_val (x :: bs))) <> [].
Proof.
  intros Hnil. apply (f_equal length) in Hnil. rewrite length_map in Hnil.
  destruct (sextets_length (map byte_val (x :: bs))) as (_ & H2 & _ & H4).
  rewrite length_map in H2, H4. cbn [length] in H2, H4, Hnil.
  assert (1 <= (S (length bs) + 2) / 3)%nat
    by (apply Nat.div_le_lower_bound; lia).
  lia.
Qed.

(** The round trip of [base64UrlEncode] where the spread call goes
    through. *)
Lemma base64UrlEncode_decodes (data : operand) (toString : option bool)
    (fuel : nat) :
  (2 <= fuel)%nat ->
  let bytes := _toUint8Array encode data in
  base64UrlEncode encode None data
    = map base64url_digit (sextets (map byte_val bytes)) /\
  Forall (fun c => c ∉ chars "+/=") (base64UrlEncode encode None data) /\
  base64UrlDecode decode None fuel (Some (base64UrlEncode encode None data))
    toString = Returned (decoded decode toString bytes).
Proof.
  intros Hfuel bytes. rewrite base64UrlEncode_fallback. fold bytes.
  clearbody bytes.
  pose proof (sextets_range _ (byte_vals_octets bytes)) as Hss.
  split; [done|]. split.
  - apply Forall_fmap. eapply Forall_impl; [exact Hss|].
    intros n Hn. by destruct (base64_digit_url n Hn) as (_ & _ & Hnot & _).
  - destruct bytes as [|x bs]; [by rewrite decoded_empty|].
    eapply base64UrlDecode_atob.
    + apply digits_nonempty.
    + rewrite from_url_digits by done. by apply pad_loop_digits.
    + apply atob_btoa.
    + apply from_string_fromCodePoint.
    + done.
Qed.

(** [base64UrlDecode] on the output of [base64Encode], and [base64Decode]
    on a character that is not of its alphabet. *)
Lemma base64_decoders_cross (toString : option bool) :
  (forall (data : operand) (fuel : nat),
     base64UrlDecode decode None fuel (Some (base64Encode encode None data))
       toString
     = Returned (decoded decode toString (_toUint8Array encode data))) /\
  (forall (str : list ascii) (c : ascii),
     c ∈ str -> base64_value c = None -> is_ASCII_whitespace c = false ->
     c <> "="%char ->
     base64Decode decode None (Some str) toString
       = Threw ERR_INVALID_CHARACTER) /\
  (forall str : list ascii,
     "-"%char ∈ str \/ "_"%char ∈ str ->
     base64Decode decode None (Some str) toString
       = Threw ERR_INVALID_CHARACTER).
Proof.
  assert (forall (str : list ascii) (c : ascii),
            c ∈ str -> base64_value c = None ->
            is_ASCII_whitespace c = false -> c <> "="%char ->
            base64Decode decode None (Some str) toString
              = Threw ERR_INVALID_CHARACTER) as Hrej.
  { intros str c Hin Hv Hw Hc. unfold base64Decode.
    destruct str as [|c' str]; [by apply elem_of_nil in Hin|].
    by rewrite (atob_rejects c (c' :: str)). }
  split; [|split; [exact Hrej|]].
  - intros data fuel. rewrite base64Encode_fallback.
    set (bytes := _toUint8Array encode data). clearbody bytes.
    destruct bytes as [|x bs]; [by rewrite decoded_empty|].
    pose proof (sextets_range _ (byte_vals_octets (x :: bs))) as Hss.
    eapply base64UrlDecode_atob.
    + apply btoa_nonempty.
    + rewrite btoa_bytes, !replace_char_app, !replace_padding by done.
      rewrite from_url_standard by done. rewrite <- btoa_bytes.
      apply pad_loop_padded.
    + apply atob_btoa.
    + apply from_string_fromCodePoint.
    + done.
  - intros str [H|H]; eapply Hrej; try exact H; done.
Qed.

End Base64Proofs.

Lemma remove_padding_digits (bytes : list Byte.byte) :
  String_remove_char "=" (btoa (String_fromCodePoint bytes))
  = map base64_digit (sextets (map byte_val bytes)).
Proof.
  pose proof (sextets_range _ (byte_vals_octets bytes)) as Hss.
  rewrite btoa_bytes. unfold String_remove_char.
  rewrite filter_app, filter_all, filter_none; [apply app_nil_r| |].
  - apply Forall_replicate. by intros H.
  - apply Forall_fmap. eapply Forall_impl; [exact Hss|].
    intros n Hn. by apply base64_digit_plain.
Qed.

Lemma base64url_digit_low n :
  0 <= n < 62 -> base64url_digit n = base64_digit n.
Proof.
  intros Hn.
  assert (forallb (fun n => bool_decide (base64url_digit n = base64_digit n))
            (map Z.of_nat (seq 0 62)) = true) as H
    by (vm_compute; reflexivity).
  rewrite forallb_forall in H. specialize (H n).
  cbv beta in H. apply bool_decide_eq_true in H; [done|].
  apply in_map_iff. exists (Z.to_nat n). split; [lia|]. apply in_seq. lia.
Qed.

Lemma base64url_digit_high n :
  62 <= n < 64 -> base64url_digit n = "-"%char \/ base64url_digit n = "_"%char.
Proof.
  intros Hn. assert (n = 62 \/ n = 63) as [-> | ->] by lia; [by left|by right].
Qed.

Section SpreadProofs.
Variable max_arguments : nat.
Variable refusal : string.
Variable encode : string -> list Byte.byte.
Variable decode : list Byte.byte -> string.

Lemma spread_base64Encode data :
  Spread.base64Encode max_arguments refusal encode None data
  = if (length (_toUint8Array encode data) <=? max_arguments)%nat
    then Returned (base64Encode encode None data)
    else Threw (RangeError refusal).
Proof.
  unfold Spread.base64Encode, Spread.String_fromCodePoint.
  rewrite base64Encode_fallback.
  replace (match data with Bytes b => b | Text s => encode s end)
    with (_toUint8Array encode data) by (by destruct data).
  by destruct (_ <=? _)%nat.
Qed.

Lemma spread_base64UrlEncode data :
  Spread.base64UrlEncode max_arguments refusal encode None data
  = if (length (_toUint8Array encode data) <=? max_arguments)%nat
    then Returned (base64UrlEncode encode None data)
    else Threw (RangeError refusal).
Proof.
  unfold Spread.base64UrlEncode, Spread.String_fromCodePoint, base64UrlEncode.
  replace (match data with Bytes b => b | Text s => encode s end)
    with (_toUint8Array encode data) by (by destruct data).
  by destruct (_ <=? _)%nat.
Qed.

(** X9.  Base64 on a platform without the native conversions.  While the
    bytes of the input are no more than the engine takes as arguments of
    one call, [base64Encode] writes four characters of the Base64 alphabet
    or padding for every three bytes begun, and [base64Decode] reads them
    back as the bytes, or as the platform's decoding of them when a string
    is asked for (the empty string for no bytes), with the padding or
    without it.  With more bytes [base64Encode] throws the engine's
    [RangeError].  Where the platform has [toBase64] there is no such
    limit. *)
Theorem base64_round_trip (data : operand) (toString : option bool) :
  let bytes := _toUint8Array encode data in
  ((length bytes <= max_arguments)%nat ->
   exists s,
     Spread.base64Encode max_arguments refusal encode None data = Returned s /\
     length s = (4 * ((length bytes + 2) / 3))%nat /\
     Forall (fun c => c ∈ BASE64 \/ c = "="%char) s /\
     base64Decode decode None (Some s) toString
       = Returned (decoded decode toString bytes) /\
     base64Decode decode None (Some (String_remove_char "=" s)) toString
       = Returned (decoded decode toString bytes)) /\
  ((max_arguments < length bytes)%nat ->
   Spread.base64Encode max_arguments refusal encode None data
     = Threw (RangeError refusal)) /\
  (forall toBase64 : bool -> list Byte.byte -> list ascii,
     Spread.base64Encode max_arguments refusal encode (Some toBase64) data
       = Returned (toBase64 false bytes)).
Proof.
  intros bytes. rewrite spread_base64Encode. fold bytes.
  split; [|split].
  - intros Hle. rewrite (proj2 (Nat.leb_le _ _) Hle).
    destruct (base64Encode_decodes encode decode data toString)
      as (H1 & H2 & H3 & H4).
    by exists (base64Encode encode None data).
  - intros Hlt. by rewrite (proj2 (Nat.leb_gt _ _) Hlt).
  - intros toBase64. unfold Spread.base64Encode, bytes. by destruct data.
Qed.

(** X10.  URL-safe Base64 on a platform without the native conversions.
    While the bytes of the input are no more than the engine takes as
    arguments of one call, [base64UrlEncode] writes their 6-bit groups in
    the URL alphabet, so its output holds no [+], no [/] and no padding,
    and [base64UrlDecode] reads it back as the bytes (or their decoding as
    a text), its padding loop having run twice at most.  With more bytes
    [base64UrlEncode] throws the engine's [RangeError]. *)
Theorem base64url_round_trip (data : operand) (toString : option bool)
    (fuel : nat) :
  (2 <= fuel)%nat ->
  let bytes := _toUint8Array encode data in
  ((length bytes <= max_arguments)%nat ->
   exists s,
     Spread.base64UrlEncode max_arguments refusal encode None data
       = Returned s /\
     s = map base64url_digit (sextets (map byte_val bytes)) /\
     Forall (fun c => c ∉ chars "+/=") s /\
     base64UrlDecode decode None fuel (Some s) toString
       = Returned (decoded decode toString bytes)) /\
  ((max_arguments < length bytes)%nat ->
   Spread.base64UrlEncode max_arguments refusal encode None data
     = Threw (RangeError refusal)).
Proof.
  intros Hfuel bytes. rewrite spread_base64UrlEncode. fold bytes.
  split.
  - intros Hle. rewrite (proj2 (Nat.leb_le _ _) Hle).
    destruct (base64UrlEncode_decodes encode decode data toString fuel Hfuel)
      as (H1 & H2 & H3).
    by exists (base64UrlEncode encode None data).
  - intros Hlt. by rewrite (proj2 (Nat.leb_gt _ _) Hlt).
Qed.

(** X11.  The two decoders are not interchangeable.  [base64UrlDecode]
    also reads the standard alphabet with its padding: it decodes whatever
    [base64Encode] has returned.  [base64Decode] reads what
    [base64UrlEncode] has returned only when none of the 6-bit groups of
    the bytes is 62 or 63; when one is, the output holds a [-] or a [_]
    and [base64Decode] throws the platform's invalid-character error. *)
Theorem base64_decoders_differ (data : operand) (toString : option bool) :
  let bytes := _toUint8Array encode data in
  let groups := sextets (map byte_val bytes) in
  (forall (fuel : nat) (s : list ascii),
     Spread.base64Encode max_arguments refusal encode None data = Returned s ->
     base64UrlDecode decode None fuel (Some s) toString
       = Returned (decoded decode toString bytes)) /\
  (forall s : list ascii,
     Spread.base64UrlEncode max_arguments refusal encode None data
       = Returned s ->
     (Forall (fun n => n < 62) groups ->
      base64Decode decode None (Some s) toString
        = Returned (decoded decode toString bytes)) /\
     (Exists (fun n => 62 <= n) groups ->
      base64Decode decode None (Some s) toString
        = Threw ERR_INVALID_CHARACTER)).
Proof.
  intros bytes groups.
  destruct (base64_decoders_cross encode decode toString) as (Hurl & _ & Hrej).
  pose proof (sextets_range _ (byte_vals_octets bytes)) as Hss.
  fold groups in Hss.
  split.
  - intros fuel s. rewrite spread_base64Encode.
    destruct (_ <=? _)%nat; [|done]. intros Hs.
    assert (s = base64Encode encode None data) as -> by congruence.
    apply Hurl.
  - intros s. rewrite spread_base64UrlEncode.
    destruct (_ <=? _)%nat; [|done]. intros Hs.
    assert (s = base64UrlEncode encode None data) as -> by congruence.
    clear Hs. rewrite base64UrlEncode_fallback. fold bytes groups. split.
    + intros Hlow.
      assert (map base64url_digit groups = map base64_digit groups) as ->.
      { apply map_ext_Forall. rewrite Forall_forall in Hss, Hlow |- *.
        intros n Hn. apply base64url_digit_low.
        specialize (Hss n Hn). specialize (Hlow n Hn).
        unfold is_sextet in Hss. lia. }
      unfold groups. rewrite <- remove_padding_digits. unfold bytes.
      rewrite <- base64Encode_fallback.
      by destruct (base64Encode_decodes encode decode data toString)
        as (_ & H2 & _).
    + intros (n & Hn & Hhigh)%Exists_exists. apply Hrej.
      rewrite Forall_forall in Hss. specialize (Hss n Hn).
      unfold is_sextet in Hss.
      destruct (base64url_digit_high n ltac:(lia)) as [<-|<-];
        [left|right]; by apply list_elem_of_fmap_2.
Qed.

End SpreadProofs.

(** ["foob"] within the limit of 1000 arguments. *)
Lemma base64url_round_trip_witness :
  exists s,
    Spread.base64UrlEncode 1000 "Maximum call stack size exceeded"
      list_byte_of_string None (Text "foob") = Returned s /\
    s = map base64url_digit
          (sextets (map byte_val (list_byte_of_string "foob"))) /\
    Forall (fun c => c ∉ chars "+/=") s /\
    base64UrlDecode string_of_list_byte None 2 (Some s) None
      = Returned (decoded string_of_list_byte None (list_byte_of_string "foob")).
Proof.
  refine (proj1 (base64url_round_trip 1000 "Maximum call stack size exceeded"
                   list_byte_of_string string_of_list_byte (Text "foob")
                   None 2 _) _).
  - lia.
  - vm_compute. lia.
Defined.

Example base64_samples :
  Spread.base64Encode 1000 "Maximum call stack size exceeded"
    list_byte_of_string None (Text "foob") = Returned (chars "Zm9vYg==") /\
  Spread.base64UrlEncode 1000 "Maximum call stack size exceeded"
    list_byte_of_string None (Text "foob") = Returned (chars "Zm9vYg") /\
  Spread.base64Encode 3 "Maximum call stack size exceeded"
    list_byte_of_string None (Text "foob")
    = Threw (RangeError "Maximum call stack size exceeded") /\
  base64UrlDecode string_of_list_byte None 3 (Some (chars "Zm9vYmE")) None
    = Returned (Text "fooba") /\
  Spread.base64UrlEncode 1000 "Maximum call stack size exceeded"
    list_byte_of_string None (Bytes [Byte.xfb]) = Returned (chars "-w") /\
  base64Decode string_of_list_byte None (Some (chars "-w")) None
    = Threw ERR_INVALID_CHARACTER.
Proof. vm_compute. repeat split. Qed.

(** ** Hashing *)

Section HashProofs.
Variable encode : string -> list Byte.byte.
Variable decode : list Byte.byte -> string.
Variable digest : string -> list Byte.byte -> outcome (list Byte.byte).

(** X12.  [hash] computes the digest first and only then looks at
    [returnAs]: when the platform rejects the digest, [hash] rejects with
    the platform's error, whatever [returnAs] is; when the digest succeeds,
    [hash] rejects exactly for a [returnAs] outside the seven known values,
    with the unsupported-option error.  The input is hashed through its
    bytes: a text and the bytes of its encoding have the same hash. *)
Theorem hash_failures (toHex : option (list Byte.byte -> list ascii))
    (toBase64 : option (bool -> list Byte.byte -> list ascii))
    (data : operand) (options : option DigestOptions) :
  let alg := default "SHA-256"%string (options ≫= algorithm) in
  let ret := default "hex"%string (options ≫= returnAs) in
  let bytes := _toUint8Array encode data in
  (forall x, digest alg bytes = Threw x ->
     hash encode digest toHex toBase64 data options = Threw x) /\
  (forall d, digest alg bytes = Returned d ->
     (ret ∈ known_returnAs <->
      is_returned (hash encode digest toHex toBase64 data options) = true) /\
     (ret ∉ known_returnAs ->
      hash encode digest toHex toBase64 data options
        = Threw (ERR_UNSUPPORTED_RETURN ret))) /\
  hash encode digest toHex toBase64 data options
    = hash encode digest toHex toBase64 (Bytes bytes) options.
Proof.
  intros alg ret bytes.
  assert (hash encode digest toHex toBase64 data options
          = match digest alg bytes with
            | Returned hashBytes =>
                if bool_decide (ret = "bytes"%string)
                   || bool_decide (ret = "uint8array"%string)
                then Returned (AsBytes hashBytes)
                else if bool_decide (ret = "hex"%string)
                then Returned (AsString (hexEncode encode toHex (Bytes hashBytes)))
                else if bool_decide (ret = "b64"%string)
                        || bool_decide (ret = "base64"%string)
                then Returned
                       (AsString (base64Encode encode toBase64 (Bytes hashBytes)))
                else if bool_decide (ret = "b64url"%string)
                        || bool_decide (ret = "base64url"%string)
                then Returned
                       (AsString (base64UrlEncode encode toBase64
                                    (Bytes hashBytes)))
                else Threw (ERR_UNSUPPORTED_RETURN ret)
            | Threw x => Threw x
            | Spinning => Spinning
            end) as Hhash.
  { unfold hash, alg, ret, bytes. by destruct options as [[? ?]|], data. }
  split; [|split].
  - intros x Hx. by rewrite Hhash, Hx.
  - intros d Hd. rewrite Hhash, Hd. clear Hhash. clearbody ret.
    destruct (decide (ret ∈ known_returnAs)) as [Hin|Hout].
    + split; [|done]. split; [intros _|done].
      unfold known_returnAs in Hin.
      repeat (apply elem_of_cons in Hin as [->|Hin]; [reflexivity|]).
      by apply elem_of_nil in Hin.
    + assert (forall s, s ∈ known_returnAs -> bool_decide (ret = s) = false)
        as Hno.
      { intros s Hs. apply bool_decide_eq_false_2. by intros ->. }
      rewrite !Hno by (unfold known_returnAs; repeat constructor).
      cbn [orb is_returned]. done.
  - unfold hash. by destruct data.
Qed.

Lemma hash_returning toHex toBase64 (data : operand) alg r d :
  digest (default "SHA-256"%string alg) (_toUint8Array encode data) = Returned d ->
  hash encode digest toHex toBase64 data (returning alg r)
  = if bool_decide (r = "bytes"%string) || bool_decide (r = "uint8array"%string)
    then Returned (AsBytes d)
    else if bool_decide (r = "hex"%string)
    then Returned (AsString (hexEncode encode toHex (Bytes d)))
    else if bool_decide (r = "b64"%string) || bool_decide (r = "base64"%string)
    then Returned (AsString (base64Encode encode toBase64 (Bytes d)))
    else if bool_decide (r = "b64url"%string)
            || bool_decide (r = "base64url"%string)
    then Returned (AsString (base64UrlEncode encode toBase64 (Bytes d)))
    else Threw (ERR_UNSUPPORTED_RETURN r).
Proof.
  intros Hd. unfold hash, returning. cbn [default from_option id algorithm returnAs].
  replace (match data with Text s => encode s | Bytes b => b end)
    with (_toUint8Array encode data) by (by destruct data).
  by rewrite Hd.
Qed.

(** X13.  Every string form of a hash decodes to its bytes form.  On a
    platform without the native conversions, when the digest of the input
    is [d]: [returnAs] [bytes] or [uint8array] gives [d] itself; [hex], the
    default, gives two lower-case digits per byte that [hexDecode] reads
    back as [d]; [base64] or [b64] gives what [base64Decode] reads back as
    [d]; and [base64url] or [b64url] gives what [base64UrlDecode] reads
    back as [d]. *)
Theorem hash_forms_decode (data : operand) (alg : option string)
    (d : list Byte.byte) :
  digest (default "SHA-256"%string alg) (_toUint8Array encode data) = Returned d ->
  let hash_as r := hash encode digest None None data (returning alg r) in
  (hash_as "bytes"%string = Returned (AsBytes d) /\
   hash_as "uint8array"%string = Returned (AsBytes d)) /\
  (exists h,
     hash_as "hex"%string = Returned (AsString h) /\
     hash encode digest None None data
       (Some (mkDigestOptions alg None)) = Returned (AsString h) /\
     length h = (2 * length d)%nat /\
     hexDecode decode None (Some h) (Some false) = Returned (Bytes d)) /\
  (exists s,
     hash_as "base64"%string = Returned (AsString s) /\
     hash_as "b64"%string = Returned (AsString s) /\
     base64Decode decode None (Some s) (Some false) = Returned (Bytes d)) /\
  (exists s,
     hash_as "base64url"%string = Returned (AsString s) /\
     hash_as "b64url"%string = Returned (AsString s) /\
     forall fuel, (2 <= fuel)%nat ->
       base64UrlDecode decode None fuel (Some s) (Some false)
         = Returned (Bytes d)).
Proof.
  intros Hd hash_as. unfold hash_as.
  rewrite !(hash_returning None None data alg _ d Hd).
  split; [done|]. split; [|split].
  - exists (hexEncode encode None (Bytes d)). split; [done|]. split.
    { unfold hash. cbn [default from_option id algorithm returnAs].
      replace (match data with Text s => encode s | Bytes b => b end)
        with (_toUint8Array encode data) by (by destruct data).
      by rewrite Hd. }
    rewrite hexEncode_fallback. cbn [_toUint8Array]. split.
    + clear Hd. induction d as [|x d IH]; [done|]. cbn [map concat].
      rewrite length_app, IH. cbn. lia.
    + unfold hexDecode. destruct d as [|x d]; [done|].
      rewrite <- (app_nil_r (concat _)), fromHexString_pairs, !app_nil_r.
      done.
  - exists (base64Encode encode None (Bytes d)). split; [done|]. split; [done|].
    rewrite base64Encode_fallback. cbn [_toUint8Array].
    destruct d as [|x d]; [done|].
    by rewrite (base64Decode_atob decode _ _ (Some false) (x :: d)
                  (btoa_nonempty x d) (atob_btoa (x :: d))
                  (from_string_fromCodePoint (x :: d))).
  - exists (base64UrlEncode encode None (Bytes d)).
    split; [done|]. split; [done|]. intros fuel Hfuel.
    rewrite base64UrlEncode_fallback. cbn [_toUint8Array].
    destruct d as [|x d]; [done|].
    pose proof (sextets_range _ (byte_vals_octets (x :: d))) as Hss.
    eapply (base64UrlDecode_atob decode fuel _ _ _ (Some false) (x :: d)).
    + apply digits_nonempty.
    + rewrite from_url_digits by done. by apply pad_loop_digits.
    + apply atob_btoa.
    + apply from_string_fromCodePoint.
    + done.
Qed.

(** X14.  The first release of [hash] is the current one with [asString]
    read as a [returnAs]: [asString: false] is [returnAs: "bytes"], and
    anything else is [returnAs: "hex"]. *)
Theorem hash_asString_agrees (toHex : option (list Byte.byte -> list ascii))
    (toBase64 : option (bool -> list Byte.byte -> list ascii))
    (data : operand) (alg : option string) (asString : option bool) :
  AsString.hash encode digest toHex data
    (Some (AsString.mkDigestOptions alg asString))
    = hash encode digest toHex toBase64 data
        (returning alg (returnAs_of asString)) /\
  AsString.hash encode digest toHex data None
    = hash encode digest toHex toBase64 data None.
Proof.
  unfold AsString.hash, hash, returning, returnAs_of.
  cbn [default from_option id algorithm returnAs AsString.algorithm
         AsString.asString].
  split.
  - destruct (digest _ _); try done. by case_bool_decide.
  - by destruct (digest _ _).
Qed.

End HashProofs.

Lemma hash_forms_decode_witness :
  hash list_byte_of_string (fun _ b => Returned (take 2 b)) None None
    (Text "foob") (returning None "uint8array")
  = Returned (AsBytes (list_byte_of_string "fo")).
Proof.
  exact (proj2 (proj1 (hash_forms_decode list_byte_of_string
                         string_of_list_byte (fun _ b => Returned (take 2 b))
                         (Text "foob") None (list_byte_of_string "fo")
                         eq_refl))).
Defined.

(** ** No modulo bias *)

Lemma accepted_words (range q w v : Z) :
  0 < range -> q = 2 ^ 32 / range -> 0 <= w -> 0 <= v < range ->
  (w < 2 ^ 32 - 2 ^ 32 mod range /\ w mod range = v) <->
  exists k, 0 <= k < q /\ w = v + k * range.
Proof.
  intros Hr -> Hw Hv.
  pose proof (Z.div_mod (2 ^ 32) range ltac:(lia)) as Hdm.
  assert (2 ^ 32 - 2 ^ 32 mod range = 2 ^ 32 / range * range) as -> by lia.
  split.
  - intros [Hlt Hmod]. exists (w / range).
    pose proof (Z.div_mod w range ltac:(lia)) as Hw'.
    split; [|lia]. split; [apply Z.div_pos; lia|].
    apply Z.div_lt_upper_bound; lia.
  - intros (k & Hk & ->). split; [nia|].
    rewrite Z.mod_add by lia. apply Z.mod_small. lia.
Qed.

(** X15.  The rejection test removes the modulo bias.  For a request the
    validation lets through, with bounds in the range where Numbers are
    exact, put [range = max - min] and [q = 2^32 / range], rounded down.
    One pass of the loop of [secureRandomNumber], and of [next] on a fresh
    session, returns [v] exactly when [v] is a value of [[min, max)] that
    is not excluded and the word read is one of the [q] words
    [(v - min) + k * range] with [0 <= k < q], which are words below
    [2^32]; on any other word the pass returns nothing.  So every value
    that can be returned is returned for the same number of words. *)
Theorem draw_unbiased (min max : Z) (ignore : option ignore_value)
    (e : entropy) :
  - 2 ^ 53 <= min -> max <= 2 ^ 53 ->
  min < max -> max - min <= 2 ^ 32 -> ignore_accepted ignore = true ->
  excluded_count min max (exclusion ignore) < max - min ->
  let range := max - min in
  let q := 2 ^ 32 / range in
  let one_pass :=
    fst (secureRandomNumber 1 (Int min) (Some (inl (Int max))) ignore e) in
  let session_pass :=
    fst (next 1 (Int min) (Some (inl (Int max))) ignore
           (createSecureRandomGenerator, e)) in
  1 <= q /\
  session_pass = one_pass /\
  (forall v,
     one_pass = Returned v <->
     min <= v < max /\ (Int v ∉ exclusion ignore) /\
     exists k, 0 <= k < q /\ raw e 0 = (v - min) + k * range) /\
  (forall v k, min <= v < max -> 0 <= k < q ->
     0 <= (v - min) + k * range < 2 ^ 32) /\
  ((forall v, one_pass <> Returned v) -> one_pass = Spinning).
Proof.
  intros Hlo Hhi H1 H2 H3 H4 range q one_pass session_pass.
  assert (0 < range <= 2 ^ 32) as Hr by (unfold range; lia).
  assert (1 <= q) as Hq by (apply Z.div_le_lower_bound; lia).
  pose proof (raw_bounds e 0) as Hw.
  split; [done|]. split; [apply next_fresh_outcome|]. split; [|split].
  - intros v. unfold one_pass.
    rewrite (one_shot_outcome 1 min max ignore e Hlo Hhi H1 H2 H3 H4 v).
    split.
    + intros (k & Hk & [[Hlt Hnot] _] & ->).
      assert (k = 0%nat) as -> by lia.
      pose proof (Z.mod_pos_bound (raw e 0) range ltac:(lia)) as Hm.
      fold range in Hlt, Hnot, Hm |- *.
      split; [lia|]. split; [done|].
      apply (accepted_words range q (raw e 0) (min + raw e 0 mod range - min));
        [lia|done|lia|lia|].
      split; [done|lia].
    + intros (Hv & Hnot & Hk).
      apply (accepted_words range q (raw e 0) (v - min)) in Hk
        as [Hlt Hmod]; [|lia|done|lia|lia].
      exists 0%nat. split; [lia|].
      assert (v = min + raw e 0 mod (max - min)) as Hv'
        by (fold range; lia).
      split; [|done]. split; [|intros; lia].
      split; [done|]. by rewrite <- Hv'.
  - intros v k Hv Hk.
    pose proof (Z.div_mod (2 ^ 32) range ltac:(lia)) as Hdm.
    pose proof (Z.mod_pos_bound (2 ^ 32) range ltac:(lia)) as Hm.
    fold q in Hdm. unfold range in *. nia.
  - intros Hnone. unfold one_pass in *. unfold secureRandomNumber in *.
    destruct (check_arguments_valid min max ignore H1 H2 H3 H4)
      as (ign & Hc & _).
    rewrite Hc in *. rewrite secureRandomNumber_loop_S in *.
    destruct (accepts min (max - min) ign (raw e 0)); [|done].
    by destruct (Hnone _ eq_refl).
Qed.

(** [secureRandomNumber(50, 150, [55, 60, 65])] on the sample source: the
    first pass returns 95, so the word read is one of the 42949672 words
    [45 + 100 k]. *)
Lemma draw_unbiased_witness :
  exists k, 0 <= k < 2 ^ 32 / (150 - 50) /\
    raw sample_entropy 0 = (95 - 50) + k * (150 - 50).
Proof.
  refine (proj2 (proj2 (proj1 (proj1 (proj2 (proj2
            (draw_unbiased 50 150
               (Some (IsIterable [Int 55; Int 60; Int 65]))
               sample_entropy _ _ _ _ _ _))) 95) _))).
  - lia.
  - lia.
  - lia.
  - lia.
  - reflexivity.
  - vm_compute. reflexivity.
  - vm_compute. reflexivity.
Defined.

(** ** What a generated string is made of *)

Lemma drawn_from_defined (classes : list (list ascii)) gs :
  Forall2 drawn_from classes gs ->
  exists cs, gs = Some <$> cs /\ Forall2 (fun cls c => c ∈ cls) classes cs.
Proof.
  induction 1 as [|cls g classes gs (c & -> & Hc) _ (cs & -> & IH)].
  - by exists [].
  - exists (c :: cs). split; [done|]. by constructor.
Qed.

Lemma omap_Some (l : list ascii) : omap id (Some <$> l) = l.
Proof. induction l as [|c l IH]; [done|]. cbn. by rewrite IH. Qed.

Lemma fmap_Some_Permutation (l k : list ascii) :
  Some <$> l ≡ₚ Some <$> k -> l ≡ₚ k.
Proof.
  intros H. apply (omap_Permutation id) in H. by rewrite !omap_Some in H.
Qed.

Section Composition.
Variable inv : gstate -> Prop.
Variable holds :
  forall S A : Type, (nat -> outcome A * S) -> (A -> S -> Prop) -> Prop.
Arguments holds {S A} _ _.

Hypothesis inv_ok : forall st, inv st -> session_ok (fst st).

Hypothesis holds_ret :
  forall S A (a : A) (s : S) (Q : A -> S -> Prop),
    Q a s -> holds (fun _ => (Returned a, s)) Q.

Hypothesis holds_bind :
  forall S A B (m : nat -> M S A) (k : nat -> A -> M S B) (s : S)
         (Q : A -> S -> Prop) (R : B -> S -> Prop),
    holds (fun fuel => m fuel s) Q ->
    (forall a s', Q a s' -> holds (fun fuel => k fuel a s') R) ->
    holds (fun fuel => bind (m fuel) (k fuel) s) R.

Hypothesis holds_weaken :
  forall S A (run : nat -> outcome A * S) (Q R : A -> S -> Prop),
    holds run Q -> (forall a s, Q a s -> R a s) -> holds run R.

Hypothesis holds_transfer :
  forall S A S' A' (run : nat -> outcome A * S)
         (run' : nat -> outcome A' * S') (f : A -> S -> A')
         (g : A -> S -> S') (Q : A -> S -> Prop) (Q' : A' -> S' -> Prop),
    holds run Q ->
    (forall fuel,
       match run fuel with
       | (Returned a, s) => run' fuel = (Returned (f a s), g a s)
       | (Threw _, _) => True
       | (Spinning, _) => fst (run' fuel) = Spinning
       end) ->
    (forall a s, Q a s -> Q' (f a s) (g a s)) ->
    holds run' Q'.

Hypothesis holds_next :
  forall n st,
    1 <= n <= 2 ^ 32 -> inv st ->
    holds (fun fuel => next fuel (Int n) None None st)
      (fun j st' => 0 <= j < n /\ inv st').

Lemma generate_body_made_of length timestampStr up lo nu sp st :
  1 <= length - Z.of_nat (List.length timestampStr) <= 2 ^ 32 ->
  enabled_alphabets up lo nu sp <> [] ->
  Z.of_nat (List.length (concat (enabled_alphabets up lo nu sp))) <= 2 ^ 32 ->
  inv st ->
  holds
    (fun fuel => generate_body fuel length timestampStr up lo nu sp st)
    (fun s st' =>
       exists gs extra body,
         s = timestampStr ++ body /\
         made_of (enabled_alphabets up lo nu sp)
           (length - Z.of_nat (List.length timestampStr)) gs extra body).
Proof.
  intros HL Hne Hsize Hst.
  destruct defaults_nonempty as (D1 & D2 & D3 & D4).
  unfold enabled_alphabets in *.
  rewrite !concat_app, !length_app in Hsize.
  unfold generate_body.
  eapply holds_bind;
    [apply (include_class_holds inv (@holds) holds_ret holds_bind holds_next
              up DEFAULT_UPPERCASE); [done|lia|done]|].
  intros c1 st1 (Hc1 & (g1 & Hg1 & Hd1) & Hst1). cbn [fst snd] in Hc1, Hg1.
  eapply holds_bind;
    [apply (include_class_holds inv (@holds) holds_ret holds_bind holds_next
              lo DEFAULT_LOWERCASE); [done|lia|done]|].
  intros c2 st2 (Hc2 & (g2 & Hg2 & Hd2) & Hst2).
  eapply holds_bind;
    [apply (include_class_holds inv (@holds) holds_ret holds_bind holds_next
              nu DEFAULT_NUMBERS); [done|lia|done]|].
  intros c3 st3 (Hc3 & (g3 & Hg3 & Hd3) & Hst3).
  eapply holds_bind;
    [apply (include_class_holds inv (@holds) holds_ret holds_bind holds_next
              sp DEFAULT_SPECIALS); [done|lia|done]|].
  intros c4 st4 (Hc4 & (g4 & Hg4 & Hd4) & Hst4).
  set (classes := class_alphabet up DEFAULT_UPPERCASE
                    ++ class_alphabet lo DEFAULT_LOWERCASE
                    ++ class_alphabet nu DEFAULT_NUMBERS
                    ++ class_alphabet sp DEFAULT_SPECIALS) in *.
  assert (fst c4 = concat classes) as Hcharset.
  { subst classes. rewrite Hc4, Hc3, Hc2, Hc1, !concat_app.
    by rewrite <- !app_assoc. }
  assert (Forall2 drawn_from classes (snd c4)) as Hguar.
  { subst classes. rewrite Hg4, Hg3, Hg2, Hg1. cbn [app].
    rewrite <- !app_assoc. by repeat apply Forall2_app. }
  assert (fst c4 <> []) as Hcs.
  { rewrite Hcharset. pose proof (enabled_alphabets_nonempty up lo nu sp) as Hall.
    unfold enabled_alphabets in Hall. fold classes in Hall.
    destruct classes as [|cls classes']; [done|].
    apply Forall_cons in Hall as [Hcls _]. cbn [concat].
    destruct cls; [done|]. done. }
  pose proof (Forall2_length _ _ _ Hguar) as Hk.
  assert (List.length classes <= 4)%nat as Hk4.
  { subst classes. rewrite !length_app. unfold class_alphabet.
    repeat destruct (_shouldIncludeSet _); cbn [List.length]; lia. }
  assert (Z.of_nat (List.length (fst c4)) <= 2 ^ 32) as Hcslen.
  { rewrite Hcharset. subst classes. rewrite !concat_app, !length_app. lia. }
  destruct (fst c4) as [|ch charset'] eqn:Echarset; [done|].
  rewrite <- Echarset in *. clear ch charset' Echarset.
  set (L := length - Z.of_nat (List.length timestampStr)) in *.
  eapply (holds_bind _ _ _ _ _ _
            (fun randomChars st' =>
               (Forall (drawn_from (concat classes)) randomChars /\
                List.length randomChars
                  = Z.to_nat (L - Z.of_nat (List.length (snd c4)))) /\
               inv st')).
  { destruct (Z.ltb_spec 0 (L - Z.of_nat (List.length (snd c4)))) as [Hpos|Hpos].
    - eapply holds_weaken;
        [by apply (fill_random_holds inv (@holds) holds_ret holds_bind
                     holds_weaken holds_next)|].
      intros r st' [(extra & -> & Hn & Hall) Hst']. cbn [app].
      rewrite <- Hcharset. done.
    - apply holds_ret. split; [|done]. split; [done|]. cbn [List.length]. lia. }
  intros randomChars st5 [[Hrand Hrlen] Hst5].
  eapply holds_bind.
  { apply (shuffle_fresh_holds inv (@holds) inv_ok holds_ret holds_bind
             holds_weaken holds_transfer holds_next); [|done].
    rewrite length_app. lia. }
  intros final st6 [Hperm Hst6]. apply holds_ret.
  destruct (drawn_from_defined _ _ Hguar) as (gs & Egs & Hgs).
  destruct (all_defined _ _ Hrand) as (extra & Eextra & Hextra).
  assert (Forall (drawn_from (concat classes)) final) as Hfinal.
  { rewrite Hperm. apply Forall_app. split; [|done].
    by apply drawn_from_concat. }
  destruct (all_defined _ _ Hfinal) as (full & -> & Hfull).
  pose proof (Permutation_length Hperm) as Hlenp.
  rewrite length_fmap, length_app, Hrlen in Hlenp.
  rewrite Array_slice0_take by lia.
  rewrite <- fmap_take, Array_join_defined.
  exists gs, extra, (take (Z.to_nat L) full). split; [done|].
  rewrite Egs, Eextra, !length_fmap in *.
  pose proof (Forall2_length _ _ _ Hgs) as Hk'.
  split; [done|]. split; [done|]. split; [lia|]. split.
  - rewrite length_take. lia.
  - rewrite <- fmap_app in Hperm. apply fmap_Some_Permutation in Hperm.
    rewrite <- Hperm. apply sublist_submseteq, sublist_take.
Qed.

Lemma secureGenerate_made_of clock numOrOptions e :
  inv (createSecureRandomGenerator, e) ->
  Z.of_nat (List.length (requested_timestamp clock numOrOptions))
    < requested_length numOrOptions ->
  requested_length numOrOptions
    - Z.of_nat (List.length (requested_timestamp clock numOrOptions)) <= 2 ^ 32 ->
  requested_alphabets numOrOptions <> [] ->
  Z.of_nat (List.length (concat (requested_alphabets numOrOptions))) <= 2 ^ 32 ->
  holds (fun fuel => secureGenerate fuel clock numOrOptions e)
    (fun s (_ : entropy) =>
       exists gs extra body,
         s = requested_timestamp clock numOrOptions ++ body /\
         made_of (requested_alphabets numOrOptions)
           (requested_length numOrOptions
            - Z.of_nat (List.length (requested_timestamp clock numOrOptions)))
           gs extra body).
Proof.
  unfold requested_length, requested_timestamp, requested_alphabets.
  destruct (resolve_options numOrOptions) as [[[[[length up] lo] nu] sp] ts] eqn:R.
  intros Hinv Hts Hmax Hne Hsize.
  eapply (holds_transfer _ _ _ _
            (fun fuel => generate_body fuel length (timestamp_string clock ts)
                           up lo nu sp (createSecureRandomGenerator, e))
            _ (fun s _ => s) (fun _ st => snd st)).
  - apply generate_body_made_of; [lia|done|done|done].
  - intros fuel. rewrite (secureGenerate_unfold _ _ _ _ _ _ _ _ _ _ R).
    destruct (Z.ltb_spec length 1); [lia|].
    destruct (Z.leb_spec length
                (Z.of_nat (List.length (timestamp_string clock ts)))); [lia|].
    rewrite andb_false_r.
    by destruct (generate_body fuel length _ up lo nu sp _) as [[?| |] ?].
  - intros s st H. exact H.
Qed.

End Composition.

Lemma made_of_cases (classes : list (list ascii)) (L : Z) gs extra body :
  made_of classes L gs extra body ->
  (Z.of_nat (length classes) <= L -> body ≡ₚ gs ++ extra) /\
  (L < Z.of_nat (length classes) -> extra = [] /\ body ⊆+ gs).
Proof.
  intros (Hgs & Hextra & Hlen & Hbody & Hsub).
  pose proof (Forall2_length _ _ _ Hgs) as Hk.
  split.
  - intros Hroom. apply submseteq_length_Permutation; [done|].
    rewrite length_app. lia.
  - intros Hshort. assert (extra = []) as -> by (destruct extra; [done|cbn in Hlen; lia]).
    split; [done|]. by rewrite app_nil_r in Hsub.
Qed.

(** X16.  What a generated string is made of.  After the timestamp prefix,
    the output of [secureGenerate] is taken from one character drawn from
    each enabled class and, when more characters are asked for than there
    are enabled classes, as many characters drawn from all the enabled
    classes together as are missing.  With room for every class the output
    is a rearrangement of exactly these characters.  With fewer characters
    than classes it is not filled up and holds the characters of that many
    different classes, one of each.  This holds of any returned value on
    every entropy source, and on a fair source the call does return. *)
Theorem secureGenerate_composition (clock : Z) (e : entropy)
    (numOrOptions : option (Z + SecureGenerateOptions)) :
  let classes := requested_alphabets numOrOptions in
  let timestampStr := requested_timestamp clock numOrOptions in
  let L := requested_length numOrOptions - Z.of_nat (List.length timestampStr) in
  1 <= L <= 2 ^ 32 ->
  classes <> [] ->
  Z.of_nat (List.length (concat classes)) <= 2 ^ 32 ->
  delivers e (fun fuel => secureGenerate fuel clock numOrOptions e)
    (fun s _ =>
       exists gs extra body,
         s = timestampStr ++ body /\
         made_of classes L gs extra body /\
         (Z.of_nat (List.length classes) <= L -> body ≡ₚ gs ++ extra) /\
         (L < Z.of_nat (List.length classes) -> extra = [] /\ body ⊆+ gs)).
Proof.
  intros classes timestampStr L HL Hne Hsize.
  subst classes timestampStr L.
  set (classes := requested_alphabets numOrOptions) in *.
  set (timestampStr := requested_timestamp clock numOrOptions) in *.
  set (L := requested_length numOrOptions - Z.of_nat (List.length timestampStr))
    in *.
  assert (delivers e (fun fuel => secureGenerate fuel clock numOrOptions e)
            (fun s _ =>
               exists gs extra body,
                 s = timestampStr ++ body /\ made_of classes L gs extra body))
    as H.
  { split.
    - apply (secureGenerate_made_of (fun st => session_ok (fst st))
               (@sound) (fun st H => H) (@sound_ret) (@sound_bind)
               (@sound_weaken) (@sound_transfer) next_single_sound
               clock numOrOptions e fresh_session_ok);
        subst L timestampStr classes; (lia || done).
    - intros Hfair.
      apply (secureGenerate_made_of steady
               (@converges) (fun st H => proj1 H) (@converges_ret)
               (@converges_bind) (@converges_weaken) (@converges_transfer)
               next_single_converges
               clock numOrOptions e
               (steady_session _ _ fresh_session_ok Hfair));
        subst L timestampStr classes; (lia || done). }
  eapply delivers_weaken; [exact H|].
  intros s _ (gs & extra & body & -> & Hmade).
  exists gs, extra, body. split; [done|]. split; [done|].
  by apply made_of_cases.
Qed.

(** Two characters asked of the four default classes. *)
Lemma secureGenerate_composition_witness :
  delivers sample_entropy
    (fun fuel => secureGenerate fuel 0 (Some (inl 2)) sample_entropy)
    (fun s _ =>
       exists gs extra body,
         s = [] ++ body /\
         made_of [DEFAULT_UPPERCASE; DEFAULT_LOWERCASE; DEFAULT_NUMBERS;
                  DEFAULT_SPECIALS] 2 gs extra body /\
         (4 <= 2 -> body ≡ₚ gs ++ extra) /\
         (2 < 4 -> extra = [] /\ body ⊆+ gs)).
Proof.
  apply (secureGenerate_composition 0 sample_entropy (Some (inl 2))).
  - vm_compute. split; discriminate.
  - discriminate.
  - vm_compute. discriminate.
Defined.

Example secureGenerate_short_sample :
  fst (secureGenerate 10 0 (Some (inl 2)) sample_entropy)
  = Returned (chars "V(").
Proof. vm_compute. reflexivity. Qed.

(** ** The earlier generators of strings *)

Section Related.
Context {S1 S2 : Type}.
Variable R : S1 -> S2 -> Prop.

Lemma related_ret {A} (P : A -> Prop) a :
  P a -> related R P (ret a) (ret a).
Proof. intros HP s1 s2 HR. cbn. by repeat split; [|intros ? [= <-]]. Qed.

Lemma related_throw {A} (P : A -> Prop) x :
  related R P (throw x) (throw x).
Proof. intros s1 s2 HR. by cbn. Qed.

Lemma related_bind {A B} (P : A -> Prop) (Q : B -> Prop) m1 m2 k1 k2 :
  related R P m1 m2 ->
  (forall a, P a -> related R Q (k1 a) (k2 a)) ->
  related R Q (bind m1 k1) (bind m2 k2).
Proof.
  intros H1 H2 s1 s2 HR. destruct (H1 s1 s2 HR) as (Ho & Hs & HP).
  unfold bind.
  destruct (m1 s1) as [[a| |] s1'], (m2 s2) as [[b| |] s2'];
    cbn [fst snd] in *; simplify_eq; try done.
  apply H2; auto.
Qed.

Lemma related_weaken {A} (P Q : A -> Prop) m1 m2 :
  (forall a, P a -> Q a) -> related R P m1 m2 -> related R Q m1 m2.
Proof.
  intros HPQ H s1 s2 HR. destruct (H s1 s2 HR) as (Ho & Hs & HP).
  repeat split; auto.
Qed.
End Related.

Lemma legacy_next_related fuel n :
  0 < n <= 2 ^ 32 ->
  related eq (fun _ => True)
    (Legacy.next fuel (Int n)) (next fuel (Int n) None None).
Proof. intros Hn s1 s2 <-. by rewrite legacy_next_valid. Qed.

Lemma unbuffered_draw_related fuel n :
  0 < n <= 2 ^ 32 ->
  related session_in_step (fun _ => True)
    (Unbuffered.secureRandomNumber fuel (Int n)) (Legacy.next fuel (Int n)).
Proof.
  intros Hn e st Hstep. unfold session_in_step in *.
  rewrite unbuffered_valid, legacy_next_valid, one_shot_single_spec,
    next_single_spec by lia.
  rewrite (first_accepted_ext fuel _ (upcoming st) (raw e)) by done.
  destruct (first_accepted fuel _ (raw e)) as [k|]; cbn [fst snd].
  - rewrite Hstep. split; [done|]. split; [|done]. by apply in_step_advance.
  - split; [done|]. split; [|done]. by apply in_step_advance.
Qed.

Lemma class_alphabet_size set def :
  def <> [] ->
  _shouldIncludeSet set = true ->
  Z.of_nat (length (concat (class_alphabet set def))) <= 2 ^ 32 ->
  0 < Z.of_nat (length (used_alphabet set def)) <= 2 ^ 32.
Proof.
  intros Hdef Hin. unfold class_alphabet. rewrite Hin.
  cbn [concat]. rewrite app_nil_r. intros Hsize. split; [|done].
  pose proof (enabled_used_nonempty set def Hdef Hin) as Hne.
  destruct (used_alphabet set def); [done|]. cbn [length]. lia.
Qed.

Lemma class_added_ret set def (acc : list ascii * list (option ascii)) used o :
  _shouldIncludeSet set = true -> used = used_alphabet set def ->
  class_added set def acc (fst acc ++ used, snd acc ++ [o]).
Proof.
  intros Hin ->. unfold class_added, class_alphabet. rewrite Hin.
  cbn [fst snd concat]. by rewrite app_nil_r, length_app.
Qed.

Lemma class_added_skip set def (acc : list ascii * list (option ascii)) :
  _shouldIncludeSet set = false -> class_added set def acc acc.
Proof.
  intros Hin. unfold class_added, class_alphabet. rewrite Hin.
  cbn [concat length]. by rewrite app_nil_r, Nat.add_0_r.
Qed.

Lemma legacy_include_class fuel set def acc :
  def <> [] ->
  Z.of_nat (length (concat (class_alphabet set def))) <= 2 ^ 32 ->
  related eq (class_added set def acc)
    (Legacy.include_class fuel set def acc) (include_class fuel set def acc).
Proof.
  intros Hdef Hsize. unfold Legacy.include_class, include_class.
  destruct (_shouldIncludeSet set) eqn:Hin;
    [|by apply related_ret, class_added_skip].
  unfold Legacy._characterSetBuilder, _characterSetBuilder.
  eapply related_bind with (P := fun r => fst r = used_alphabet set def).
  - eapply related_bind; [apply legacy_next_related|].
    + by apply class_alphabet_size.
    + intros j _. by apply related_ret.
  - intros r Hr. apply related_ret. by apply class_added_ret.
Qed.

Lemma unbuffered_include_class fuel set def acc :
  def <> [] ->
  Z.of_nat (length (concat (class_alphabet set def))) <= 2 ^ 32 ->
  related session_in_step (class_added set def acc)
    (Unbuffered.include_class fuel set def acc)
    (Legacy.include_class fuel set def acc).
Proof.
  intros Hdef Hsize. unfold Unbuffered.include_class, Legacy.include_class.
  destruct (_shouldIncludeSet set) eqn:Hin;
    [|by apply related_ret, class_added_skip].
  unfold Unbuffered._characterSetBuilder, Legacy._characterSetBuilder.
  eapply related_bind with (P := fun r => fst r = used_alphabet set def).
  - eapply related_bind; [apply unbuffered_draw_related|].
    + by apply class_alphabet_size.
    + intros j _. by apply related_ret.
  - intros r Hr. apply related_ret. by apply class_added_ret.
Qed.

Lemma legacy_fill_random fuel n charset acc :
  0 < Z.of_nat (length charset) <= 2 ^ 32 ->
  related eq (fun r => length r = (length acc + n)%nat)
    (Legacy.fill_random fuel n charset acc) (fill_random fuel n charset acc).
Proof.
  intros Hsize. revert acc. induction n as [|n IH]; intros acc.
  - apply related_ret. lia.
  - cbn [Legacy.fill_random fill_random].
    eapply related_bind; [by apply legacy_next_related|].
    intros j _. eapply related_weaken; [|apply IH].
    intros r ->. rewrite length_app. cbn [length]. lia.
Qed.

Lemma unbuffered_fill_random fuel n charset acc :
  0 < Z.of_nat (length charset) <= 2 ^ 32 ->
  related session_in_step (fun r => length r = (length acc + n)%nat)
    (Unbuffered.fill_random fuel n charset acc)
    (Legacy.fill_random fuel n charset acc).
Proof.
  intros Hsize. revert acc. induction n as [|n IH]; intros acc.
  - apply related_ret. lia.
  - cbn [Unbuffered.fill_random Legacy.fill_random].
    eapply related_bind; [by apply unbuffered_draw_related|].
    intros j _. eapply related_weaken; [|apply IH].
    intros r ->. rewrite length_app. cbn [length]. lia.
Qed.

Lemma legacy_shuffle_fresh fuel arr :
  Z.of_nat (length arr) <= 2 ^ 32 ->
  related eq (fun _ => True)
    (Legacy.shuffle_fresh fuel arr) (shuffle_fresh fuel arr).
Proof.
  intros Hlen s1 s2 <-. unfold Legacy.shuffle_fresh, shuffle_fresh.
  unfold Legacy.secureShuffle, secureShuffle.
  rewrite legacy_shuffle_loop; [done|].
  unfold contents. rewrite lookup_singleton_eq. cbn [default from_option id].
  lia.
Qed.

Lemma unbuffered_shuffle_fresh fuel arr :
  Z.of_nat (length arr) <= 2 ^ 32 ->
  related session_in_step (fun _ => True)
    (Unbuffered.shuffle_fresh fuel arr) (Legacy.shuffle_fresh fuel arr).
Proof.
  intros Hlen e st Hstep. unfold session_in_step in *.
  unfold Unbuffered.shuffle_fresh, Legacy.shuffle_fresh.
  unfold Unbuffered.secureShuffle, Legacy.secureShuffle.
  cbn [default from_option id].
  assert (Z.of_nat (Nat.pred (length (contents ({[0%nat := arr]} : store _)
                                       0%nat))) + 1 <= 2 ^ 32) as Hi.
  { unfold contents. rewrite lookup_singleton_eq.
    cbn [default from_option id]. lia. }
  rewrite legacy_shuffle_loop by done.
  destruct st as [g e0].
  destruct (unbuffered_shuffle_loop None fuel _ 0%nat
              ({[0%nat := arr]}) (g, e0) e Hi Hstep) as (H1 & H2 & H3).
  cbn [fst snd].
  destruct (Unbuffered.secureShuffle_loop _ _ _ _ _) as [[| |] [h1 e1]];
    destruct (secureShuffle_loop _ _ _ _ _) as [[| |] [h2 st2]];
    cbn [fst snd] in *; simplify_eq; done.
Qed.

(** The sizes at the calls of [next] and of [secureShuffle], from the
    sizes of the request. *)
Lemma class_alphabet_length set def : (length (class_alphabet set def) <= 1)%nat.
Proof. unfold class_alphabet. by destruct (_shouldIncludeSet set); cbn; lia. Qed.

Lemma enabled_alphabets_sizes up lo nu sp :
  Z.of_nat (length (concat (enabled_alphabets up lo nu sp))) <= 2 ^ 32 ->
  Z.of_nat (length (concat (class_alphabet up DEFAULT_UPPERCASE))) <= 2 ^ 32 /\
  Z.of_nat (length (concat (class_alphabet lo DEFAULT_LOWERCASE))) <= 2 ^ 32 /\
  Z.of_nat (length (concat (class_alphabet nu DEFAULT_NUMBERS))) <= 2 ^ 32 /\
  Z.of_nat (length (concat (class_alphabet sp DEFAULT_SPECIALS))) <= 2 ^ 32.
Proof.
  unfold enabled_alphabets. rewrite !concat_app, !length_app. lia.
Qed.

Lemma classes_added up lo nu sp (c1 c2 c3 c4 : list ascii * list (option ascii)) :
  class_added up DEFAULT_UPPERCASE ([], []) c1 ->
  class_added lo DEFAULT_LOWERCASE c1 c2 ->
  class_added nu DEFAULT_NUMBERS c2 c3 ->
  class_added sp DEFAULT_SPECIALS c3 c4 ->
  fst c4 = concat (enabled_alphabets up lo nu sp) /\
  (length (snd c4) <= 4)%nat.
Proof.
  intros [H1 L1] [H2 L2] [H3 L3] [H4 L4].
  pose proof (class_alphabet_length up DEFAULT_UPPERCASE).
  pose proof (class_alphabet_length lo DEFAULT_LOWERCASE).
  pose proof (class_alphabet_length nu DEFAULT_NUMBERS).
  pose proof (class_alphabet_length sp DEFAULT_SPECIALS).
  split; [|cbn [snd length] in L1; lia].
  rewrite H4, H3, H2, H1. cbn [fst app]. unfold enabled_alphabets.
  by rewrite !concat_app, !app_assoc.
Qed.

Lemma legacy_generate_body fuel length up lo nu sp :
  enabled_alphabets up lo nu sp <> [] ->
  length <= 2 ^ 32 ->
  Z.of_nat (List.length (concat (enabled_alphabets up lo nu sp))) <= 2 ^ 32 ->
  related eq (fun _ => True)
    (Legacy.generate_body fuel length up lo nu sp)
    (generate_body fuel length [] up lo nu sp).
Proof.
  intros Hne Hlen Hsize.
  destruct defaults_nonempty as (D1 & D2 & D3 & D4).
  destruct (enabled_alphabets_sizes _ _ _ _ Hsize) as (Z1 & Z2 & Z3 & Z4).
  unfold Legacy.generate_body, generate_body.
  eapply related_bind; [by apply legacy_include_class|]. intros c1 A1.
  eapply related_bind; [by apply legacy_include_class|]. intros c2 A2.
  eapply related_bind; [by apply legacy_include_class|]. intros c3 A3.
  eapply related_bind; [by apply legacy_include_class|]. intros c4 A4.
  destruct (classes_added _ _ _ _ _ _ _ _ A1 A2 A3 A4) as [Hcs Hgs].
  assert (fst c4 <> []) as Hcne.
  { rewrite Hcs. intros Hnil. apply Hne.
    pose proof (enabled_alphabets_nonempty up lo nu sp) as Hall.
    destruct (enabled_alphabets up lo nu sp) as [|cls rest]; [done|].
    apply Forall_cons in Hall as [Hcls _].
    cbn [concat] in Hnil. by apply app_eq_nil in Hnil as [? _]. }
  assert (0 < Z.of_nat (List.length (fst c4)) <= 2 ^ 32) as Hcsize.
  { rewrite Hcs. split; [|done]. rewrite <- Hcs.
    destruct (fst c4); [done|]. cbn [List.length]. lia. }
  destruct (fst c4) as [|ch charset] eqn:Echarset; [done|].
  cbn [List.length app]. rewrite Z.sub_0_r.
  eapply related_bind
    with (P := fun r => Z.of_nat (List.length r)
                        = Z.max 0 (length - Z.of_nat (List.length (snd c4)))).
  - destruct (Z.ltb_spec 0 (length - Z.of_nat (List.length (snd c4)))).
    + eapply related_weaken; [|by apply legacy_fill_random].
      intros r ->. cbn [List.length]. lia.
    + apply related_ret. cbn [List.length]. lia.
  - intros randomChars Hr.
    eapply related_bind; [apply legacy_shuffle_fresh|].
    + rewrite length_app. lia.
    + intros arr _. by apply related_ret.
Qed.

Lemma unbuffered_generate_body fuel length up lo nu sp :
  length <= 2 ^ 32 ->
  Z.of_nat (List.length (concat (enabled_alphabets up lo nu sp))) <= 2 ^ 32 ->
  related session_in_step (fun _ => True)
    (let* c1 := Unbuffered.include_class fuel up DEFAULT_UPPERCASE ([], []) in
     let* c2 := Unbuffered.include_class fuel lo DEFAULT_LOWERCASE c1 in
     let* c3 := Unbuffered.include_class fuel nu DEFAULT_NUMBERS c2 in
     let* c4 := Unbuffered.include_class fuel sp DEFAULT_SPECIALS c3 in
     match fst c4 with
     | [] => throw Legacy.ERR_NO_TYPES
     | _ :: _ =>
         let* randomChars :=
           (if 0 <? length - Z.of_nat (List.length (snd c4))
            then Unbuffered.fill_random fuel
                   (Z.to_nat (length - Z.of_nat (List.length (snd c4))))
                   (fst c4) []
            else ret []) in
         let* finalPasswordArray :=
           Unbuffered.shuffle_fresh fuel (snd c4 ++ randomChars) in
         ret (Array_join (Array_slice0 finalPasswordArray length))
     end)
    (Legacy.generate_body fuel length up lo nu sp).
Proof.
  intros Hlen Hsize.
  destruct defaults_nonempty as (D1 & D2 & D3 & D4).
  destruct (enabled_alphabets_sizes _ _ _ _ Hsize) as (Z1 & Z2 & Z3 & Z4).
  unfold Legacy.generate_body.
  eapply related_bind; [by apply unbuffered_include_class|]. intros c1 A1.
  eapply related_bind; [by apply unbuffered_include_class|]. intros c2 A2.
  eapply related_bind; [by apply unbuffered_include_class|]. intros c3 A3.
  eapply related_bind; [by apply unbuffered_include_class|]. intros c4 A4.
  destruct (classes_added _ _ _ _ _ _ _ _ A1 A2 A3 A4) as [Hcs Hgs].
  assert (fst c4 <> [] -> 0 < Z.of_nat (List.length (fst c4)) <= 2 ^ 32)
    as Hcsize.
  { intros Hcne. rewrite Hcs. split; [|done]. rewrite <- Hcs.
    destruct (fst c4); [done|]. cbn [List.length]. lia. }
  destruct (fst c4) as [|ch charset] eqn:Echarset; [apply related_throw|].
  specialize (Hcsize ltac:(done)).
  eapply related_bind
    with (P := fun r => Z.of_nat (List.length r)
                        = Z.max 0 (length - Z.of_nat (List.length (snd c4)))).
  - destruct (Z.ltb_spec 0 (length - Z.of_nat (List.length (snd c4)))).
    + eapply related_weaken; [|by apply unbuffered_fill_random].
      intros r ->. cbn [List.length]. lia.
    + apply related_ret. cbn [List.length]. lia.
  - intros randomChars Hr.
    eapply related_bind; [apply unbuffered_shuffle_fresh|].
    + rewrite length_app. lia.
    + intros arr _. by apply related_ret.
Qed.

Lemma resolve_without_timestamp numOrOptions length up lo nu sp ts :
  resolve_options numOrOptions = (length, up, lo, nu, sp, ts) ->
  resolve_options (without_timestamp numOrOptions)
    = (length, up, lo, nu, sp, None).
Proof.
  unfold resolve_options, without_timestamp.
  destruct numOrOptions as [[n|o]|]; cbn; by intros [= <- <- <- <- <- _].
Qed.

Lemma no_classes_no_draw up lo nu sp :
  enabled_alphabets up lo nu sp = [] ->
  _shouldIncludeSet up = false /\ _shouldIncludeSet lo = false /\
  _shouldIncludeSet nu = false /\ _shouldIncludeSet sp = false.
Proof.
  unfold enabled_alphabets, class_alphabet.
  by destruct (_shouldIncludeSet up), (_shouldIncludeSet lo),
    (_shouldIncludeSet nu), (_shouldIncludeSet sp).
Qed.

(** X17.  [generateSecurePassword] as it was before the timestamp option is
    [secureGenerate] called without a timestamp: for a request of at most
    [2^32] characters over alphabets of at most [2^32] characters in all,
    the two calls have the same outcome and leave the entropy source in the
    same state, whatever the options, a [timestamp] property not being
    read by the earlier function.  The one difference is the wording of
    the error when every class is switched off, which both raise without
    having drawn anything. *)
Theorem generateSecurePassword_agrees (fuel : nat) (clock : Z) (e : entropy)
    (numOrOptions : option (Z + SecureGenerateOptions)) :
  requested_length numOrOptions <= 2 ^ 32 ->
  Z.of_nat (List.length (concat (requested_alphabets numOrOptions))) <= 2 ^ 32 ->
  (requested_length numOrOptions < 1 \/ requested_alphabets numOrOptions <> [] ->
   Legacy.generateSecurePassword fuel numOrOptions e
     = secureGenerate fuel clock (without_timestamp numOrOptions) e) /\
  (1 <= requested_length numOrOptions ->
   requested_alphabets numOrOptions = [] ->
   Legacy.generateSecurePassword fuel numOrOptions e
     = (Threw Legacy.ERR_NO_TYPES, e) /\
   secureGenerate fuel clock (without_timestamp numOrOptions) e
     = (Threw ERR_NO_TYPES, e)).
Proof.
  unfold requested_length, requested_alphabets, Legacy.generateSecurePassword.
  destruct (resolve_options numOrOptions) as [[[[[length up] lo] nu] sp] ts]
    eqn:Hres.
  intros Hlen Hsize.
  rewrite (secureGenerate_unfold fuel clock _ e length up lo nu sp None)
    by (by eapply resolve_without_timestamp).
  cbn [timestamp_string]. rewrite bool_decide_eq_true_2 by done.
  cbn [negb andb].
  split.
  - intros Hcase. destruct (Z.ltb_spec length 1) as [|Hl]; [done|].
    destruct Hcase as [?|Hne]; [lia|].
    destruct (legacy_generate_body fuel length up lo nu sp Hne Hlen Hsize
                (createSecureRandomGenerator, e) (createSecureRandomGenerator, e)
                eq_refl) as (Ho & Hs & _).
    destruct (Legacy.generate_body _ _ _ _ _ _ _) as [r st].
    cbn [fst snd] in *. by rewrite Ho, Hs.
  - intros Hl Hnil. destruct (Z.ltb_spec length 1); [lia|].
    destruct (no_classes_no_draw _ _ _ _ Hnil) as (H1 & H2 & H3 & H4).
    unfold Legacy.generate_body, generate_body, Legacy.include_class,
      include_class.
    rewrite H1, H2, H3, H4. by cbn.
Qed.

Lemma generateSecurePassword_agrees_witness :
  Legacy.generateSecurePassword 64 (Some (inl 8)) sample_entropy
  = secureGenerate 64 0 (without_timestamp (Some (inl 8))) sample_entropy.
Proof.
  refine (proj1 (generateSecurePassword_agrees 64 0 sample_entropy
                   (Some (inl 8)) _ _) _).
  - vm_compute. by intros [=].
  - vm_compute. by intros [=].
  - right. by vm_compute.
Defined.

(** X18.  Drawing through a session did not change what is generated.
    [generateSecurePassword(options)] of the first release, every draw of
    which is a [secureRandomNumber(max)] fetching its words one by one, and
    the later one, which draws from one session and hands it to the
    shuffle, have the same outcome on the same entropy stream, with the
    same iteration bound: the same string, the same error or neither. *)
Theorem generateSecurePassword_draws_agree (fuel : nat) (e : entropy)
    (options : option SecureGenerateOptions) :
  requested_length (inr <$> options) <= 2 ^ 32 ->
  Z.of_nat (List.length (concat (requested_alphabets (inr <$> options))))
    <= 2 ^ 32 ->
  fst (Unbuffered.generateSecurePassword fuel options e)
    = fst (Legacy.generateSecurePassword fuel (inr <$> options) e).
Proof.
  unfold requested_length, requested_alphabets, Legacy.generateSecurePassword,
    Unbuffered.generateSecurePassword.
  assert (resolve_options (inr <$> options)
          = (default DEFAULT_LENGTH (opt_length (default Unbuffered.no_options options)),
             default (Flag true) (opt_uppercase (default Unbuffered.no_options options)),
             default (Flag true) (opt_lowercase (default Unbuffered.no_options options)),
             default (Flag true) (opt_numbers (default Unbuffered.no_options options)),
             default (Flag true) (opt_specials (default Unbuffered.no_options options)),
             opt_timestamp (default Unbuffered.no_options options))) as ->.
  { by destruct options. }
  intros Hlen Hsize.
  destruct (Z.ltb_spec
              (default DEFAULT_LENGTH
                 (opt_length (default Unbuffered.no_options options))) 1);
    [done|].
  destruct (unbuffered_generate_body fuel _ _ _ _ _ Hlen Hsize
              e (createSecureRandomGenerator, e) (in_step_fresh e))
    as (Ho & _ & _).
  destruct (Legacy.generate_body _ _ _ _ _ _ _) as [r st].
  cbn [fst] in *. by rewrite <- Ho.
Qed.

Lemma generateSecurePassword_draws_agree_witness :
  fst (Unbuffered.generateSecurePassword 64 None sample_entropy)
  = fst (Legacy.generateSecurePassword 64 None sample_entropy).
Proof.
  refine (generateSecurePassword_draws_agree 64 sample_entropy None _ _).
  - vm_compute. by intros [=].
  - vm_compute. by intros [=].
Defined.
